(** * Deployment health check: the retry protocol of
      [.github/actions/deployment-check/index.js]

    The action reads its inputs, probes every endpoint with an HTTPS GET,
    retries a failing endpoint a bounded number of times with a fixed pause,
    and either publishes three outputs or marks the step as failed.

    The embedding follows the JavaScript text function by function.
    Everything the script does to the outside world is recorded, in order,
    in an event log; everything the outside world decides (the value of an
    input, the fate of a request, the wall clock) is an oracle the
    development quantifies over.

    Conventions of the model:
    - a promise is settled by the first handler that fires, and each
      request meets exactly one of: a complete response, an error, a
      timeout;
    - [await] is sequencing: nothing else runs in between;
    - numbers are integers (the script only counts and parses integers),
      taken below the range where a double stops being exact;
    - a string is the UTF-8 encoding of the JavaScript string (well-formed
      text is assumed), and white space is what ECMAScript calls so;
    - [results] is kept in the state, so that it can be inspected after a
      [throw] as well. *)

From Stdlib Require Import ZArith List String Ascii Bool Lia.
From Stdlib Require Import DecimalString.
Import ListNotations.
Open Scope string_scope.
Open Scope Z_scope.

(* ================================================================== *)
(** ** JavaScript built-ins used by the script *)
(* ================================================================== *)

(** Strings are UTF-8 byte strings.  Numbers are the integers the script
    can meet (counters and parsed inputs); [NaN] is [None]. *)

Module Js.

(** White space as [String.prototype.trim] and [parseInt] recognise it:
    the characters WhiteSpace and LineTerminator of ECMAScript.  A string
    is the UTF-8 encoding of the JavaScript string, so a white-space
    character takes one, two or three bytes. *)

(** TAB, LF, VT, FF, CR and SPACE. *)
Definition is_space (c : ascii) : bool :=
  let n := nat_of_ascii c in
  ((9 <=? n)%nat && (n <=? 13)%nat) || (n =? 32)%nat.

(** U+00A0, the no-break space. *)
Definition is_space2 (c d : ascii) : bool :=
  (nat_of_ascii c =? 194)%nat && (nat_of_ascii d =? 160)%nat.

(** U+1680; U+2000 to U+200A, U+2028, U+2029 and U+202F; U+205F;
    U+3000; U+FEFF, the byte order mark. *)
Definition is_space3 (c d e : ascii) : bool :=
  let x := nat_of_ascii c in
  let y := nat_of_ascii d in
  let z := nat_of_ascii e in
  ((x =? 225) && (y =? 154) && (z =? 128))%nat
  || ((x =? 226) && (y =? 128) &&
      (((128 <=? z) && (z <=? 138)) || (z =? 168) || (z =? 169)
       || (z =? 175)))%nat
  || ((x =? 226) && (y =? 129) && (z =? 159))%nat
  || ((x =? 227) && (y =? 128) && (z =? 128))%nat
  || ((x =? 239) && (y =? 187) && (z =? 191))%nat.

(** The number of bytes of the white-space character the string starts
    with; 0 when it starts with none. *)
Definition space_width (s : string) : nat :=
  match s with
  | EmptyString => 0
  | String c s1 =>
      if is_space c then 1
      else match s1 with
           | EmptyString => 0
           | String d s2 =>
               if is_space2 c d then 2
               else match s2 with
                    | EmptyString => 0
                    | String e _ => if is_space3 c d e then 3 else 0
                    end
           end
  end%nat.

(** [s.trimStart()]: the leading white-space characters are dropped one
    after the other. *)
Fixpoint trimStart (s : string) : string :=
  match s with
  | EmptyString => EmptyString
  | String _ s1 =>
      match space_width s with
      | 0 => s
      | 1 => trimStart s1
      | 2 => match s1 with
             | String _ s2 => trimStart s2
             | EmptyString => s
             end
      | _ => match s1 with
             | String _ (String _ s3) => trimStart s3
             | _ => s
             end
      end%nat
  end.

(** [s.trimEnd()]: the string is cut where what remains is white space
    only. *)
Fixpoint trimEnd (s : string) : string :=
  match s with
  | EmptyString => EmptyString
  | String c rest =>
      match trimStart s with
      | EmptyString => EmptyString
      | _ => String c (trimEnd rest)
      end
  end.

(** [s.trim()] *)
Definition trim (s : string) : string := trimEnd (trimStart s).

(** [s.split(sep)] for a one-character separator: always at least one
    piece, and one more piece than there are separators. *)
Fixpoint split (sep : ascii) (s : string) : list string :=
  match s with
  | EmptyString => [EmptyString]
  | String c rest =>
      if Ascii.eqb c sep then EmptyString :: split sep rest
      else match split sep rest with
           | piece :: pieces => String c piece :: pieces
           | [] => [String c EmptyString]
           end
  end.

(** [pieces.join(sep)] *)
Fixpoint join (sep : string) (pieces : list string) : string :=
  match pieces with
  | [] => EmptyString
  | [p] => p
  | p :: more => p ++ sep ++ join sep more
  end.

(** Number-to-string conversion of an integer, as a template literal
    performs it. *)
Definition toString (n : Z) : string :=
  NilZero.string_of_int (Z.to_int n).

(** Value of one digit in the given radix, if it is one. *)
Definition digit (radix : Z) (c : ascii) : option Z :=
  let n := Z.of_nat (nat_of_ascii c) in
  let v :=
    if (48 <=? n) && (n <=? 57) then Some (n - 48)
    else if (97 <=? n) && (n <=? 122) then Some (n - 87)
    else if (65 <=? n) && (n <=? 90) then Some (n - 55)
    else None in
  match v with
  | Some d => if d <? radix then Some d else None
  | None => None
  end.

(** The longest prefix of digits, read in the radix; [None] when the
    prefix is empty. *)
Fixpoint digits (radix : Z) (s : string) (acc : option Z) : option Z :=
  match s with
  | EmptyString => acc
  | String c rest =>
      match digit radix c with
      | Some d =>
          digits radix rest
            (Some (match acc with Some a => a * radix + d | None => d end))
      | None => acc
      end
  end.

(** [parseInt(s)] with no radix argument: leading white space skipped, an
    optional sign, an optional [0x] prefix selecting radix 16, then the
    longest run of digits; [NaN] when there is none. *)
Definition parseInt (s : string) : option Z :=
  let s0 := trimStart s in
  let '(sign, s1) :=
    match s0 with
    | String "-" r => (-1, r)
    | String "+" r => (1, r)
    | _ => (1, s0)
    end in
  let '(radix, s2) :=
    match s1 with
    | String "0" (String "x" r) => (16, r)
    | String "0" (String "X" r) => (16, r)
    | _ => (10, s1)
    end in
  option_map (Z.mul sign) (digits radix s2 None).

(** [n || d] on numbers: [NaN] and [0] are falsy. *)
Definition or_default (n : option Z) (d : Z) : Z :=
  match n with
  | Some 0 => d
  | Some v => v
  | None => d
  end.

Definition hex_digit (n : nat) : ascii :=
  ascii_of_nat (if (n <? 10)%nat then 48 + n else 87 + n).

Definition dquote : ascii := ascii_of_nat 34.
Definition backslash : ascii := ascii_of_nat 92.

(** A two-character escape sequence. *)
Definition escape (c : ascii) : string :=
  String backslash (String c EmptyString).

(** [JSON.stringify] of one character inside a string literal. *)
Definition quote_char (c : ascii) : string :=
  let n := nat_of_ascii c in
  if (n =? 34)%nat then escape dquote
  else if (n =? 92)%nat then escape backslash
  else if (n =? 8)%nat then escape "b"
  else if (n =? 9)%nat then escape "t"
  else if (n =? 10)%nat then escape "n"
  else if (n =? 12)%nat then escape "f"
  else if (n =? 13)%nat then escape "r"
  else if (n <? 32)%nat then
    escape "u" ++ "00" ++
    String (hex_digit (n / 16)) (String (hex_digit (n mod 16)) EmptyString)
  else String c EmptyString.

Fixpoint quote_body (s : string) : string :=
  match s with
  | EmptyString => EmptyString
  | String c rest => quote_char c ++ quote_body rest
  end.

(** [JSON.stringify(s)] for a string. *)
Definition quote (s : string) : string :=
  String dquote (quote_body s ++ String dquote EmptyString).

End Js.

(* ================================================================== *)
(** ** Data *)
(* ================================================================== *)

(** A JavaScript [Error]: only its [message] is ever read. *)
Record Error : Type := mkError { message : string }.

(** What [checkEndpoint] resolves with. *)
Record Response : Type := mkResponse { statusCode : Z; data : string }.

(** The fate of one request, decided by the network: which of the three
    handlers installed by [checkEndpoint] fires first.
    - [ResponseEnd code body]: the response callback ran and the response
      emitted ['end'] after delivering [body];
    - [RequestError e]: the request emitted ['error'] with [e]
      (connection refused, DNS failure, an invalid URL, ...);
    - [RequestTimeout]: the request emitted ['timeout']. *)
Inductive NetEvent : Type :=
| ResponseEnd (code : Z) (body : string)
| RequestError (e : Error)
| RequestTimeout.

(** One entry of [results].  The script pushes objects of two shapes. *)
Inductive Report : Type :=
| Healthy (endpoint : string) (attempts : Z)
    (* { endpoint, status: 'healthy', attempts } *)
| Unhealthy (endpoint : string) (error : string).
    (* { endpoint, status: 'unhealthy', error } *)

Definition endpoint_of (r : Report) : string :=
  match r with Healthy e _ => e | Unhealthy e _ => e end.

Definition status_of (r : Report) : string :=
  match r with Healthy _ _ => "healthy" | Unhealthy _ _ => "unhealthy" end.

Definition attempts_of (r : Report) : option Z :=
  match r with Healthy _ a => Some a | Unhealthy _ _ => None end.

Definition error_of (r : Report) : option string :=
  match r with Healthy _ _ => None | Unhealthy _ m => Some m end.

Definition is_healthy (r : Report) : bool :=
  match r with Healthy _ _ => true | Unhealthy _ _ => false end.

(** Everything the script does that the outside can observe, in the order
    it does it. *)
Inductive Event : Type :=
| Info (msg : string)                    (* core.info(msg) *)
| HttpsGet (url : string) (timeout : Z)  (* https.get(url, {timeout, ...}) *)
| Destroy (url : string)                 (* request.destroy() *)
| Sleep (ms : Z)                         (* await setTimeout(resolve, ms) *)
| SetOutput (name value : string)        (* core.setOutput(name, value) *)
| SetFailed (msg : string).              (* core.setFailed(msg) *)

(** The state [run] threads through: the [results] array, the event log,
    and the number of requests issued so far (the index under which the
    network is asked for the fate of the next one). *)
Record State : Type := mkState {
  results : list Report;
  log : list Event;
  requests : nat
}.

Definition initial : State := mkState [] [] 0.

(* ================================================================== *)
(** ** A state monad with exceptions *)
(* ================================================================== *)

(** How a computation ends: normally, by a [throw], or by the loop budget
    of the model running out (which [run_returns] shows never happens). *)
Inductive Result (A : Type) : Type :=
| Ok (a : A)
| Thrown (e : Error)
| OutOfFuel.
Arguments Ok {A} a.
Arguments Thrown {A} e.
Arguments OutOfFuel {A}.

Definition M (A : Type) : Type := State -> Result A * State.

Definition ret {A} (a : A) : M A := fun st => (Ok a, st).

Definition bind {A B} (m : M A) (k : A -> M B) : M B :=
  fun st =>
    match m st with
    | (Ok a, st') => k a st'
    | (Thrown e, st') => (Thrown e, st')
    | (OutOfFuel, st') => (OutOfFuel, st')
    end.

Definition throw {A} (e : Error) : M A := fun st => (Thrown e, st).

(** [try { body } catch (error) { handler(error) }] *)
Definition try_catch {A} (body : M A) (handler : Error -> M A) : M A :=
  fun st =>
    match body st with
    | (Thrown e, st') => handler e st'
    | other => other
    end.

Notation "x <- m ;; k" := (bind m (fun x => k))
  (at level 61, m at next level, right associativity).
Notation "m ;; k" := (bind m (fun _ => k))
  (at level 61, right associativity).
Notation "' pat <- m ;; k" :=
  (bind m (fun x => match x with pat => k end))
  (at level 61, pat pattern, m at next level, right associativity).

(** Read the current state. *)
Definition get : M State := fun st => (Ok st, st).

(** Append one event to the log. *)
Definition emit (e : Event) : M unit :=
  fun st => (Ok tt, mkState (results st) (log st ++ [e]) (requests st)).

(** [results.push(r)] *)
Definition push (r : Report) : M unit :=
  fun st => (Ok tt, mkState (results st ++ [r]) (log st) (requests st)).

(** [for (const x of xs) { body(x) }] *)
Fixpoint for_of {A} (xs : list A) (body : A -> M unit) : M unit :=
  match xs with
  | [] => ret tt
  | x :: rest => body x ;; for_of rest body
  end.

(* ================================================================== *)
(** ** The script *)
(* ================================================================== *)

(** [JSON.stringify] of one report and of the [results] array. *)
Definition stringify_report (r : Report) : string :=
  match r with
  | Healthy e a =>
      "{" ++ Js.quote "endpoint" ++ ":" ++ Js.quote e ++ "," ++
      Js.quote "status" ++ ":" ++ Js.quote "healthy" ++ "," ++
      Js.quote "attempts" ++ ":" ++ Js.toString a ++ "}"
  | Unhealthy e m =>
      "{" ++ Js.quote "endpoint" ++ ":" ++ Js.quote e ++ "," ++
      Js.quote "status" ++ ":" ++ Js.quote "unhealthy" ++ "," ++
      Js.quote "error" ++ ":" ++ Js.quote m ++ "}"
  end.

Definition stringify (rs : list Report) : string :=
  "[" ++ Js.join "," (map stringify_report rs) ++ "]".

Section Action.

(** The environment of one execution. *)

(** [core.getInput(name, {required})]: the value of an input, or the
    error it throws. *)
Variable getInput : string -> bool -> Error + string.

(** The fate of the request issued when [n] requests have been issued
    before it, to the given URL. *)
Variable net : nat -> string -> NetEvent.

(** [new Date().toISOString()] at the moment the outputs are set. *)
Variable now : string.

Definition input (name : string) (required : bool) : M string :=
  match getInput name required with
  | inl e => throw e
  | inr v => ret v
  end.

(** [checkEndpoint(url, timeout = 5000)]: issue the request, then settle
    the promise from the handler that fires. *)
Definition checkEndpoint (url : string) (timeout : Z) : M Response :=
  fun st =>
    let st1 := mkState (results st) (log st ++ [HttpsGet url timeout])
                       (S (requests st)) in
    match net (requests st) url with
    | ResponseEnd code body =>
        if (200 <=? code) && (code <? 300)
        then (Ok (mkResponse code body), st1)
        else (Thrown (mkError ("HTTP Status: " ++ Js.toString code)), st1)
    | RequestError e => (Thrown e, st1)
    | RequestTimeout =>
        (Thrown (mkError "Request timed out"),
         mkState (results st1) (log st1 ++ [Destroy url]) (requests st1))
    end.

Definition default_timeout : Z := 5000.

Section Loop.

Variable maxRetries retryDelay : Z.

(** One pass through the body of the [while] loop, entered with the given
    value of [retries] (and [success] false); it yields the values of
    [retries] and [success] at the end of the pass.  The [throw] in the
    [catch] block is not inside any [try] of the loop: it leaves the loop. *)
Definition attempt (endpoint : string) (retries : Z) : M (Z * bool) :=
  try_catch
    (emit (Info ("Checking endpoint " ++ endpoint ++ " (Attempt " ++
                 Js.toString (retries + 1) ++ "/" ++
                 Js.toString maxRetries ++ ")")) ;;
     checkEndpoint (Js.trim endpoint) default_timeout ;;
     push (Healthy endpoint (retries + 1)) ;;
     emit (Info ("âœ… Endpoint " ++ endpoint ++ " is healthy")) ;;
     ret (retries, true))
    (fun error =>
       let retries := retries + 1 in
       (if retries =? maxRetries then
          push (Unhealthy endpoint (message error)) ;;
          throw (mkError ("Failed to verify endpoint " ++ endpoint ++
                          " after " ++ Js.toString maxRetries ++
                          " attempts: " ++ message error))
        else ret tt) ;;
       emit (Info ("Attempt " ++ Js.toString retries ++ "/" ++
                   Js.toString maxRetries ++ " failed, waiting " ++
                   Js.toString retryDelay ++ " seconds before retry...")) ;;
       emit (Sleep (retryDelay * 1000)) ;;
       ret (retries, false)).

(** [while (retries < maxRetries && !success) { ... }], entered with the
    given values of the two variables.  [fuel] bounds the number of
    passes the model may take. *)
Fixpoint while_loop (fuel : nat) (endpoint : string)
    (retries : Z) (success : bool) : M unit :=
  if (retries <? maxRetries) && negb success then
    match fuel with
    | O => fun st => (OutOfFuel, st)
    | S fuel' =>
        '(retries', success') <- attempt endpoint retries ;;
        while_loop fuel' endpoint retries' success'
    end
  else ret tt.

(** The body of [for (const endpoint of endpoints)]: both variables are
    initialised, then the [while] loop runs.  A pass either ends the loop
    or increments [retries], so [maxRetries] passes are the most the loop
    can take. *)
Definition check (endpoint : string) : M unit :=
  while_loop (Z.to_nat maxRetries) endpoint 0 false.

(** The [for] loop over the endpoints. *)
Definition check_all (endpoints : list string) : M unit :=
  for_of endpoints check.

End Loop.

(** The [try] block of [run]. *)
Definition run_body : M unit :=
  environment <- input "environment" true ;;
  endpoints_input <- input "endpoints" true ;;
  let endpoints := Js.split "," endpoints_input in
  max_retries_input <- input "max-retries" false ;;
  let maxRetries := Js.or_default (Js.parseInt max_retries_input) 5 in
  retry_delay_input <- input "retry-delay" false ;;
  let retryDelay := Js.or_default (Js.parseInt retry_delay_input) 30 in
  emit (Info ("Starting deployment check for " ++ environment ++
              " environment")) ;;
  emit (Info ("Checking endpoints: " ++ Js.join ", " endpoints)) ;;
  check_all maxRetries retryDelay endpoints ;;
  emit (SetOutput "status" "success") ;;
  emit (SetOutput "timestamp" now) ;;
  st <- get ;;
  emit (SetOutput "results" (stringify (results st))).

(** [run()] *)
Definition run : M unit :=
  try_catch run_body
    (fun error =>
       emit (SetFailed ("Deployment check failed: " ++ message error))).

End Action.

Arguments run getInput net now _ : assert.

(* ================================================================== *)
(** ** Concrete environments *)
(* ================================================================== *)

(** The four inputs as a workflow supplies them; an input that is not
    supplied is the empty string. *)
Record Inputs : Type := mkInputs {
  in_environment : string;
  in_endpoints : string;
  in_max_retries : string;
  in_retry_delay : string
}.

(** [getInput] of [@actions/core] over such a record: a required input
    that is empty throws, any other value is returned trimmed. *)
Definition core_getInput (i : Inputs) (name : string) (required : bool)
  : Error + string :=
  let val :=
    if String.eqb name "environment" then in_environment i
    else if String.eqb name "endpoints" then in_endpoints i
    else if String.eqb name "max-retries" then in_max_retries i
    else if String.eqb name "retry-delay" then in_retry_delay i
    else EmptyString in
  if required && String.eqb val EmptyString
  then inl (mkError ("Input required and not supplied: " ++ name))
  else inr (Js.trim val).

(** Networks used in the examples. *)
Definition always (ev : NetEvent) : nat -> string -> NetEvent :=
  fun _ _ => ev.

(** The n-th request meets the n-th event of the list, and [RequestTimeout]
    once the list is used up. *)
Definition scripted (evs : list NetEvent) : nat -> string -> NetEvent :=
  fun n _ => nth n evs RequestTimeout.

Definition final (getInput : string -> bool -> Error + string)
    (net : nat -> string -> NetEvent) (now : string) : State :=
  snd (run getInput net now initial).

(* ================================================================== *)
(** ** One probe *)
(* ================================================================== *)

(** How the promise of [checkEndpoint] settles for a given fate of the
    request: a view of [checkEndpoint] without the state, justified by
    [checkEndpoint_settles]. *)
Definition settle (ev : NetEvent) : Error + Response :=
  match ev with
  | ResponseEnd code body =>
      if (200 <=? code) && (code <? 300) then inr (mkResponse code body)
      else inl (mkError ("HTTP Status: " ++ Js.toString code))
  | RequestError e => inl e
  | RequestTimeout => inl (mkError "Request timed out")
  end.

(** What one call of [checkEndpoint] adds to the log. *)
Definition request_events (url : string) (timeout : Z) (ev : NetEvent)
  : list Event :=
  HttpsGet url timeout ::
  match ev with RequestTimeout => [Destroy url] | _ => [] end.

Definition after_request (url : string) (timeout : Z) (ev : NetEvent)
    (st : State) : State :=
  mkState (results st) (log st ++ request_events url timeout ev)
          (S (requests st)).

Lemma checkEndpoint_settles net url timeout st :
  checkEndpoint net url timeout st =
  (match settle (net (requests st) url) with
   | inl e => Thrown e
   | inr r => Ok r
   end,
   after_request url timeout (net (requests st) url) st).
Proof.
  unfold checkEndpoint, settle, after_request, request_events.
  destruct (net (requests st) url) as [code body | e | ]; simpl.
  - destruct ((200 <=? code) && (code <? 300)); reflexivity.
  - reflexivity.
  - rewrite <- app_assoc. reflexivity.
Qed.

(** The probe succeeds. *)
Definition succeeds (ev : NetEvent) : Prop :=
  exists code body, ev = ResponseEnd code body /\ 200 <= code < 300.

Lemma settle_inr ev r : settle ev = inr r -> succeeds ev.
Proof.
  destruct ev as [code body | e | ]; simpl; try discriminate.
  destruct ((200 <=? code) && (code <? 300)) eqn:E; try discriminate.
  intros _. exists code, body. split; [reflexivity | ].
  apply andb_true_iff in E. lia.
Qed.

Lemma succeeds_settle ev : succeeds ev -> exists r, settle ev = inr r.
Proof.
  intros (code & body & -> & H). simpl.
  replace ((200 <=? code) && (code <? 300)) with true.
  - eauto.
  - symmetry. apply andb_true_iff. lia.
Qed.

Lemma settle_cases ev :
  (succeeds ev /\ exists r, settle ev = inr r) \/
  (~ succeeds ev /\ exists e, settle ev = inl e).
Proof.
  destruct (settle ev) as [e | r] eqn:E.
  - right. split; [ | eauto].
    intros H. apply succeeds_settle in H. destruct H as [r H]. congruence.
  - left. split; [ | eauto]. eapply settle_inr; eauto.
Qed.

(* ================================================================== *)
(** ** One pass of the retry loop *)
(* ================================================================== *)

Section Passes.

Variable net : nat -> string -> NetEvent.
Variable maxRetries retryDelay : Z.

(** The message of the error that leaves the loop. *)
Definition exhausted_message (endpoint msg : string) : string :=
  "Failed to verify endpoint " ++ endpoint ++ " after " ++
  Js.toString maxRetries ++ " attempts: " ++ msg.

(** The fate of the request a pass issues from state [st]. *)
Definition fate (endpoint : string) (st : State) : NetEvent :=
  net (requests st) (Js.trim endpoint).

(** What the request of a pass adds to the log, after the announcement. *)
Definition pass_events (endpoint : string) (st : State) : list Event :=
  request_events (Js.trim endpoint) default_timeout (fate endpoint st).

Lemma attempt_success endpoint retries st r :
  settle (fate endpoint st) = inr r ->
  exists m1 m2,
    attempt net maxRetries retryDelay endpoint retries st =
    (Ok (retries, true),
     mkState (results st ++ [Healthy endpoint (retries + 1)])
             (log st ++ Info m1 :: pass_events endpoint st ++ [Info m2])
             (S (requests st))).
Proof.
  intros H. unfold attempt, try_catch, bind, emit, push, ret, pass_events.
  simpl. rewrite checkEndpoint_settles. simpl.
  unfold fate in H. simpl in H. rewrite H. simpl.
  do 2 eexists. f_equal. f_equal.
  rewrite <- !app_assoc. simpl. reflexivity.
Qed.

Lemma attempt_exhausted endpoint retries st e :
  settle (fate endpoint st) = inl e ->
  retries + 1 = maxRetries ->
  exists m1,
    attempt net maxRetries retryDelay endpoint retries st =
    (Thrown (mkError (exhausted_message endpoint (message e))),
     mkState (results st ++ [Unhealthy endpoint (message e)])
             (log st ++ Info m1 :: pass_events endpoint st)
             (S (requests st))).
Proof.
  intros H Hlast.
  unfold attempt, try_catch, bind, emit, push, ret, throw, pass_events.
  simpl. rewrite checkEndpoint_settles. simpl.
  unfold fate in H. simpl in H. rewrite H. simpl.
  rewrite (proj2 (Z.eqb_eq _ _) Hlast). simpl.
  eexists. f_equal. f_equal.
  rewrite <- !app_assoc. simpl. reflexivity.
Qed.

Lemma attempt_retry endpoint retries st e :
  settle (fate endpoint st) = inl e ->
  retries + 1 <> maxRetries ->
  exists m1 m2,
    attempt net maxRetries retryDelay endpoint retries st =
    (Ok (retries + 1, false),
     mkState (results st)
             (log st ++ Info m1 :: pass_events endpoint st ++
                        [Info m2; Sleep (retryDelay * 1000)])
             (S (requests st))).
Proof.
  intros H Hmore.
  unfold attempt, try_catch, bind, emit, push, ret, throw, pass_events.
  simpl. rewrite checkEndpoint_settles. simpl.
  unfold fate in H. simpl in H. rewrite H. simpl.
  rewrite (proj2 (Z.eqb_neq _ _) Hmore). simpl.
  do 2 eexists. f_equal. f_equal.
  rewrite <- !app_assoc. simpl. reflexivity.
Qed.

End Passes.

(* ================================================================== *)
(** ** The retry loop as a relation *)
(* ================================================================== *)

(** Counting in the log. *)
Definition is_get (ev : Event) : bool :=
  match ev with HttpsGet _ _ => true | _ => false end.

Definition is_sleep (ev : Event) : bool :=
  match ev with Sleep _ => true | _ => false end.

Definition gets (l : list Event) : nat := List.length (filter is_get l).
Definition sleeps (l : list Event) : nat :=
  List.length (filter is_sleep l).

Lemma gets_app l1 l2 : gets (l1 ++ l2) = (gets l1 + gets l2)%nat.
Proof. unfold gets. rewrite filter_app, length_app. reflexivity. Qed.

Lemma sleeps_app l1 l2 : sleeps (l1 ++ l2) = (sleeps l1 + sleeps l2)%nat.
Proof. unfold sleeps. rewrite filter_app, length_app. reflexivity. Qed.

Lemma gets_request_events url t ev : gets (request_events url t ev) = 1%nat.
Proof. destruct ev; reflexivity. Qed.

Lemma sleeps_request_events url t ev :
  sleeps (request_events url t ev) = 0%nat.
Proof. destruct ev; reflexivity. Qed.

Section Loop_relation.

Variable net : nat -> string -> NetEvent.
Variable maxRetries retryDelay : Z.

(** [loop_run e r st res st']: entered at its head with [retries = r] and
    [success = false] in state [st], the [while] loop for endpoint [e]
    ends with [res] in state [st'].  One constructor per way through the
    body. *)
Inductive loop_run (e : string) : Z -> State -> Result unit -> State -> Prop :=
| loop_exit r st :
    maxRetries <= r ->
    loop_run e r st (Ok tt) st
| loop_success r st resp m1 m2 :
    r < maxRetries ->
    settle (fate net e st) = inr resp ->
    loop_run e r st (Ok tt)
      (mkState (results st ++ [Healthy e (r + 1)])
               (log st ++ Info m1 :: pass_events net e st ++ [Info m2])
               (S (requests st)))
| loop_exhausted r st err m1 :
    r < maxRetries ->
    settle (fate net e st) = inl err ->
    r + 1 = maxRetries ->
    loop_run e r st
      (Thrown (mkError (exhausted_message maxRetries e (message err))))
      (mkState (results st ++ [Unhealthy e (message err)])
               (log st ++ Info m1 :: pass_events net e st)
               (S (requests st)))
| loop_retry r st err m1 m2 res st' :
    r < maxRetries ->
    settle (fate net e st) = inl err ->
    r + 1 <> maxRetries ->
    loop_run e (r + 1)
      (mkState (results st)
               (log st ++ Info m1 :: pass_events net e st ++
                          [Info m2; Sleep (retryDelay * 1000)])
               (S (requests st)))
      res st' ->
    loop_run e r st res st'.

Lemma while_loop_done fuel e r st :
  while_loop net maxRetries retryDelay fuel e r true st = (Ok tt, st).
Proof.
  destruct fuel; simpl; rewrite andb_false_r; reflexivity.
Qed.

(** The function follows the relation as soon as the fuel covers the
    passes that remain. *)
Lemma while_loop_run fuel : forall e r st,
  (Z.to_nat (maxRetries - r) <= fuel)%nat ->
  loop_run e r st
    (fst (while_loop net maxRetries retryDelay fuel e r false st))
    (snd (while_loop net maxRetries retryDelay fuel e r false st)).
Proof.
  induction fuel as [ | fuel IH]; intros e r st Hfuel.
  - assert (maxRetries <= r) by lia.
    simpl. rewrite (proj2 (Z.ltb_ge _ _)) by lia. simpl.
    now apply loop_exit.
  - simpl. destruct (r <? maxRetries) eqn:Hlt; simpl.
    2:{ apply loop_exit. now apply Z.ltb_ge. }
    apply Z.ltb_lt in Hlt. unfold bind.
    destruct (settle (fate net e st)) as [err | resp] eqn:Hs.
    + destruct (Z.eq_dec (r + 1) maxRetries) as [Hlast | Hmore].
      * destruct (attempt_exhausted net maxRetries retryDelay e r st err
                    Hs Hlast) as [m1 ->]. simpl.
        now apply loop_exhausted.
      * destruct (attempt_retry net maxRetries retryDelay e r st err
                    Hs Hmore) as (m1 & m2 & ->).
        eapply loop_retry; eauto. apply IH. lia.
    + destruct (attempt_success net maxRetries retryDelay e r st resp Hs)
        as (m1 & m2 & ->).
      rewrite while_loop_done. simpl. eapply loop_success; eauto.
Qed.

Lemma check_run e st :
  loop_run e 0 st (fst (check net maxRetries retryDelay e st))
                  (snd (check net maxRetries retryDelay e st)).
Proof. unfold check. apply while_loop_run. lia. Qed.

(** The events the loop for endpoint [e] may add to the log. *)
Definition loop_event (e : string) (ev : Event) : Prop :=
  match ev with
  | Info _ => True
  | HttpsGet url t => url = Js.trim e /\ t = default_timeout
  | Destroy url => url = Js.trim e
  | Sleep ms => ms = retryDelay * 1000
  | SetOutput _ _ => False
  | SetFailed _ => False
  end.

(** The three ways the loop for one endpoint ends, with what it added to
    the log ([dl]) and the number of requests it issued ([gets dl]). *)
Definition loop_end (e : string) (r : Z) (st : State)
    (res : Result unit) (st' : State) (dl : list Event) : Prop :=
  (* the guard is false on entry: nothing happens *)
  (res = Ok tt /\ maxRetries <= r /\ dl = [] /\ results st' = results st)
  \/
  (* the last request succeeds *)
  (res = Ok tt /\ r < maxRetries /\
   results st' =
     (results st ++ [Healthy e (r + Z.of_nat (gets dl))])%list /\
   (1 <= gets dl)%nat /\ r + Z.of_nat (gets dl) <= maxRetries /\
   succeeds (net (requests st + gets dl - 1) (Js.trim e)))
  \/
  (* the last request fails and exhausts the budget *)
  (exists err,
     res = Thrown (mkError (exhausted_message maxRetries e (message err))) /\
     r < maxRetries /\
     results st' = (results st ++ [Unhealthy e (message err)])%list /\
     r + Z.of_nat (gets dl) = maxRetries /\
     settle (net (requests st + gets dl - 1) (Js.trim e)) = inl err /\
     exists l0 tail,
       dl = (l0 ++ HttpsGet (Js.trim e) default_timeout :: tail)%list /\
       gets tail = 0%nat).

Lemma pass_events_ok e st :
  Forall (loop_event e) (pass_events net e st).
Proof.
  unfold pass_events, request_events.
  destruct (fate net e st); repeat constructor.
Qed.

Lemma gets_pass_events e st : gets (pass_events net e st) = 1%nat.
Proof. apply gets_request_events. Qed.

Lemma sleeps_pass_events e st : sleeps (pass_events net e st) = 0%nat.
Proof. apply sleeps_request_events. Qed.

Lemma pass_events_last e st :
  exists tail,
    pass_events net e st = HttpsGet (Js.trim e) default_timeout :: tail /\
    gets tail = 0%nat.
Proof.
  unfold pass_events, request_events.
  destruct (fate net e st); eexists; split; reflexivity.
Qed.

Lemma settle_inl_fails ev err : settle ev = inl err -> ~ succeeds ev.
Proof.
  intros H Hs. apply succeeds_settle in Hs. destruct Hs as [r Hr].
  congruence.
Qed.

(** Everything the loop for one endpoint does, read off the relation. *)
Lemma loop_run_summary e r st res st' :
  loop_run e r st res st' ->
  exists dl,
    log st' = (log st ++ dl)%list /\
    requests st' = (requests st + gets dl)%nat /\
    Forall (loop_event e) dl /\
    sleeps dl = pred (gets dl) /\
    (forall i, (i + 1 < gets dl)%nat ->
               ~ succeeds (net (requests st + i) (Js.trim e))) /\
    loop_end e r st res st' dl.
Proof.
  induction 1 as [r st Hge | r st resp m1 m2 Hlt Hs | r st err m1 Hlt Hs Hlast
                 | r st err m1 m2 res st' Hlt Hs Hmore Hrun IH].
  - exists []. rewrite app_nil_r. simpl.
    refine (conj eq_refl (conj _ (conj _ (conj eq_refl (conj _ _))))).
    + unfold gets. simpl. lia.
    + constructor.
    + unfold gets. simpl. intros i Hi. lia.
    + left. auto.
  - exists ([Info m1] ++ pass_events net e st ++ [Info m2])%list.
    assert (Hg : gets ([Info m1] ++ pass_events net e st ++ [Info m2])
                 = 1%nat).
    { rewrite !gets_app, gets_pass_events. reflexivity. }
    unfold loop_end. rewrite !Hg. cbn [log requests results app].
    refine (conj eq_refl (conj _ (conj _ (conj _ (conj _ _))))).
    + lia.
    + constructor; [exact I | ]. apply Forall_app. split.
      * apply pass_events_ok.
      * repeat constructor.
    + change (Info m1 :: pass_events net e st ++ [Info m2])%list
        with ([Info m1] ++ pass_events net e st ++ [Info m2])%list.
      rewrite !sleeps_app, sleeps_pass_events. reflexivity.
    + intros i Hi. lia.
    + right; left.
      replace (requests st + 1 - 1)%nat with (requests st) by lia.
      refine (conj eq_refl (conj Hlt (conj eq_refl (conj _ (conj _ _))))).
      * lia.
      * lia.
      * eapply settle_inr; eauto.
  - exists ([Info m1] ++ pass_events net e st)%list.
    assert (Hg : gets ([Info m1] ++ pass_events net e st) = 1%nat).
    { rewrite gets_app, gets_pass_events. reflexivity. }
    unfold loop_end. rewrite !Hg. cbn [log requests results app].
    refine (conj eq_refl (conj _ (conj _ (conj _ (conj _ _))))).
    + lia.
    + constructor; [exact I | ]. apply pass_events_ok.
    + change (Info m1 :: pass_events net e st)%list
        with ([Info m1] ++ pass_events net e st)%list.
      rewrite sleeps_app, sleeps_pass_events. reflexivity.
    + intros i Hi. lia.
    + right; right. exists err.
      replace (requests st + 1 - 1)%nat with (requests st) by lia.
      refine (conj eq_refl (conj Hlt (conj eq_refl (conj _ (conj Hs _))))).
      * lia.
      * destruct (pass_events_last e st) as (tail & -> & Ht).
        exists [Info m1], tail. split; [reflexivity | exact Ht].
  - destruct IH as (dl & Hlog & Hreq & Hev & Hsl & Hfail & Hend).
    cbn [log requests results] in Hlog, Hreq, Hfail, Hend.
    set (d1 := ([Info m1] ++ pass_events net e st ++
                 [Info m2; Sleep (retryDelay * 1000)])%list).
    change (Info m1 :: pass_events net e st ++
              [Info m2; Sleep (retryDelay * 1000)])%list with d1 in Hlog.
    cbn [log requests results].
    assert (Hg1 : gets d1 = 1%nat).
    { unfold d1. rewrite !gets_app, gets_pass_events. reflexivity. }
    assert (Hs1 : sleeps d1 = 1%nat).
    { unfold d1. rewrite !sleeps_app, sleeps_pass_events. reflexivity. }
    assert (Hpos : (1 <= gets dl)%nat).
    { destruct Hend as [(_ & Hge & _) | [(_ & _ & _ & Hle & _)
                                        | (err' & _ & Hlt' & _ & Hex & _)]];
        lia. }
    exists (d1 ++ dl)%list. unfold loop_end in *.
    rewrite Hlog, <- app_assoc.
    rewrite !gets_app, sleeps_app, !Hg1, Hs1.
    refine (conj eq_refl (conj _ (conj _ (conj _ (conj _ _))))).
    + lia.
    + apply Forall_app. split; [ | exact Hev].
      unfold d1. constructor; [exact I | ]. apply Forall_app. split.
      * apply pass_events_ok.
      * repeat constructor.
    + lia.
    + intros i Hi. destruct i as [ | i].
      * rewrite Nat.add_0_r. eapply settle_inl_fails; eauto.
      * replace (requests st + S i)%nat with (S (requests st) + i)%nat by lia.
        apply Hfail. lia.
    + replace (requests st + (1 + gets dl) - 1)%nat
        with (S (requests st) + gets dl - 1)%nat by lia.
      replace (r + Z.of_nat (1 + gets dl)) with (r + 1 + Z.of_nat (gets dl))
        by lia.
      destruct Hend as [(_ & Hge & _) | [(Hok & _ & Hres & Hone & Hle & Hsucc)
                                        | (err' & Hth & _ & Hres & Hex & Hset
                                           & l0 & tail & Hdl & Htail)]].
      * lia.
      * right; left.
        refine (conj Hok (conj Hlt (conj Hres (conj _ (conj Hle Hsucc))))).
        lia.
      * right; right. exists err'.
        refine (conj Hth (conj Hlt (conj Hres (conj Hex (conj Hset _))))).
        exists (d1 ++ l0)%list, tail. rewrite Hdl, <- app_assoc.
        split; [reflexivity | exact Htail].
Qed.

End Loop_relation.

(* ================================================================== *)
(** ** The loop over the endpoints *)
(* ================================================================== *)

Lemma for_of_app {A} (body : A -> M unit) xs ys st :
  for_of (xs ++ ys) body st =
  match for_of xs body st with
  | (Ok _, st1) => for_of ys body st1
  | other => other
  end.
Proof.
  revert st. induction xs as [ | x xs IH]; intros st; simpl.
  - reflexivity.
  - unfold bind. destruct (body x st) as [[[] | err | ] st1]; auto.
Qed.

Section Endpoints.

Variable net : nat -> string -> NetEvent.
Variable maxRetries retryDelay : Z.

(** The loop for one endpoint as a function, with its summary. *)
Lemma check_summary e st :
  exists dl,
    log (snd (check net maxRetries retryDelay e st)) = (log st ++ dl)%list /\
    requests (snd (check net maxRetries retryDelay e st))
      = (requests st + gets dl)%nat /\
    Forall (loop_event retryDelay e) dl /\
    sleeps dl = pred (gets dl) /\
    (forall i, (i + 1 < gets dl)%nat ->
               ~ succeeds (net (requests st + i) (Js.trim e))) /\
    loop_end net maxRetries e 0 st
      (fst (check net maxRetries retryDelay e st))
      (snd (check net maxRetries retryDelay e st)) dl.
Proof. eapply loop_run_summary. apply check_run. Qed.

(** The [for] loop either checks every endpoint, or stops at the first
    one whose loop throws, in the state that loop left. *)
Lemma check_all_cases eps : forall st,
  (exists st', check_all net maxRetries retryDelay eps st = (Ok tt, st')) \/
  (exists pre e post st1 err st',
     eps = (pre ++ e :: post)%list /\
     check_all net maxRetries retryDelay pre st = (Ok tt, st1) /\
     check net maxRetries retryDelay e st1 = (Thrown err, st') /\
     check_all net maxRetries retryDelay eps st = (Thrown err, st')).
Proof.
  induction eps as [ | e eps IH]; intros st.
  - left. exists st. reflexivity.
  - unfold check_all in *. simpl. unfold bind.
    destruct (check_summary e st) as (dl & _ & _ & _ & _ & _ & Hend).
    destruct (check net maxRetries retryDelay e st) as [res st1] eqn:Hc.
    simpl in Hend.
    destruct res as [[] | err | ].
    + destruct (IH st1) as [(st' & H) | (pre & e' & post & st2 & err & st'
                                         & Heps & Hpre & He & Hall)].
      * left. exists st'. exact H.
      * right. exists (e :: pre), e', post, st2, err, st'.
        simpl. unfold bind. rewrite Hc.
        refine (conj _ (conj Hpre (conj He Hall))).
        rewrite Heps. reflexivity.
    + right. exists [], e, eps, st, err, st1. simpl. auto.
    + exfalso. unfold loop_end in Hend.
      destruct Hend as [(H & _) | [(H & _) | (? & H & _)]]; discriminate.
Qed.

(** The report a checked endpoint leaves: for [e], healthy, with a number
    of attempts within the budget. *)
Definition healthy_for (e : string) (r : Report) : Prop :=
  exists a, r = Healthy e a /\ 1 <= a <= maxRetries.

Lemma check_ok_results e st st' :
  check net maxRetries retryDelay e st = (Ok tt, st') ->
  (maxRetries <= 0 /\ st' = st) \/
  (1 <= maxRetries /\
   exists r, healthy_for e r /\ results st' = (results st ++ [r])%list).
Proof.
  intros Hc.
  destruct (check_summary e st) as (dl & Hlog & Hreq & _ & _ & _ & Hend).
  rewrite Hc in *. simpl in *. unfold loop_end in Hend.
  destruct Hend as [(_ & Hle & Hdl & Hres)
                   | [(_ & Hlt & Hres & Hone & Hle & _) | (? & H & _)]].
  - left. split; [exact Hle | ]. subst dl.
    rewrite app_nil_r in Hlog. unfold gets in Hreq. simpl in Hreq.
    destruct st, st'; simpl in *. f_equal; auto. lia.
  - right. split; [lia | ].
    exists (Healthy e (0 + Z.of_nat (gets dl))). split; [ | exact Hres].
    exists (0 + Z.of_nat (gets dl)). split; [reflexivity | lia].
  - discriminate.
Qed.

Lemma check_all_ok_results eps : forall st st',
  check_all net maxRetries retryDelay eps st = (Ok tt, st') ->
  (maxRetries <= 0 /\ st' = st) \/
  (1 <= maxRetries /\
   exists dr, Forall2 healthy_for eps dr /\
              results st' = (results st ++ dr)%list).
Proof.
  induction eps as [ | e eps IH]; intros st st' H.
  - unfold check_all in H. simpl in H. inversion H; subst.
    destruct (Z_le_gt_dec maxRetries 0).
    + left. auto.
    + right. split; [lia | ]. exists []. rewrite app_nil_r. auto.
  - unfold check_all in *. simpl in H. unfold bind in H.
    destruct (check net maxRetries retryDelay e st) as [res st1] eqn:Hc.
    destruct res as [[] | err | ]; try discriminate.
    apply check_ok_results in Hc. apply IH in H.
    destruct Hc as [(Hle & ->) | (Hge & r & Hr & Hres1)].
    + destruct H as [(_ & ->) | (Hge & _)]; [left; auto | lia].
    + destruct H as [(Hle & _) | (_ & dr & Hdr & Hres)]; [lia | ].
      right. split; [exact Hge | ]. exists (r :: dr). split.
      * constructor; auto.
      * rewrite Hres, Hres1, <- app_assoc. reflexivity.
Qed.

End Endpoints.

(* ================================================================== *)
(** ** The whole run *)
(* ================================================================== *)

(** What [run] derives from its four inputs. *)
Record Config : Type := mkConfig {
  cfg_environment : string;
  cfg_endpoints : list string;
  cfg_maxRetries : Z;
  cfg_retryDelay : Z
}.

(** The four [getInput] calls at the head of [run], in their order: the
    first error thrown, or the configuration. *)
Definition read_config (getInput : string -> bool -> Error + string)
  : Error + Config :=
  match getInput "environment" true with
  | inl e => inl e
  | inr environment =>
  match getInput "endpoints" true with
  | inl e => inl e
  | inr endpoints =>
  match getInput "max-retries" false with
  | inl e => inl e
  | inr max_retries =>
  match getInput "retry-delay" false with
  | inl e => inl e
  | inr retry_delay =>
      inr (mkConfig environment (Js.split "," endpoints)
             (Js.or_default (Js.parseInt max_retries) 5)
             (Js.or_default (Js.parseInt retry_delay) 30))
  end end end end.

(** The state in which the loop over the endpoints starts: the two
    opening lines are in the log. *)
Definition started (cfg : Config) : State :=
  mkState []
    [Info ("Starting deployment check for " ++ cfg_environment cfg ++
           " environment");
     Info ("Checking endpoints: " ++ Js.join ", " (cfg_endpoints cfg))]
    0.

Definition with_log (st : State) (evs : list Event) : State :=
  mkState (results st) (log st ++ evs) (requests st).

Definition failed_message (msg : string) : string :=
  "Deployment check failed: " ++ msg.

Definition outputs (now : string) (rs : list Report) : list Event :=
  [SetOutput "status" "success"; SetOutput "timestamp" now;
   SetOutput "results" (stringify rs)].

Section Run.

Variable getInput : string -> bool -> Error + string.
Variable net : nat -> string -> NetEvent.
Variable now : string.

Lemma run_unfold :
  run getInput net now initial =
  match read_config getInput with
  | inl e => (Ok tt, with_log initial [SetFailed (failed_message (message e))])
  | inr cfg =>
      match check_all net (cfg_maxRetries cfg) (cfg_retryDelay cfg)
              (cfg_endpoints cfg) (started cfg) with
      | (Ok _, st) => (Ok tt, with_log st (outputs now (results st)))
      | (Thrown e, st) =>
          (Ok tt, with_log st [SetFailed (failed_message (message e))])
      | (OutOfFuel, st) => (OutOfFuel, st)
      end
  end.
Proof.
  unfold run, run_body, read_config, try_catch, bind, input.
  destruct (getInput "environment" true) as [e | environment];
    [reflexivity | ].
  destruct (getInput "endpoints" true) as [e | endpoints]; [reflexivity | ].
  destruct (getInput "max-retries" false) as [e | max_retries];
    [reflexivity | ].
  destruct (getInput "retry-delay" false) as [e | retry_delay];
    [reflexivity | ].
  cbn [ret emit get throw initial results log requests app
       cfg_environment cfg_endpoints cfg_maxRetries cfg_retryDelay].
  fold (started (mkConfig environment (Js.split "," endpoints)
                   (Js.or_default (Js.parseInt max_retries) 5)
                   (Js.or_default (Js.parseInt retry_delay) 30))).
  destruct (check_all _ _ _ _ _) as [[[] | e | ] st]; try reflexivity.
  unfold with_log, outputs, emit. cbn [results log requests].
  rewrite <- !app_assoc. reflexivity.
Qed.

End Run.

(* ================================================================== *)
(** ** Properties of one probe *)
(* ================================================================== *)

(** C4.  A probe is a success exactly when the response status code lies
    in [200, 300): [checkEndpoint] resolves if and only if the request
    ends with a response whose code is in that range, and it rejects if
    and only if it does not (a code outside the range, a request error or
    a timeout); there is no third way for it to end. *)
Theorem checkEndpoint_resolves_iff_2xx
    (net : nat -> string -> NetEvent) (url : string) (timeout : Z)
    (st : State) :
  ((exists r, fst (checkEndpoint net url timeout st) = Ok r) <->
   (exists code body,
      net (requests st) url = ResponseEnd code body /\ 200 <= code < 300))
  /\
  ((exists e, fst (checkEndpoint net url timeout st) = Thrown e) <->
   ((exists code body,
       net (requests st) url = ResponseEnd code body /\
       ~ 200 <= code < 300) \/
    (exists e, net (requests st) url = RequestError e) \/
    net (requests st) url = RequestTimeout))
  /\
  fst (checkEndpoint net url timeout st) <> OutOfFuel.
Proof.
  rewrite checkEndpoint_settles. cbn [fst].
  destruct (net (requests st) url) as [code body | e | ] eqn:Hnet;
    cbn [settle].
  - destruct ((200 <=? code) && (code <? 300)) eqn:Hrange.
    + apply andb_true_iff in Hrange. destruct Hrange as [H1 H2].
      apply Z.leb_le in H1. apply Z.ltb_lt in H2.
      split; [ | split].
      * split; [intros _; exists code, body; auto | eauto].
      * split; [intros [e He]; discriminate | ].
        intros [(c & b & Heq & Hout) | [[e He] | He]]; try discriminate.
        inversion Heq; subst. lia.
      * discriminate.
    + apply andb_false_iff in Hrange.
      assert (Hout : ~ 200 <= code < 300).
      { destruct Hrange as [H | H];
          [apply Z.leb_gt in H | apply Z.ltb_ge in H]; lia. }
      split; [ | split].
      * split; [intros [r Hr]; discriminate | ].
        intros (c & b & Heq & Hin). inversion Heq; subst. contradiction.
      * split; [ | eauto]. intros _. left. exists code, body. auto.
      * discriminate.
  - split; [ | split].
    + split; [intros [r Hr]; discriminate | ].
      intros (c & b & Heq & _). discriminate.
    + split; [ | eauto]. intros _. right; left. eauto.
    + discriminate.
  - split; [ | split].
    + split; [intros [r Hr]; discriminate | ].
      intros (c & b & Heq & _). discriminate.
    + split; [ | eauto]. intros _. right; right. reflexivity.
    + discriminate.
Qed.

(** C8.  When the request times out, [checkEndpoint] destroys it: the
    log gains the request followed by its [Destroy], and the promise is
    rejected with the message "Request timed out"; the cancellation is
    already in the log of the state in which the failure is reported. *)
Theorem timeout_destroys_request
    (net : nat -> string -> NetEvent) (url : string) (timeout : Z)
    (st : State) :
  net (requests st) url = RequestTimeout ->
  checkEndpoint net url timeout st =
  (Thrown (mkError "Request timed out"),
   mkState (results st)
           (log st ++ [HttpsGet url timeout; Destroy url])
           (S (requests st))).
Proof.
  intros Hnet. unfold checkEndpoint. rewrite Hnet. cbn [results log requests].
  rewrite <- app_assoc. reflexivity.
Qed.

Lemma timeout_destroys_request_witness :
  checkEndpoint (always RequestTimeout) "https://a.test/health" 5000 initial =
  (Thrown (mkError "Request timed out"),
   mkState [] [HttpsGet "https://a.test/health" 5000;
               Destroy "https://a.test/health"] 1).
Proof.
  apply (timeout_destroys_request (always RequestTimeout)
           "https://a.test/health" 5000 initial).
  reflexivity.
Defined.

(* ================================================================== *)
(** ** Shape of a run *)
(* ================================================================== *)

(** The run is marked as failed. *)
Definition failed (st : State) : Prop :=
  exists msg, In (SetFailed msg) (log st).

(** The run has set the output of that name. *)
Definition output_set (name : string) (st : State) : Prop :=
  exists value, In (SetOutput name value) (log st).

Lemma healthy_for_endpoints maxRetries eps dr :
  Forall2 (healthy_for maxRetries) eps dr ->
  map endpoint_of dr = eps /\ Forall (fun r => is_healthy r = true) dr.
Proof.
  induction 1 as [ | e r eps dr (a & -> & _) _ [IH1 IH2]]; simpl.
  - auto.
  - rewrite IH1. auto.
Qed.

Section Run_shape.

Variable getInput : string -> bool -> Error + string.
Variable net : nat -> string -> NetEvent.
Variable now : string.

(** The three ways a run goes: an input cannot be read; every endpoint is
    checked and the outputs are set; or the loop of some endpoint throws
    and the run is marked as failed in the state that loop left. *)
Lemma final_cases :
  (exists e,
     read_config getInput = inl e /\
     final getInput net now =
       with_log initial [SetFailed (failed_message (message e))])
  \/
  (exists cfg st1,
     read_config getInput = inr cfg /\
     check_all net (cfg_maxRetries cfg) (cfg_retryDelay cfg)
       (cfg_endpoints cfg) (started cfg) = (Ok tt, st1) /\
     final getInput net now = with_log st1 (outputs now (results st1)))
  \/
  (exists cfg pre e post st1 err st2,
     read_config getInput = inr cfg /\
     cfg_endpoints cfg = (pre ++ e :: post)%list /\
     check_all net (cfg_maxRetries cfg) (cfg_retryDelay cfg) pre
       (started cfg) = (Ok tt, st1) /\
     check net (cfg_maxRetries cfg) (cfg_retryDelay cfg) e st1
       = (Thrown err, st2) /\
     final getInput net now =
       with_log st2 [SetFailed (failed_message (message err))]).
Proof.
  unfold final. rewrite run_unfold.
  destruct (read_config getInput) as [e | cfg].
  - left. exists e. auto.
  - right.
    destruct (check_all_cases net (cfg_maxRetries cfg) (cfg_retryDelay cfg)
                (cfg_endpoints cfg) (started cfg))
      as [(st1 & H) | (pre & e & post & st1 & err & st2 & Heps & Hpre & He
                       & H)]; rewrite H.
    + left. exists cfg, st1. auto.
    + right. exists cfg, pre, e, post, st1, err, st2. auto.
Qed.

(** [run] always returns: the budget given to the [while] loop is never
    used up, and every error thrown in the [try] block is caught. *)
Lemma run_returns : fst (run getInput net now initial) = Ok tt.
Proof.
  rewrite run_unfold.
  destruct (read_config getInput) as [e | cfg]; [reflexivity | ].
  destruct (check_all_cases net (cfg_maxRetries cfg) (cfg_retryDelay cfg)
              (cfg_endpoints cfg) (started cfg))
    as [(st1 & H) | (pre & e & post & st1 & err & st2 & _ & _ & _ & H)];
    rewrite H; reflexivity.
Qed.

End Run_shape.

(** What a loop that throws leaves behind. *)
Lemma check_thrown net maxRetries retryDelay e st err st' :
  check net maxRetries retryDelay e st = (Thrown err, st') ->
  exists cause dl,
    err = mkError (exhausted_message maxRetries e (message cause)) /\
    1 <= maxRetries /\
    results st' = (results st ++ [Unhealthy e (message cause)])%list /\
    log st' = (log st ++ dl)%list /\
    requests st' = (requests st + gets dl)%nat /\
    Z.of_nat (gets dl) = maxRetries /\
    settle (net (requests st + gets dl - 1)%nat (Js.trim e)) = inl cause /\
    (forall i, (i < gets dl)%nat ->
               ~ succeeds (net (requests st + i)%nat (Js.trim e))) /\
    exists l0 tail,
      dl = (l0 ++ HttpsGet (Js.trim e) default_timeout :: tail)%list /\
      gets tail = 0%nat.
Proof.
  intros Hc.
  destruct (check_summary net maxRetries retryDelay e st)
    as (dl & Hlog & Hreq & _ & _ & Hfail & Hend).
  rewrite Hc in *. cbn [fst snd] in *. unfold loop_end in Hend.
  destruct Hend as [(H & _) | [(H & _) | (cause & Hth & Hlt & Hres & Hn
                                          & Hset & Hlast)]];
    try discriminate.
  exists cause, dl. inversion Hth; subst err.
  refine (conj eq_refl (conj _ (conj Hres (conj Hlog (conj Hreq
            (conj _ (conj Hset (conj _ Hlast)))))))).
  - lia.
  - lia.
  - intros i Hi.
    destruct (Nat.eq_dec (i + 1) (gets dl)) as [Heq | Hne].
    + replace i with (gets dl - 1)%nat by lia.
      replace (requests st + (gets dl - 1))%nat
        with (requests st + gets dl - 1)%nat by lia.
      eapply settle_inl_fails; eauto.
    + apply Hfail. lia.
Qed.

(* ================================================================== *)
(** ** Reports and targets *)
(* ================================================================== *)

(** The inputs of the scenarios of the specification: two targets, three
    attempts each, one second between attempts. *)
Definition two_targets : Inputs :=
  mkInputs "production" "https://a.test/health,https://b.test/health"
           "3" "1".

Lemma check_all_thrown_results net maxRetries retryDelay pre e st st1 err st2 :
  check_all net maxRetries retryDelay pre st = (Ok tt, st1) ->
  check net maxRetries retryDelay e st1 = (Thrown err, st2) ->
  exists dr cause,
    Forall2 (healthy_for maxRetries) pre dr /\
    err = mkError (exhausted_message maxRetries e (message cause)) /\
    results st2 = (results st ++ dr ++ [Unhealthy e (message cause)])%list.
Proof.
  intros Hpre He.
  apply check_thrown in He.
  destruct He as (cause & dl & Herr & Hge & Hres & _).
  apply check_all_ok_results in Hpre.
  destruct Hpre as [(Hle & _) | (_ & dr & Hdr & Hres1)]; [lia | ].
  exists dr, cause. rewrite Hres, Hres1, <- app_assoc. auto.
Qed.

(** In every run the reports are, in order, for an initial segment of the
    targets. *)
Lemma reports_prefix_of_targets getInput net now cfg :
  read_config getInput = inr cfg ->
  exists rest,
    cfg_endpoints cfg =
    (map endpoint_of (results (final getInput net now)) ++ rest)%list.
Proof.
  intros Hcfg.
  destruct (final_cases getInput net now)
    as [(e & H & _) | [(cfg' & st1 & H & Hall & ->)
                      | (cfg' & pre & e & post & st1 & err & st2 & H & Heps
                         & Hpre & He & ->)]];
    rewrite Hcfg in H; inversion H; subst cfg'; cbn [with_log results].
  - apply check_all_ok_results in Hall.
    destruct Hall as [(_ & ->) | (_ & dr & Hdr & ->)].
    + exists (cfg_endpoints cfg). reflexivity.
    + apply healthy_for_endpoints in Hdr. destruct Hdr as [Hdr _].
      exists []. cbn [started results app]. rewrite Hdr, app_nil_r.
      reflexivity.
  - destruct (check_all_thrown_results _ _ _ _ _ _ _ _ _ Hpre He)
      as (dr & cause & Hdr & _ & ->).
    apply healthy_for_endpoints in Hdr. destruct Hdr as [Hdr _].
    exists post. cbn [started results app].
    rewrite map_app, Hdr, Heps, <- app_assoc. reflexivity.
Qed.

(** C1, as the specification states it, fails: with two targets of which
    the first exhausts its budget, [results] holds one report, not two. *)
Lemma one_report_for_two_targets :
  results (final (core_getInput two_targets)
                 (always (ResponseEnd 500 EmptyString)) "T")
    = [Unhealthy "https://a.test/health" "HTTP Status: 500"] /\
  List.length (results (final (core_getInput two_targets)
                              (always (ResponseEnd 500 EmptyString)) "T"))
    <> List.length
         (Js.split "," "https://a.test/health,https://b.test/health").
Proof. split; [reflexivity | discriminate]. Qed.

(** C1, amended.  When the inputs are read, the budget is at least one
    attempt and the run is not marked as failed (no target exhausts its
    budget), [results] holds exactly one report per target, in the order
    of the targets, and every one is healthy. *)
Theorem one_report_per_target_when_not_failed
    (getInput : string -> bool -> Error + string)
    (net : nat -> string -> NetEvent) (now : string) (cfg : Config) :
  read_config getInput = inr cfg ->
  1 <= cfg_maxRetries cfg ->
  ~ failed (final getInput net now) ->
  map endpoint_of (results (final getInput net now)) = cfg_endpoints cfg /\
  List.length (results (final getInput net now))
    = List.length (cfg_endpoints cfg) /\
  Forall (fun r => is_healthy r = true) (results (final getInput net now)).
Proof.
  intros Hcfg Hge Hnot.
  assert (Hmain :
    map endpoint_of (results (final getInput net now)) = cfg_endpoints cfg /\
    Forall (fun r => is_healthy r = true) (results (final getInput net now))).
  { destruct (final_cases getInput net now)
      as [(e & H & _) | [(cfg' & st1 & H & Hall & Hfin)
                        | (cfg' & pre & e & post & st1 & err & st2 & H & _
                           & _ & _ & Hfin)]];
      rewrite Hcfg in H; inversion H; subst cfg'.
    - rewrite Hfin. cbn [with_log results].
      apply check_all_ok_results in Hall.
      destruct Hall as [(Hle & _) | (_ & dr & Hdr & ->)]; [lia | ].
      cbn [started results app].
      now apply (healthy_for_endpoints (cfg_maxRetries cfg)).
    - exfalso. apply Hnot. exists (failed_message (message err)).
      rewrite Hfin. cbn [with_log log]. apply in_or_app. right. now left. }
  destruct Hmain as [Hmap Hall]. split; [exact Hmap | split; [ | exact Hall]].
  rewrite <- Hmap, length_map. reflexivity.
Qed.

Lemma one_report_per_target_when_not_failed_witness :
  map endpoint_of
    (results (final (core_getInput two_targets)
                    (scripted [ResponseEnd 200 "ok"; ResponseEnd 500 "no";
                               ResponseEnd 500 "no"; ResponseEnd 200 "ok"])
                    "T"))
  = ["https://a.test/health"; "https://b.test/health"].
Proof.
  refine (proj1 (one_report_per_target_when_not_failed
                   (core_getInput two_targets)
                   (scripted [ResponseEnd 200 "ok"; ResponseEnd 500 "no";
                              ResponseEnd 500 "no"; ResponseEnd 200 "ok"])
                   "T"
                   (mkConfig "production"
                      ["https://a.test/health"; "https://b.test/health"] 3 1)
                   eq_refl _ _)).
  - vm_compute. discriminate.
  - intros [msg Hin]. vm_compute in Hin.
    repeat (destruct Hin as [Hin | Hin]; [discriminate | ]).
    exact Hin.
Defined.

(* ================================================================== *)
(** ** What the loops add to the log and to the reports *)
(* ================================================================== *)

(** Requests of one more endpoint stay within the budget of all. *)
Lemma budget_step {A} (x : A) (xs : list A) (n m : nat) (budget : Z) :
  Z.of_nat n <= Z.max 0 budget ->
  Z.of_nat m <= Z.of_nat (List.length xs) * Z.max 0 budget ->
  Z.of_nat (n + m) <= Z.of_nat (List.length (x :: xs)) * Z.max 0 budget.
Proof.
  intros Hn Hm. cbn [List.length]. rewrite Nat2Z.inj_succ, Nat2Z.inj_add.
  unfold Z.succ. rewrite Z.mul_add_distr_r. lia.
Qed.

Section Growth.

Variable net : nat -> string -> NetEvent.
Variable maxRetries retryDelay : Z.

(** The log of the loop for one endpoint: only events of that endpoint,
    one pause less than requests, and no more requests than the budget. *)
Lemma check_log e st :
  exists dl,
    log (snd (check net maxRetries retryDelay e st)) = (log st ++ dl)%list /\
    requests (snd (check net maxRetries retryDelay e st))
      = (requests st + gets dl)%nat /\
    Forall (loop_event retryDelay e) dl /\
    sleeps dl = pred (gets dl) /\
    Z.of_nat (gets dl) <= Z.max 0 maxRetries.
Proof.
  destruct (check_summary net maxRetries retryDelay e st)
    as (dl & Hlog & Hreq & Hev & Hsl & _ & Hend).
  exists dl. refine (conj Hlog (conj Hreq (conj Hev (conj Hsl _)))).
  unfold loop_end in Hend.
  destruct Hend as [(_ & _ & -> & _) | [(_ & _ & _ & _ & Hle & _)
                                       | (cause & _ & _ & _ & Hn & _)]].
  - unfold gets. simpl. lia.
  - lia.
  - lia.
Qed.

Lemma check_results_grow e st :
  exists dr,
    results (snd (check net maxRetries retryDelay e st))
    = (results st ++ dr)%list.
Proof.
  destruct (check_summary net maxRetries retryDelay e st)
    as (dl & _ & _ & _ & _ & _ & Hend).
  unfold loop_end in Hend.
  destruct Hend as [(_ & _ & _ & Hres) | [(_ & _ & Hres & _)
                                         | (cause & _ & _ & Hres & _)]].
  - exists []. rewrite app_nil_r. exact Hres.
  - eexists. exact Hres.
  - eexists. exact Hres.
Qed.

(** An event of the loop over the endpoints [eps]. *)
Definition loops_event (eps : list string) (ev : Event) : Prop :=
  exists e, In e eps /\ loop_event retryDelay e ev.

Lemma check_all_log eps : forall st,
  exists dl,
    log (snd (check_all net maxRetries retryDelay eps st))
      = (log st ++ dl)%list /\
    requests (snd (check_all net maxRetries retryDelay eps st))
      = (requests st + gets dl)%nat /\
    Forall (loops_event eps) dl /\
    (sleeps dl <= gets dl)%nat /\
    (maxRetries <= 1 -> sleeps dl = 0%nat) /\
    Z.of_nat (gets dl) <= Z.of_nat (List.length eps) * Z.max 0 maxRetries.
Proof.
  induction eps as [ | e eps IH]; intros st.
  - exists []. unfold check_all, gets, sleeps. simpl.
    rewrite app_nil_r. repeat split; auto; lia.
  - destruct (check_log e st) as (d1 & Hlog1 & Hreq1 & Hev1 & Hsl1 & Hn1).
    assert (Hfirst : Forall (loops_event (e :: eps)) d1).
    { eapply Forall_impl; [ | exact Hev1].
      intros ev Hev. exists e. split; [now left | exact Hev]. }
    unfold check_all in *. cbn [for_of]. unfold bind.
    destruct (check net maxRetries retryDelay e st) as [res st1].
    cbn [snd] in Hlog1, Hreq1.
    assert (Hstop :
      exists dl,
        log st1 = (log st ++ dl)%list /\
        requests st1 = (requests st + gets dl)%nat /\
        Forall (loops_event (e :: eps)) dl /\
        (sleeps dl <= gets dl)%nat /\
        (maxRetries <= 1 -> sleeps dl = 0%nat) /\
        Z.of_nat (gets dl)
          <= Z.of_nat (List.length (e :: eps)) * Z.max 0 maxRetries).
    { exists d1. refine (conj Hlog1 (conj Hreq1 (conj Hfirst _))).
      split; [lia | split; [lia | ]].
      replace (gets d1) with (gets d1 + 0)%nat by lia.
      apply budget_step; [exact Hn1 | ].
      apply Z.mul_nonneg_nonneg; lia. }
    destruct res as [[] | err | ]; cbn [snd]; try exact Hstop.
    destruct (IH st1) as (d2 & Hlog2 & Hreq2 & Hev2 & Hsl2 & Hone2 & Hn2).
    exists (d1 ++ d2)%list.
    rewrite Hlog2, Hlog1, Hreq2, Hreq1, <- app_assoc, gets_app, sleeps_app.
    refine (conj eq_refl (conj _ (conj _ _))).
    + lia.
    + apply Forall_app. split; [exact Hfirst | ].
      eapply Forall_impl; [ | exact Hev2].
      intros ev (e' & Hin & Hev). exists e'. split; [now right | exact Hev].
    + split; [lia | split; [ | apply budget_step; assumption]].
      intros Hle. specialize (Hone2 Hle). lia.
Qed.

Lemma check_all_results_grow eps : forall st,
  exists dr,
    results (snd (check_all net maxRetries retryDelay eps st))
    = (results st ++ dr)%list.
Proof.
  induction eps as [ | e eps IH]; intros st.
  - exists []. unfold check_all. simpl. now rewrite app_nil_r.
  - destruct (check_results_grow e st) as (d1 & H1).
    unfold check_all in *. simpl. unfold bind.
    destruct (check net maxRetries retryDelay e st) as [res st1].
    cbn [snd] in H1.
    destruct res as [[] | err | ]; cbn [snd]; try (exists d1; exact H1).
    destruct (IH st1) as (d2 & H2). exists (d1 ++ d2)%list.
    rewrite H2, H1, <- app_assoc. reflexivity.
Qed.

End Growth.

(* ================================================================== *)
(** ** One target within a run *)
(* ================================================================== *)

(** [reaches net cfg pre e post st]: the targets are [pre], then [e], then
    [post]; every target of [pre] has been checked without a throw, and
    the run is about to check [e] in state [st]. *)
Definition reaches (net : nat -> string -> NetEvent) (cfg : Config)
    (pre : list string) (e : string) (post : list string) (st : State)
  : Prop :=
  cfg_endpoints cfg = (pre ++ e :: post)%list /\
  check_all net (cfg_maxRetries cfg) (cfg_retryDelay cfg) pre (started cfg)
    = (Ok tt, st).

(** The first [k - 1] requests issued from [st] to the URL of [e] fail
    and the [k]-th succeeds. *)
Definition first_success (net : nat -> string -> NetEvent) (e : string)
    (st : State) (k : nat) : Prop :=
  (1 <= k)%nat /\
  (forall i, (i + 1 < k)%nat ->
             ~ succeeds (net (requests st + i)%nat (Js.trim e))) /\
  succeeds (net (requests st + k - 1)%nat (Js.trim e)).

(** The first [n] requests issued from [st] to the URL of [e] all fail. *)
Definition all_fail (net : nat -> string -> NetEvent) (e : string)
    (st : State) (n : nat) : Prop :=
  forall i, (i < n)%nat ->
            ~ succeeds (net (requests st + i)%nat (Js.trim e)).

Section Target.

Variable net : nat -> string -> NetEvent.
Variable maxRetries retryDelay : Z.

Lemma check_first_success e st k :
  first_success net e st k ->
  Z.of_nat k <= maxRetries ->
  exists st' dl,
    check net maxRetries retryDelay e st = (Ok tt, st') /\
    results st' = (results st ++ [Healthy e (Z.of_nat k)])%list /\
    requests st' = (requests st + k)%nat /\
    log st' = (log st ++ dl)%list /\
    gets dl = k /\
    sleeps dl = (k - 1)%nat.
Proof.
  intros (Hk & Hbefore & Hat) Hle.
  destruct (check_summary net maxRetries retryDelay e st)
    as (dl & Hlog & Hreq & _ & Hsl & Hfail & Hend).
  destruct (check net maxRetries retryDelay e st) as [res st'].
  cbn [fst snd] in *. unfold loop_end in Hend.
  assert (Hsame : forall n, (1 <= n)%nat ->
            (forall i, (i + 1 < n)%nat ->
                       ~ succeeds (net (requests st + i)%nat (Js.trim e))) ->
            succeeds (net (requests st + n - 1)%nat (Js.trim e)) -> n = k).
  { intros n Hn Hnb Hna.
    destruct (lt_eq_lt_dec n k) as [[Hlt | Heq] | Hgt]; [ | exact Heq | ].
    - exfalso. apply (Hbefore (n - 1)%nat); [lia | ].
      replace (requests st + (n - 1))%nat with (requests st + n - 1)%nat
        by lia. exact Hna.
    - exfalso. apply (Hnb (k - 1)%nat); [lia | ].
      replace (requests st + (k - 1))%nat with (requests st + k - 1)%nat
        by lia. exact Hat. }
  destruct Hend as [(_ & Hex & _) | [(-> & _ & Hres & Hone & _ & Hsucc)
                                    | (cause & _ & Hlt & _ & Hn & Hset & _)]].
  - lia.
  - assert (Hg : gets dl = k) by (apply Hsame; auto).
    exists st', dl. rewrite Hg in *.
    refine (conj eq_refl (conj Hres (conj Hreq (conj Hlog (conj eq_refl _))))).
    lia.
  - exfalso. apply settle_inl_fails in Hset.
    destruct (Nat.eq_dec (gets dl) k) as [Heq | Hne].
    + apply Hset. rewrite Heq. exact Hat.
    + apply (Hfail (k - 1)%nat); [lia | ].
      replace (requests st + (k - 1))%nat with (requests st + k - 1)%nat
        by lia. exact Hat.
Qed.

Lemma check_all_fail e st :
  1 <= maxRetries ->
  all_fail net e st (Z.to_nat maxRetries) ->
  exists cause st' dl,
    check net maxRetries retryDelay e st =
      (Thrown (mkError (exhausted_message maxRetries e (message cause))),
       st') /\
    settle (net (requests st + Z.to_nat maxRetries - 1)%nat (Js.trim e))
      = inl cause /\
    results st' = (results st ++ [Unhealthy e (message cause)])%list /\
    requests st' = (requests st + Z.to_nat maxRetries)%nat /\
    log st' = (log st ++ dl)%list /\
    gets dl = Z.to_nat maxRetries.
Proof.
  intros Hge Hall.
  destruct (check_summary net maxRetries retryDelay e st)
    as (dl & Hlog & Hreq & _ & _ & _ & Hend).
  destruct (check net maxRetries retryDelay e st) as [res st'].
  cbn [fst snd] in *. unfold loop_end in Hend.
  destruct Hend as [(_ & Hex & _) | [(_ & _ & _ & Hone & Hle & Hsucc)
                                    | (cause & -> & _ & Hres & Hn & Hset & _)]].
  - lia.
  - exfalso. apply (Hall (gets dl - 1)%nat); [lia | ].
    replace (requests st + (gets dl - 1))%nat
      with (requests st + gets dl - 1)%nat by lia. exact Hsucc.
  - assert (Hg : gets dl = Z.to_nat maxRetries) by lia.
    exists cause, st', dl. rewrite Hg in *. auto 10.
Qed.

End Target.

Section Run_target.

Variable getInput : string -> bool -> Error + string.
Variable net : nat -> string -> NetEvent.
Variable now : string.

(** The end of the run, seen from the moment it reaches a target. *)
Lemma final_after_target cfg pre e post st :
  read_config getInput = inr cfg ->
  reaches net cfg pre e post st ->
  final getInput net now =
  match check net (cfg_maxRetries cfg) (cfg_retryDelay cfg) e st with
  | (Ok _, st1) =>
      match check_all net (cfg_maxRetries cfg) (cfg_retryDelay cfg) post st1
      with
      | (Ok _, st2) => with_log st2 (outputs now (results st2))
      | (Thrown err, st2) =>
          with_log st2 [SetFailed (failed_message (message err))]
      | (OutOfFuel, st2) => st2
      end
  | (Thrown err, st1) =>
      with_log st1 [SetFailed (failed_message (message err))]
  | (OutOfFuel, st1) => st1
  end.
Proof.
  intros Hcfg [Heps Hpre]. unfold final. rewrite run_unfold, Hcfg, Heps.
  unfold check_all in *. rewrite for_of_app, Hpre. cbn [for_of]. unfold bind.
  destruct (check net (cfg_maxRetries cfg) (cfg_retryDelay cfg) e st)
    as [[[] | err | ] st1]; try reflexivity.
  destruct (for_of post _ st1) as [[[] | err | ] st2]; reflexivity.
Qed.

(** When the run reaches a target, it holds one report for each target
    before it. *)
Lemma reaches_reports cfg pre e post st :
  reaches net cfg pre e post st ->
  1 <= cfg_maxRetries cfg ->
  List.length (results st) = List.length pre.
Proof.
  intros [_ Hpre] Hge. apply check_all_ok_results in Hpre.
  destruct Hpre as [(Hle & _) | (_ & dr & Hdr & ->)]; [lia | ].
  cbn [started results app]. symmetry.
  eapply Forall2_length; eauto.
Qed.

End Run_target.

(* ================================================================== *)
(** ** Outputs or failure *)
(* ================================================================== *)

Lemma loops_event_quiet retryDelay eps dl :
  Forall (loops_event retryDelay eps) dl ->
  (forall name value, ~ In (SetOutput name value) dl) /\
  (forall msg, ~ In (SetFailed msg) dl).
Proof.
  intros Hall. rewrite Forall_forall in Hall. split.
  - intros name value Hin. destruct (Hall _ Hin) as (e & _ & []).
  - intros msg Hin. destruct (Hall _ Hin) as (e & _ & []).
Qed.

(** The log when the loop over the endpoints is over: the two opening
    lines, then events of the loops only. *)
Lemma checked_log net cfg :
  exists dl,
    log (snd (check_all net (cfg_maxRetries cfg) (cfg_retryDelay cfg)
                (cfg_endpoints cfg) (started cfg)))
      = (log (started cfg) ++ dl)%list /\
    Forall (loops_event (cfg_retryDelay cfg) (cfg_endpoints cfg)) dl.
Proof.
  destruct (check_all_log net (cfg_maxRetries cfg) (cfg_retryDelay cfg)
              (cfg_endpoints cfg) (started cfg))
    as (dl & Hlog & _ & Hev & _).
  exists dl. auto.
Qed.

Lemma started_quiet cfg dl ev :
  Forall (loops_event (cfg_retryDelay cfg) (cfg_endpoints cfg)) dl ->
  In ev (log (started cfg) ++ dl) ->
  match ev with
  | SetOutput _ _ => False
  | SetFailed _ => False
  | _ => True
  end.
Proof.
  intros Hev Hin. apply in_app_or in Hin. destruct Hin as [Hin | Hin].
  - cbn [started log] in Hin.
    destruct Hin as [<- | [<- | []]]; exact I.
  - apply loops_event_quiet in Hev. destruct Hev as [Ho Hf].
    destruct ev; try exact I.
    + eapply Ho; eauto.
    + eapply Hf; eauto.
Qed.

Section Exclusive.

Variable getInput : string -> bool -> Error + string.
Variable net : nat -> string -> NetEvent.
Variable now : string.

(** A run ends in exactly one of two ways: marked as failed with no
    output set, or not marked as failed with the three outputs set after
    every endpoint has been checked. *)
Lemma failed_or_outputs :
  (failed (final getInput net now) /\
   forall name, ~ output_set name (final getInput net now))
  \/
  (~ failed (final getInput net now) /\
   exists cfg st1,
     read_config getInput = inr cfg /\
     check_all net (cfg_maxRetries cfg) (cfg_retryDelay cfg)
       (cfg_endpoints cfg) (started cfg) = (Ok tt, st1) /\
     final getInput net now = with_log st1 (outputs now (results st1))).
Proof.
  unfold final. rewrite run_unfold.
  destruct (read_config getInput) as [e | cfg].
  - left. cbn [snd with_log initial log app]. split.
    + eexists. now left.
    + intros name [value [H | []]]. discriminate.
  - destruct (checked_log net cfg) as (dl & Hlog & Hev).
    destruct (check_all_cases net (cfg_maxRetries cfg) (cfg_retryDelay cfg)
                (cfg_endpoints cfg) (started cfg))
      as [(st1 & H) | (pre & e & post & st1 & err & st2 & _ & _ & _ & H)];
      rewrite H in *; cbn [snd fst] in *.
    + right. split.
      * intros [msg Hin]. cbn [with_log log] in Hin.
        apply in_app_or in Hin. destruct Hin as [Hin | Hin].
        -- rewrite Hlog in Hin. apply (started_quiet _ _ _ Hev) in Hin.
           exact Hin.
        -- cbn in Hin. destruct Hin as [Hin | [Hin | [Hin | []]]];
             discriminate.
      * exists cfg, st1. auto.
    + left. split.
      * eexists. cbn [with_log log]. apply in_or_app. right. now left.
      * intros name [value Hin]. cbn [with_log log] in Hin.
        apply in_app_or in Hin. destruct Hin as [Hin | Hin].
        -- rewrite Hlog in Hin. apply (started_quiet _ _ _ Hev) in Hin.
           exact Hin.
        -- destruct Hin as [Hin | []]. discriminate.
Qed.

End Exclusive.

(* ================================================================== *)
(** ** Claims about one target *)
(* ================================================================== *)

Lemma nth_error_snoc {A} (l : list A) (x : A) (more : list A) n :
  List.length l = n ->
  nth_error ((l ++ [x]) ++ more) n = Some x.
Proof.
  intros <-. rewrite <- app_assoc. rewrite nth_error_app2 by lia.
  rewrite Nat.sub_diag. reflexivity.
Qed.

(** C2.  Whenever a run with a budget of at least one attempt reaches a
    target and the [maxRetries] requests it then issues to the target all
    fail, the report of that target (the one at its position in
    [results]) is unhealthy and carries the message of the last of those
    failures, the run is marked as failed with a message that ends with
    the same message, and no output is set. *)
Theorem exhausted_target_unhealthy_and_run_failed
    (getInput : string -> bool -> Error + string)
    (net : nat -> string -> NetEvent) (now : string) (cfg : Config)
    (pre : list string) (e : string) (post : list string) (st : State) :
  read_config getInput = inr cfg ->
  reaches net cfg pre e post st ->
  1 <= cfg_maxRetries cfg ->
  all_fail net e st (Z.to_nat (cfg_maxRetries cfg)) ->
  exists cause,
    settle (net (requests st + Z.to_nat (cfg_maxRetries cfg) - 1)%nat
                (Js.trim e)) = inl cause /\
    nth_error (results (final getInput net now)) (List.length pre)
      = Some (Unhealthy e (message cause)) /\
    In (SetFailed (failed_message
                     (exhausted_message (cfg_maxRetries cfg) e
                                        (message cause))))
       (log (final getInput net now)) /\
    failed (final getInput net now) /\
    (forall name, ~ output_set name (final getInput net now)).
Proof.
  intros Hcfg Hreach Hge Hall.
  destruct (check_all_fail net (cfg_maxRetries cfg) (cfg_retryDelay cfg)
              e st Hge Hall)
    as (cause & st' & dl & Hc & Hset & Hres & _).
  pose proof (final_after_target getInput net now cfg pre e post st
                Hcfg Hreach) as Hfin.
  rewrite Hc in Hfin.
  assert (Hin : In (SetFailed (failed_message
                      (exhausted_message (cfg_maxRetries cfg) e
                                         (message cause))))
                   (log (final getInput net now))).
  { rewrite Hfin. cbn [with_log log message].
    apply in_or_app. right. now left. }
  assert (Hfailed : failed (final getInput net now)) by (eexists; exact Hin).
  exists cause. refine (conj Hset (conj _ (conj Hin (conj Hfailed _)))).
  - rewrite Hfin. cbn [with_log results]. rewrite Hres.
    rewrite <- (app_nil_r (results st ++ _)).
    apply nth_error_snoc. eapply reaches_reports; eauto.
  - destruct (failed_or_outputs getInput net now) as [[_ H] | [H _]].
    + exact H.
    + contradiction.
Qed.

(** C3.  Whenever a run reaches a target and the first request to succeed
    is the [k]-th, with [k] within the budget, the loop of that target
    ends normally after exactly [k] requests (none follows the success)
    and [k - 1] pauses, and the report of the target (the one at its
    position in [results]) is healthy with [attempts = k]. *)
Theorem first_success_healthy_with_k_attempts
    (getInput : string -> bool -> Error + string)
    (net : nat -> string -> NetEvent) (now : string) (cfg : Config)
    (pre : list string) (e : string) (post : list string) (st : State)
    (k : nat) :
  read_config getInput = inr cfg ->
  reaches net cfg pre e post st ->
  first_success net e st k ->
  Z.of_nat k <= cfg_maxRetries cfg ->
  exists st' dl,
    check net (cfg_maxRetries cfg) (cfg_retryDelay cfg) e st = (Ok tt, st') /\
    results st' = (results st ++ [Healthy e (Z.of_nat k)])%list /\
    requests st' = (requests st + k)%nat /\
    log st' = (log st ++ dl)%list /\
    gets dl = k /\
    sleeps dl = (k - 1)%nat /\
    nth_error (results (final getInput net now)) (List.length pre)
      = Some (Healthy e (Z.of_nat k)).
Proof.
  intros Hcfg Hreach Hfirst Hle.
  destruct (check_first_success net (cfg_maxRetries cfg) (cfg_retryDelay cfg)
              e st k Hfirst Hle)
    as (st' & dl & Hc & Hres & Hreq & Hlog & Hg & Hs).
  exists st', dl.
  refine (conj Hc (conj Hres (conj Hreq (conj Hlog (conj Hg (conj Hs _)))))).
  pose proof (final_after_target getInput net now cfg pre e post st
                Hcfg Hreach) as Hfin.
  rewrite Hc in Hfin.
  destruct (check_all_results_grow net (cfg_maxRetries cfg)
              (cfg_retryDelay cfg) post st') as (more & Hmore).
  assert (Hfinal : results (final getInput net now)
                   = ((results st ++ [Healthy e (Z.of_nat k)]) ++ more)%list).
  { rewrite Hfin, <- Hres, <- Hmore.
    destruct (check_all net (cfg_maxRetries cfg) (cfg_retryDelay cfg)
                post st') as [[[] | err | ] st2]; reflexivity. }
  rewrite Hfinal. apply nth_error_snoc.
  destruct Hfirst as [Hk _].
  eapply reaches_reports; eauto. lia.
Qed.

(** The two scenarios of the specification: the first target answers 200
    at once; the second answers 500 twice and then 200, or 500 three
    times. *)
Definition b_recovers : nat -> string -> NetEvent :=
  scripted [ResponseEnd 200 "ok"; ResponseEnd 500 "no"; ResponseEnd 500 "no";
            ResponseEnd 200 "ok"].

Definition b_stays_down : nat -> string -> NetEvent :=
  scripted [ResponseEnd 200 "ok"; ResponseEnd 500 "no"; ResponseEnd 500 "no";
            ResponseEnd 500 "no"].

Definition two_targets_config : Config :=
  mkConfig "production"
    ["https://a.test/health"; "https://b.test/health"] 3 1.

(** The state in which the run of either scenario reaches the second
    target. *)
Definition after_a : State :=
  snd (check_all b_recovers 3 1 ["https://a.test/health"]
         (started two_targets_config)).

Example b_recovers_run :
  results (final (core_getInput two_targets) b_recovers "T")
  = [Healthy "https://a.test/health" 1; Healthy "https://b.test/health" 3].
Proof. reflexivity. Qed.

Example b_stays_down_run :
  results (final (core_getInput two_targets) b_stays_down "T")
  = [Healthy "https://a.test/health" 1;
     Unhealthy "https://b.test/health" "HTTP Status: 500"].
Proof. reflexivity. Qed.

Lemma exhausted_target_unhealthy_and_run_failed_witness :
  exists cause,
    settle (b_stays_down (requests after_a + Z.to_nat 3 - 1)%nat
              (Js.trim "https://b.test/health")) = inl cause /\
    nth_error (results (final (core_getInput two_targets) b_stays_down "T"))
              (List.length ["https://a.test/health"])
      = Some (Unhealthy "https://b.test/health" (message cause)) /\
    In (SetFailed (failed_message
                     (exhausted_message 3 "https://b.test/health"
                                        (message cause))))
       (log (final (core_getInput two_targets) b_stays_down "T")) /\
    failed (final (core_getInput two_targets) b_stays_down "T") /\
    (forall name,
       ~ output_set name (final (core_getInput two_targets) b_stays_down "T")).
Proof.
  apply (exhausted_target_unhealthy_and_run_failed
           (core_getInput two_targets) b_stays_down "T" two_targets_config
           ["https://a.test/health"] "https://b.test/health" [] after_a).
  - reflexivity.
  - split; reflexivity.
  - cbn. lia.
  - intros i Hi (code & body & Heq & Hrange).
    change (Z.to_nat (cfg_maxRetries two_targets_config)) with 3%nat in Hi.
    destruct i as [ | [ | [ | i]]]; [ | | | lia];
      vm_compute in Heq; inversion Heq; subst code; lia.
Defined.

Lemma first_success_healthy_with_k_attempts_witness :
  exists st' dl,
    check b_recovers 3 1 "https://b.test/health" after_a = (Ok tt, st') /\
    results st'
      = (results after_a ++ [Healthy "https://b.test/health" 3])%list /\
    requests st' = (requests after_a + 3)%nat /\
    log st' = (log after_a ++ dl)%list /\
    gets dl = 3%nat /\
    sleeps dl = (3 - 1)%nat /\
    nth_error (results (final (core_getInput two_targets) b_recovers "T"))
              (List.length ["https://a.test/health"])
      = Some (Healthy "https://b.test/health" 3).
Proof.
  apply (first_success_healthy_with_k_attempts
           (core_getInput two_targets) b_recovers "T" two_targets_config
           ["https://a.test/health"] "https://b.test/health" [] after_a 3).
  - reflexivity.
  - split; reflexivity.
  - split; [lia | split].
    + intros i Hi (code & body & Heq & Hrange).
      destruct i as [ | [ | i]]; [ | | lia];
        vm_compute in Heq; inversion Heq; subst code; lia.
    + exists 200, "ok". split; [reflexivity | lia].
  - cbn. lia.
Defined.

(* ================================================================== *)
(** ** The log and the reports of a whole run *)
(* ================================================================== *)


Lemma gets_zero l url t : gets l = 0%nat -> ~ In (HttpsGet url t) l.
Proof.
  unfold gets. intros Hz Hin.
  assert (Hf : In (HttpsGet url t) (filter is_get l)).
  { apply filter_In. split; [exact Hin | reflexivity]. }
  destruct (filter is_get l); [destruct Hf | discriminate].
Qed.

Section Run_log.

Variable getInput : string -> bool -> Error + string.
Variable net : nat -> string -> NetEvent.
Variable now : string.

(** The log of a run whose inputs are read: the two opening lines, the
    events of the loops, then either the three outputs or the failure. *)
Lemma final_log cfg :
  read_config getInput = inr cfg ->
  exists dl tail,
    log (final getInput net now) = (log (started cfg) ++ dl ++ tail)%list /\
    requests (final getInput net now) = gets dl /\
    Forall (loops_event (cfg_retryDelay cfg) (cfg_endpoints cfg)) dl /\
    (sleeps dl <= gets dl)%nat /\
    (cfg_maxRetries cfg <= 1 -> sleeps dl = 0%nat) /\
    Z.of_nat (gets dl)
      <= Z.of_nat (List.length (cfg_endpoints cfg))
         * Z.max 0 (cfg_maxRetries cfg) /\
    (tail = outputs now (results (final getInput net now)) \/
     exists msg, tail = [SetFailed msg]).
Proof.
  intros Hcfg. unfold final. rewrite run_unfold, Hcfg.
  destruct (check_all_log net (cfg_maxRetries cfg) (cfg_retryDelay cfg)
              (cfg_endpoints cfg) (started cfg))
    as (dl & Hlog & Hreq & Hev & Hsl & Hone & Hn).
  destruct (check_all_cases net (cfg_maxRetries cfg) (cfg_retryDelay cfg)
              (cfg_endpoints cfg) (started cfg))
    as [(st1 & H) | (pre & e & post & st1 & err & st2 & _ & _ & _ & H)];
    rewrite H in *; cbn [snd fst with_log log requests results] in *;
    rewrite Hlog, Hreq, <- app_assoc; cbn [started requests];
    eexists dl, _;
    (refine (conj eq_refl (conj eq_refl (conj Hev (conj Hsl (conj Hone
               (conj Hn _))))))).
  - left. reflexivity.
  - right. eexists. reflexivity.
Qed.

(** Every report of a run is for one of the targets; a healthy one
    records a number of attempts between 1 and the budget. *)
Lemma final_reports cfg r :
  read_config getInput = inr cfg ->
  In r (results (final getInput net now)) ->
  In (endpoint_of r) (cfg_endpoints cfg) /\
  forall a, attempts_of r = Some a -> 1 <= a <= cfg_maxRetries cfg.
Proof.
  intros Hcfg Hin.
  assert (Hhealthy : forall eps dr,
            Forall2 (healthy_for (cfg_maxRetries cfg)) eps dr -> In r dr ->
            In (endpoint_of r) eps /\
            forall a, attempts_of r = Some a -> 1 <= a <= cfg_maxRetries cfg).
  { induction 1 as [ | e r' eps dr (a & -> & Ha) _ IH]; intros Hr.
    - destruct Hr.
    - destruct Hr as [<- | Hr].
      + split; [now left | ]. intros a' Heq. inversion Heq. subst. exact Ha.
      + destruct (IH Hr) as [H1 H2]. split; [now right | exact H2]. }
  destruct (final_cases getInput net now)
    as [(e & H & _) | [(cfg' & st1 & H & Hall & Hfin)
                      | (cfg' & pre & e & post & st1 & err & st2 & H & Heps
                         & Hpre & He & Hfin)]];
    rewrite Hcfg in H; inversion H; subst cfg'; rewrite Hfin in Hin;
    cbn [with_log results] in Hin.
  - apply check_all_ok_results in Hall.
    destruct Hall as [(_ & ->) | (_ & dr & Hdr & Hres)].
    + destruct Hin.
    + rewrite Hres in Hin. cbn [started results app] in Hin. eauto.
  - destruct (check_all_thrown_results _ _ _ _ _ _ _ _ _ Hpre He)
      as (dr & cause & Hdr & _ & Hres).
    rewrite Hres in Hin. cbn [started results app] in Hin.
    apply in_app_or in Hin. destruct Hin as [Hin | [<- | []]].
    + destruct (Hhealthy _ _ Hdr Hin) as [H1 H2]. split; [ | exact H2].
      rewrite Heps. apply in_or_app. now left.
    + split.
      * rewrite Heps. apply in_or_app. right. now left.
      * intros a Ha. discriminate.
Qed.

End Run_log.

(* ================================================================== *)
(** ** The budget of attempts *)
(* ================================================================== *)

Definition one_attempt : Inputs :=
  mkInputs "production" "https://a.test/health,https://b.test/health"
           "1" "30".


(** The first target answers 200, the second 503. *)
Definition one_ok_one_down : nat -> string -> NetEvent :=
  scripted [ResponseEnd 200 "ok"; ResponseEnd 503 "down"].

Example one_attempt_run :
  results (final (core_getInput one_attempt) one_ok_one_down "T")
    = [Healthy "https://a.test/health" 1;
       Unhealthy "https://b.test/health" "HTTP Status: 503"] /\
  filter (fun ev => is_get ev || is_sleep ev)
         (log (final (core_getInput one_attempt) one_ok_one_down "T"))
    = [HttpsGet "https://a.test/health" 5000;
       HttpsGet "https://b.test/health" 5000].
Proof. split; reflexivity. Qed.

Section Heads.

Variable net : nat -> string -> NetEvent.
Variable maxRetries retryDelay : Z.

(** [loop_head e st0 r s st]: the [while] loop for [e], entered in state
    [st0], is at its head (about to test its guard) with [retries = r]
    and [success = s] in state [st]. *)
Inductive loop_head (e : string) (st0 : State) : Z -> bool -> State -> Prop :=
| head_entry : loop_head e st0 0 false st0
| head_pass r st r' s' st' :
    loop_head e st0 r false st ->
    r < maxRetries ->
    attempt net maxRetries retryDelay e r st = (Ok (r', s'), st') ->
    loop_head e st0 r' s' st'.

(** From a head where the guard holds, the function takes the pass and
    goes on from the next head. *)
Lemma while_loop_pass fuel e r st r' s' st' :
  r < maxRetries ->
  attempt net maxRetries retryDelay e r st = (Ok (r', s'), st') ->
  while_loop net maxRetries retryDelay (S fuel) e r false st
  = while_loop net maxRetries retryDelay fuel e r' s' st'.
Proof.
  intros Hlt Hpass. cbn [while_loop].
  rewrite (proj2 (Z.ltb_lt _ _) Hlt). cbn [andb negb].
  unfold bind. rewrite Hpass. reflexivity.
Qed.

(** The invariant of the loop: the requests issued for the target so far
    are [retries] failed ones, plus the successful one if there is one,
    and they never exceed the budget. *)
Lemma loop_head_invariant e st0 r s st :
  0 <= maxRetries ->
  loop_head e st0 r s st ->
  0 <= r <= maxRetries /\
  Z.of_nat (requests st)
    = Z.of_nat (requests st0) + r + (if s then 1 else 0) /\
  Z.of_nat (requests st - requests st0) <= maxRetries.
Proof.
  intros Hge Hhead.
  assert (Hinv : 0 <= r <= maxRetries /\
                 Z.of_nat (requests st)
                   = Z.of_nat (requests st0) + r + (if s then 1 else 0) /\
                 (s = true -> r < maxRetries)).
  { induction Hhead as [ | r st r' s' st' Hhead IH Hlt Hpass].
    - repeat split; try lia; discriminate.
    - destruct IH as (Hr & Hreq & _).
      destruct (settle (fate net e st)) as [err | resp] eqn:Hs.
      + destruct (Z.eq_dec (r + 1) maxRetries) as [Hlast | Hmore].
        * destruct (attempt_exhausted net maxRetries retryDelay e r st err
                      Hs Hlast) as (m1 & Heq).
          rewrite Heq in Hpass. discriminate.
        * destruct (attempt_retry net maxRetries retryDelay e r st err
                      Hs Hmore) as (m1 & m2 & Heq).
          rewrite Heq in Hpass. inversion Hpass; subst.
          cbn [requests]. repeat split; intros; try lia; try discriminate.
      + destruct (attempt_success net maxRetries retryDelay e r st resp Hs)
          as (m1 & m2 & Heq).
        rewrite Heq in Hpass. inversion Hpass; subst.
        cbn [requests]. repeat split; intros; try lia. }
  destruct Hinv as (Hr & Hreq & Hs).
  refine (conj Hr (conj Hreq _)).
  destruct s; [specialize (Hs eq_refl) | ]; lia.
Qed.

End Heads.

(** C7.  With a budget that is not negative, the requests issued for a
    target never exceed [maxRetries]: this holds at every head of the
    loop of the target, where they number [retries] (plus one after the
    success), and when the loop is over, however it ends; and every
    [attempts] value recorded in a report of a run is between 1 and
    [maxRetries]. *)
Theorem attempts_within_budget
    (getInput : string -> bool -> Error + string)
    (net : nat -> string -> NetEvent) (now : string) (cfg : Config) :
  read_config getInput = inr cfg ->
  0 <= cfg_maxRetries cfg ->
  (forall e st0 r s st,
     loop_head net (cfg_maxRetries cfg) (cfg_retryDelay cfg) e st0 r s st ->
     0 <= r <= cfg_maxRetries cfg /\
     Z.of_nat (requests st)
       = Z.of_nat (requests st0) + r + (if s then 1 else 0) /\
     Z.of_nat (requests st - requests st0) <= cfg_maxRetries cfg) /\
  (forall e st,
     Z.of_nat
       (requests (snd (check net (cfg_maxRetries cfg) (cfg_retryDelay cfg)
                         e st)) - requests st)
     <= cfg_maxRetries cfg) /\
  (forall r a,
     In r (results (final getInput net now)) ->
     attempts_of r = Some a ->
     1 <= a <= cfg_maxRetries cfg).
Proof.
  intros Hcfg Hge. split; [ | split].
  - intros e st0 r s st Hhead. eapply loop_head_invariant; eauto.
  - intros e st.
    destruct (check_log net (cfg_maxRetries cfg) (cfg_retryDelay cfg) e st)
      as (dl & _ & Hreq & _ & _ & Hn).
    rewrite Hreq. lia.
  - intros r a Hin Ha.
    destruct (final_reports getInput net now cfg r Hcfg Hin) as [_ H].
    now apply H.
Qed.

Lemma attempts_within_budget_witness :
  (forall e st0 r s st,
     loop_head b_recovers 3 1 e st0 r s st ->
     0 <= r <= 3 /\
     Z.of_nat (requests st)
       = Z.of_nat (requests st0) + r + (if s then 1 else 0) /\
     Z.of_nat (requests st - requests st0) <= 3) /\
  (forall e st,
     Z.of_nat (requests (snd (check b_recovers 3 1 e st)) - requests st)
     <= 3) /\
  (forall r a,
     In r (results (final (core_getInput two_targets) b_recovers "T")) ->
     attempts_of r = Some a ->
     1 <= a <= 3).
Proof.
  apply (attempts_within_budget (core_getInput two_targets) b_recovers "T"
           two_targets_config).
  - reflexivity.
  - cbn. lia.
Defined.

(* ================================================================== *)
(** ** Failing fast *)
(* ================================================================== *)

Lemma healthy_for_not_unhealthy maxRetries eps dr e msg :
  Forall2 (healthy_for maxRetries) eps dr -> ~ In (Unhealthy e msg) dr.
Proof.
  intros Hdr Hin. apply healthy_for_endpoints in Hdr.
  destruct Hdr as [_ Hall]. rewrite Forall_forall in Hall.
  apply Hall in Hin. discriminate.
Qed.

(** The input [max-retries] set to "-1": the budget is negative. *)
Definition negative_budget : Inputs :=
  mkInputs "production" "https://a.test/health" "-1" "1".

(** C9, as the specification states it, fails: with a negative budget
    the inputs are read, the only target is never probed and has no
    report, healthy or not, and yet the [results] output is set, with an
    empty list. *)
Lemma results_output_without_healthy_reports :
  read_config (core_getInput negative_budget)
    = inr (mkConfig "production" ["https://a.test/health"] (-1) 1) /\
  In (SetOutput "results" "[]")
     (log (final (core_getInput negative_budget)
                 (always (ResponseEnd 200 "ok")) "T")) /\
  results (final (core_getInput negative_budget)
                 (always (ResponseEnd 200 "ok")) "T") = [] /\
  requests (final (core_getInput negative_budget)
                  (always (ResponseEnd 200 "ok")) "T") = 0%nat /\
  ~ (output_set "results"
       (final (core_getInput negative_budget)
              (always (ResponseEnd 200 "ok")) "T") <->
     (map endpoint_of
          (results (final (core_getInput negative_budget)
                          (always (ResponseEnd 200 "ok")) "T"))
        = ["https://a.test/health"] /\
      Forall (fun r => is_healthy r = true)
             (results (final (core_getInput negative_budget)
                             (always (ResponseEnd 200 "ok")) "T")))).
Proof.
  assert (Hset : In (SetOutput "results" "[]")
                    (log (final (core_getInput negative_budget)
                                (always (ResponseEnd 200 "ok")) "T"))).
  { right. right. right. right. left. reflexivity. }
  refine (conj eq_refl (conj Hset (conj eq_refl (conj eq_refl _)))).
  intros [Hall _].
  destruct Hall as [Hmap _]; [eexists; exact Hset | discriminate].
Qed.

(** C9, amended.  In a run whose inputs are read, with a budget of at
    least one attempt: the [results] output is set if and only if
    [results] holds a healthy report for every target, and it is then the
    serialisation of [results]; if [results] holds an unhealthy report,
    then no output at all is set, that report is the last one (the
    earlier ones are healthy), and the last request in the log is the one
    to the URL of its target; and when the loop of a target throws, the
    run ends in the state that loop left, with the failure added to the
    log: the targets after it are never probed. *)
Theorem outputs_iff_every_target_healthy
    (getInput : string -> bool -> Error + string)
    (net : nat -> string -> NetEvent) (now : string) (cfg : Config) :
  read_config getInput = inr cfg ->
  1 <= cfg_maxRetries cfg ->
  (output_set "results" (final getInput net now) <->
   (map endpoint_of (results (final getInput net now)) = cfg_endpoints cfg /\
    Forall (fun r => is_healthy r = true)
           (results (final getInput net now)))) /\
  (forall value,
     In (SetOutput "results" value) (log (final getInput net now)) ->
     value = stringify (results (final getInput net now))) /\
  (forall e msg,
     In (Unhealthy e msg) (results (final getInput net now)) ->
     (forall name, ~ output_set name (final getInput net now)) /\
     (exists before,
        results (final getInput net now)
          = (before ++ [Unhealthy e msg])%list /\
        Forall (fun r => is_healthy r = true) before) /\
     (exists l tail,
        log (final getInput net now)
          = (l ++ HttpsGet (Js.trim e) default_timeout :: tail)%list /\
        forall url t, ~ In (HttpsGet url t) tail)) /\
  (forall pre e post st err st',
     reaches net cfg pre e post st ->
     check net (cfg_maxRetries cfg) (cfg_retryDelay cfg) e st
       = (Thrown err, st') ->
     final getInput net now
       = with_log st' [SetFailed (failed_message (message err))]).
Proof.
  intros Hcfg Hge.
  assert (Hstop : forall pre e post st err st',
     reaches net cfg pre e post st ->
     check net (cfg_maxRetries cfg) (cfg_retryDelay cfg) e st
       = (Thrown err, st') ->
     final getInput net now
       = with_log st' [SetFailed (failed_message (message err))]).
  { intros pre e post st err st' Hreach Hc.
    rewrite (final_after_target getInput net now cfg pre e post st
               Hcfg Hreach), Hc. reflexivity. }
  destruct (final_cases getInput net now)
    as [(e0 & H & _) | [(cfg' & st1 & H & Hall & Hfin)
                       | (cfg' & pre & e0 & post & st1 & err & st2 & H & Heps
                          & Hpre & He & Hfin)]];
    rewrite Hcfg in H; inversion H; subst cfg'.
  - (* every endpoint checked *)
    pose proof Hall as Hok. apply check_all_ok_results in Hok.
    destruct Hok as [(Hle & _) | (_ & dr & Hdr & Hres)]; [lia | ].
    cbn [started results app] in Hres.
    assert (Hresults : results (final getInput net now) = dr).
    { rewrite Hfin. cbn [with_log results]. exact Hres. }
    destruct (checked_log net cfg) as (dl & Hlog & Hev).
    rewrite Hall in Hlog. cbn [snd] in Hlog.
    split; [ | split; [ | split; [ | exact Hstop]]].
    + split.
      * intros _. rewrite Hresults.
        now apply (healthy_for_endpoints (cfg_maxRetries cfg)).
      * intros _. exists (stringify (results st1)). rewrite Hfin.
        cbn [with_log log]. apply in_or_app. right.
        right. right. now left.
    + intros value Hin. rewrite Hfin in Hin. cbn [with_log log] in Hin.
      apply in_app_or in Hin. destruct Hin as [Hin | Hin].
      * rewrite Hlog in Hin. apply (started_quiet _ _ _ Hev) in Hin.
        destruct Hin.
      * rewrite Hfin. cbn [with_log results].
        destruct Hin as [Hin | [Hin | [Hin | []]]]; inversion Hin.
        reflexivity.
    + intros e msg Hin. rewrite Hresults in Hin.
      exfalso. eapply healthy_for_not_unhealthy; eauto.
  - (* the loop of [e0] throws *)
    destruct (check_all_thrown_results _ _ _ _ _ _ _ _ _ Hpre He)
      as (dr & cause & Hdr & _ & Hres).
    cbn [started results app] in Hres.
    assert (Hresults : results (final getInput net now)
                       = (dr ++ [Unhealthy e0 (message cause)])%list).
    { rewrite Hfin. cbn [with_log results]. exact Hres. }
    assert (Hnone : forall name, ~ output_set name (final getInput net now)).
    { destruct (failed_or_outputs getInput net now) as [[_ Hn] | [Hn _]].
      - exact Hn.
      - exfalso. apply Hn. eexists. rewrite Hfin. cbn [with_log log].
        apply in_or_app. right. now left. }
    split; [ | split; [ | split; [ | exact Hstop]]].
    + split.
      * intros Hset. exfalso. eapply Hnone; eauto.
      * intros [_ Hhealthy]. exfalso. rewrite Hresults in Hhealthy.
        apply Forall_app in Hhealthy. destruct Hhealthy as [_ Hlast].
        inversion Hlast; subst. discriminate.
    + intros value Hin. exfalso. apply (Hnone "results"). eexists; eauto.
    + intros e msg Hin. rewrite Hresults in Hin.
      apply in_app_or in Hin. destruct Hin as [Hin | [Hin | []]].
      { exfalso. eapply healthy_for_not_unhealthy; eauto. }
      inversion Hin; subst e msg. clear Hin.
      split; [exact Hnone | split].
      * exists dr. split; [exact Hresults | ].
        apply healthy_for_endpoints in Hdr. tauto.
      * apply check_thrown in He.
        destruct He as (cause' & dl & _ & _ & _ & Hlog & _ & _ & _ & _
                        & l0 & tail & Hdl & Htail).
        exists (log st1 ++ l0)%list,
               (tail ++ [SetFailed (failed_message (message err))])%list.
        split.
        -- rewrite Hfin. cbn [with_log log]. rewrite Hlog, Hdl.
           rewrite <- !app_assoc. reflexivity.
        -- intros url t Hin. apply in_app_or in Hin.
           destruct Hin as [Hin | [Hin | []]]; [ | discriminate].
           eapply gets_zero; eauto.
Qed.

Lemma outputs_iff_every_target_healthy_witness :
  (output_set "results" (final (core_getInput two_targets) b_stays_down "T")
   <->
   (map endpoint_of
        (results (final (core_getInput two_targets) b_stays_down "T"))
      = cfg_endpoints two_targets_config /\
    Forall (fun r => is_healthy r = true)
           (results (final (core_getInput two_targets) b_stays_down "T")))) /\
  (forall value,
     In (SetOutput "results" value)
        (log (final (core_getInput two_targets) b_stays_down "T")) ->
     value
     = stringify (results (final (core_getInput two_targets) b_stays_down "T")))
  /\
  (forall e msg,
     In (Unhealthy e msg)
        (results (final (core_getInput two_targets) b_stays_down "T")) ->
     (forall name,
        ~ output_set name (final (core_getInput two_targets) b_stays_down "T"))
     /\
     (exists before,
        results (final (core_getInput two_targets) b_stays_down "T")
          = (before ++ [Unhealthy e msg])%list /\
        Forall (fun r => is_healthy r = true) before) /\
     (exists l tail,
        log (final (core_getInput two_targets) b_stays_down "T")
          = (l ++ HttpsGet (Js.trim e) default_timeout :: tail)%list /\
        forall url t, ~ In (HttpsGet url t) tail)) /\
  (forall pre e post st err st',
     reaches b_stays_down two_targets_config pre e post st ->
     check b_stays_down 3 1 e st = (Thrown err, st') ->
     final (core_getInput two_targets) b_stays_down "T"
       = with_log st' [SetFailed (failed_message (message err))]).
Proof.
  apply (outputs_iff_every_target_healthy
           (core_getInput two_targets) b_stays_down "T" two_targets_config).
  - reflexivity.
  - cbn. lia.
Defined.

(* ================================================================== *)
(** ** Identifiers and URLs *)
(* ================================================================== *)

Lemma read_config_endpoints getInput cfg raw :
  read_config getInput = inr cfg ->
  getInput "endpoints" true = inr raw ->
  cfg_endpoints cfg = Js.split "," raw.
Proof.
  unfold read_config. intros Hcfg Hraw. rewrite Hraw in Hcfg.
  destruct (getInput "environment" true); [discriminate | ].
  destruct (getInput "max-retries" false); [discriminate | ].
  destruct (getInput "retry-delay" false); [discriminate | ].
  inversion Hcfg. reflexivity.
Qed.

(** Two targets written with spaces around the comma. *)
Definition spaced_targets : Inputs :=
  mkInputs "production" "https://a.test/health , https://b.test/health"
           "3" "1".

Example spaced_targets_run :
  results (final (core_getInput spaced_targets)
                 (always (ResponseEnd 200 "ok")) "T")
    = [Healthy "https://a.test/health " 1;
       Healthy " https://b.test/health" 1] /\
  filter is_get (log (final (core_getInput spaced_targets)
                            (always (ResponseEnd 200 "ok")) "T"))
    = [HttpsGet "https://a.test/health" 5000;
       HttpsGet "https://b.test/health" 5000].
Proof. split; reflexivity. Qed.

(* ================================================================== *)
(** ** The pause between attempts *)
(* ================================================================== *)

(** Every pause of the loop of a target lasts [retryDelay * 1000]
    milliseconds; with [retryDelay = 0] that is no time at all. *)
Lemma pause_is_retryDelay net maxRetries retryDelay e st ms :
  In (Sleep ms) (log (snd (check net maxRetries retryDelay e st))) ->
  In (Sleep ms) (log st) \/ ms = retryDelay * 1000.
Proof.
  destruct (check_log net maxRetries retryDelay e st)
    as (dl & Hlog & _ & Hev & _).
  rewrite Hlog. intros Hin. apply in_app_or in Hin.
  destruct Hin as [Hin | Hin]; [now left | right].
  rewrite Forall_forall in Hev. exact (Hev _ Hin).
Qed.

(** But no input makes [run] work with a delay of zero: [0], like an
    absent or unreadable value, is replaced by 30. *)
Lemma retry_delay_never_zero getInput cfg :
  read_config getInput = inr cfg -> cfg_retryDelay cfg <> 0.
Proof.
  unfold read_config. intros Hcfg.
  destruct (getInput "environment" true); [discriminate | ].
  destruct (getInput "endpoints" true); [discriminate | ].
  destruct (getInput "max-retries" false); [discriminate | ].
  destruct (getInput "retry-delay" false) as [ | raw]; [discriminate | ].
  inversion Hcfg. cbn [cfg_retryDelay].
  unfold Js.or_default. destruct (Js.parseInt raw) as [[ | p | p] | ];
    discriminate.
Qed.

(** One target that never answers, two attempts, and a retry delay
    written as zero. *)
Definition zero_delay : Inputs :=
  mkInputs "production" "https://a.test/health" "2" "0".

(** C5.  With the input [retry-delay] set to "0", the delay [run] works
    with is 30 seconds, and the pause between the two attempts on a
    failing target is 30000 milliseconds, not zero. *)
Theorem zero_retry_delay_input_pauses_30s :
  Js.parseInt "0" = Some 0 /\
  read_config (core_getInput zero_delay)
    = inr (mkConfig "production" ["https://a.test/health"] 2 30) /\
  filter is_sleep
    (log (final (core_getInput zero_delay) (always RequestTimeout) "T"))
    = [Sleep 30000].
Proof. repeat split; reflexivity. Qed.

(* ================================================================== *)
(** ** Further properties of the deployment check *)
(* ================================================================== *)

(** What a report cost in requests: the attempts it records, or the whole
    budget for an unhealthy one. *)
Definition spent (maxRetries : Z) (r : Report) : Z :=
  match r with
  | Healthy _ a => a
  | Unhealthy _ _ => maxRetries
  end.

Definition total_spent (maxRetries : Z) (rs : list Report) : Z :=
  fold_right (fun r acc => spent maxRetries r + acc) 0 rs.

Lemma total_spent_app maxRetries rs1 rs2 :
  total_spent maxRetries (rs1 ++ rs2)
  = total_spent maxRetries rs1 + total_spent maxRetries rs2.
Proof.
  induction rs1 as [ | r rs1 IH]; simpl; [reflexivity | ].
  rewrite IH. lia.
Qed.

Section Accounting.

Variable net : nat -> string -> NetEvent.
Variable maxRetries retryDelay : Z.
Hypothesis budget : 1 <= maxRetries.

(** With a budget of at least one attempt the loop of a target leaves
    exactly one report, whose cost is the number of requests issued, and
    pauses once less than it requests. *)
Lemma check_accounting e st :
  exists dl r,
    log (snd (check net maxRetries retryDelay e st)) = (log st ++ dl)%list /\
    results (snd (check net maxRetries retryDelay e st))
      = (results st ++ [r])%list /\
    requests (snd (check net maxRetries retryDelay e st))
      = (requests st + gets dl)%nat /\
    Z.of_nat (gets dl) = spent maxRetries r /\
    S (sleeps dl) = gets dl.
Proof.
  destruct (check_summary net maxRetries retryDelay e st)
    as (dl & Hlog & Hreq & _ & Hsl & _ & Hend).
  unfold loop_end in Hend.
  destruct Hend as [(_ & Hex & _) | [(_ & _ & Hres & Hone & _ & _)
                                    | (cause & _ & _ & Hres & Hn & _)]].
  - lia.
  - exists dl, (Healthy e (0 + Z.of_nat (gets dl))).
    refine (conj Hlog (conj Hres (conj Hreq (conj _ _)))).
    + cbn [spent]. lia.
    + lia.
  - exists dl, (Unhealthy e (message cause)).
    refine (conj Hlog (conj Hres (conj Hreq (conj _ _)))).
    + cbn [spent]. lia.
    + lia.
Qed.

Lemma check_all_accounting eps : forall st,
  exists dl dr,
    log (snd (check_all net maxRetries retryDelay eps st))
      = (log st ++ dl)%list /\
    results (snd (check_all net maxRetries retryDelay eps st))
      = (results st ++ dr)%list /\
    requests (snd (check_all net maxRetries retryDelay eps st))
      = (requests st + gets dl)%nat /\
    Z.of_nat (gets dl) = total_spent maxRetries dr /\
    (sleeps dl + List.length dr)%nat = gets dl.
Proof.
  induction eps as [ | e eps IH]; intros st.
  - exists [], []. unfold check_all, gets, sleeps. cbn [for_of ret snd].
    rewrite !app_nil_r. cbn. repeat split; try reflexivity. lia.
  - destruct (check_accounting e st)
      as (d1 & r & Hlog1 & Hres1 & Hreq1 & Hsp1 & Hsl1).
    assert (Hstop :
      exists dl dr,
        log (snd (check net maxRetries retryDelay e st))
          = (log st ++ dl)%list /\
        results (snd (check net maxRetries retryDelay e st))
          = (results st ++ dr)%list /\
        requests (snd (check net maxRetries retryDelay e st))
          = (requests st + gets dl)%nat /\
        Z.of_nat (gets dl) = total_spent maxRetries dr /\
        (sleeps dl + List.length dr)%nat = gets dl).
    { exists d1, [r].
      refine (conj Hlog1 (conj Hres1 (conj Hreq1 (conj _ _)))).
      - cbn [total_spent fold_right]. lia.
      - cbn [List.length]. lia. }
    unfold check_all in *. cbn [for_of]. unfold bind.
    destruct (check net maxRetries retryDelay e st) as [res st1].
    cbn [snd] in *.
    destruct res as [[] | err | ]; cbn [snd]; try exact Hstop.
    destruct (IH st1) as (d2 & dr & Hlog2 & Hres2 & Hreq2 & Hsp2 & Hsl2).
    exists (d1 ++ d2)%list, (r :: dr).
    rewrite Hlog2, Hlog1, Hres2, Hres1, Hreq2, Hreq1.
    rewrite <- !app_assoc, gets_app, sleeps_app.
    refine (conj eq_refl (conj eq_refl (conj _ (conj _ _)))).
    + lia.
    + cbn [total_spent fold_right]. fold (total_spent maxRetries dr). lia.
    + cbn [List.length]. lia.
Qed.

End Accounting.

Section Run_end.

Variable getInput : string -> bool -> Error + string.
Variable net : nat -> string -> NetEvent.
Variable now : string.

(** The end of a run whose inputs are read: what the loop over the
    endpoints left, then the outputs or the failure. *)
Lemma final_of_checked cfg :
  read_config getInput = inr cfg ->
  exists tail,
    final getInput net now
      = with_log (snd (check_all net (cfg_maxRetries cfg) (cfg_retryDelay cfg)
                         (cfg_endpoints cfg) (started cfg))) tail /\
    ((exists st1,
        check_all net (cfg_maxRetries cfg) (cfg_retryDelay cfg)
          (cfg_endpoints cfg) (started cfg) = (Ok tt, st1) /\
        tail = outputs now (results st1)) \/
     (exists err st1,
        check_all net (cfg_maxRetries cfg) (cfg_retryDelay cfg)
          (cfg_endpoints cfg) (started cfg) = (Thrown err, st1) /\
        tail = [SetFailed (failed_message (message err))])).
Proof.
  intros Hcfg. unfold final. rewrite run_unfold, Hcfg.
  destruct (check_all_cases net (cfg_maxRetries cfg) (cfg_retryDelay cfg)
              (cfg_endpoints cfg) (started cfg))
    as [(st1 & H) | (pre & e & post & st1 & err & st2 & _ & _ & _ & H)];
    rewrite H; cbn [snd]; eexists; (split; [reflexivity | ]).
  - left. exists st1. auto.
  - right. exists err, st2. auto.
Qed.

End Run_end.

(* ================================================================== *)
(** ** Each target within a run *)
(* ================================================================== *)

Section Reached.

Variable getInput : string -> bool -> Error + string.
Variable net : nat -> string -> NetEvent.
Variable now : string.

(** What the loop of a reached target adds to the log and to the reports
    is part of the log and of the reports of the run. *)
Lemma final_extends_target cfg pre e post st :
  read_config getInput = inr cfg ->
  reaches net cfg pre e post st ->
  exists later more,
    log (final getInput net now)
      = (log (snd (check net (cfg_maxRetries cfg) (cfg_retryDelay cfg) e st))
         ++ later)%list /\
    results (final getInput net now)
      = (results (snd (check net (cfg_maxRetries cfg) (cfg_retryDelay cfg)
                         e st)) ++ more)%list.
Proof.
  intros Hcfg Hreach.
  rewrite (final_after_target getInput net now cfg pre e post st Hcfg Hreach).
  destruct (check net (cfg_maxRetries cfg) (cfg_retryDelay cfg) e st)
    as [[[] | err | ] st1]; cbn [snd].
  - destruct (check_all_log net (cfg_maxRetries cfg) (cfg_retryDelay cfg)
                post st1) as (dl & Hlog & _).
    destruct (check_all_results_grow net (cfg_maxRetries cfg)
                (cfg_retryDelay cfg) post st1) as (dr & Hres).
    destruct (check_all net (cfg_maxRetries cfg) (cfg_retryDelay cfg)
                post st1) as [[[] | err | ] st2]; cbn [snd] in Hlog, Hres;
      cbn [with_log log results]; rewrite ?Hlog, ?Hres, <- ?app_assoc;
      eauto.
  - exists [SetFailed (failed_message (message err))], [].
    cbn [with_log log results]. rewrite app_nil_r. auto.
  - exists [], []. rewrite !app_nil_r. auto.
Qed.

End Reached.

(** [split] always yields at least one piece, so a run whose inputs are
    read always reaches its first target, in the state where the loop
    over the endpoints starts. *)
Lemma split_cons c s : exists p ps, Js.split c s = p :: ps.
Proof.
  destruct s as [ | a s]; cbn [Js.split]; [eauto | ].
  destruct (Ascii.eqb a c); [eauto | ].
  destruct (Js.split c s); eauto.
Qed.

Lemma first_target_reached getInput net cfg :
  read_config getInput = inr cfg ->
  exists e post,
    cfg_endpoints cfg = e :: post /\
    reaches net cfg [] e post (started cfg).
Proof.
  intros Hcfg.
  assert (Hraw : exists raw, getInput "endpoints" true = inr raw).
  { unfold read_config in Hcfg.
    destruct (getInput "environment" true); [discriminate | ].
    destruct (getInput "endpoints" true); [discriminate | eauto]. }
  destruct Hraw as [raw Hraw].
  pose proof (read_config_endpoints getInput cfg raw Hcfg Hraw) as Heps.
  destruct (split_cons "," raw) as (e & post & Hsplit).
  exists e, post. rewrite Heps.
  split; [exact Hsplit | ]. split; [rewrite Heps; exact Hsplit | reflexivity].
Qed.

Lemma single_get dl (e : string) retryDelay :
  Forall (loop_event retryDelay e) dl ->
  (1 <= gets dl)%nat ->
  In (HttpsGet (Js.trim e) default_timeout) dl /\
  (gets dl = 1%nat ->
   filter is_get dl = [HttpsGet (Js.trim e) default_timeout]).
Proof.
  intros Hev Hone.
  assert (Hall : forall ev, In ev (filter is_get dl) ->
                            ev = HttpsGet (Js.trim e) default_timeout).
  { intros ev Hin. apply filter_In in Hin. destruct Hin as [Hin Hget].
    rewrite Forall_forall in Hev. specialize (Hev _ Hin).
    destruct ev; try discriminate. cbn in Hev. destruct Hev as [-> ->].
    reflexivity. }
  unfold gets in *. destruct (filter is_get dl) as [ | ev l] eqn:Hf.
  - cbn in Hone. lia.
  - pose proof (Hall ev (or_introl eq_refl)) as ->. split.
    + assert (Hin : In (HttpsGet (Js.trim e) default_timeout)
                       (filter is_get dl)) by (rewrite Hf; now left).
      apply filter_In in Hin. tauto.
    + intros Hl. destruct l; [reflexivity | discriminate].
Qed.

(** With a budget of at least one attempt, the loop of a target requests
    its trimmed URL at least once, requests nothing else, and leaves one
    report, under the target as it stands. *)
Lemma check_report net maxRetries retryDelay e st :
  1 <= maxRetries ->
  exists dl r,
    log (snd (check net maxRetries retryDelay e st)) = (log st ++ dl)%list /\
    results (snd (check net maxRetries retryDelay e st))
      = (results st ++ [r])%list /\
    requests (snd (check net maxRetries retryDelay e st))
      = (requests st + gets dl)%nat /\
    endpoint_of r = e /\
    Forall (loop_event retryDelay e) dl /\
    (1 <= gets dl)%nat /\ Z.of_nat (gets dl) <= maxRetries /\
    S (sleeps dl) = gets dl.
Proof.
  intros Hge.
  destruct (check_summary net maxRetries retryDelay e st)
    as (dl & Hlog & Hreq & Hev & Hsl & _ & Hend).
  unfold loop_end in Hend.
  destruct Hend as [(_ & Hex & _) | [(_ & _ & Hres & Hone & Hle & _)
                                    | (cause & _ & _ & Hres & Hn & _)]].
  - lia.
  - exists dl, (Healthy e (0 + Z.of_nat (gets dl))).
    refine (conj Hlog (conj Hres (conj Hreq (conj eq_refl (conj Hev _))))).
    lia.
  - exists dl, (Unhealthy e (message cause)).
    refine (conj Hlog (conj Hres (conj Hreq (conj eq_refl (conj Hev _))))).
    lia.
Qed.

(** With a budget that is not positive, the loop of a target does
    nothing. *)
Lemma check_idle net maxRetries retryDelay e st :
  maxRetries <= 0 ->
  snd (check net maxRetries retryDelay e st) = st.
Proof.
  intros Hle.
  destruct (check_summary net maxRetries retryDelay e st)
    as (dl & Hlog & Hreq & _ & _ & _ & Hend).
  unfold loop_end in Hend.
  destruct Hend as [(_ & _ & Hdl & Hres) | [(_ & Hlt & _)
                                           | (cause & _ & Hlt & _)]];
    try lia.
  subst dl. rewrite app_nil_r in Hlog. unfold gets in Hreq. cbn in Hreq.
  destruct (snd (check net maxRetries retryDelay e st)), st; cbn in *.
  f_equal; auto. lia.
Qed.



(** C10.  The targets are the pieces of the [endpoints] input between
    commas, and the first piece is always reached.  For every piece a
    run reaches, the loop of that piece requests only the trimmed piece
    and reports only under the piece as it stands, white space included,
    and what it logs and reports is part of the log and of the reports of
    the run; with a budget of at least one attempt it does request the
    trimmed piece and leaves exactly one report, the one at the position
    of the piece in [results]; with a budget that is not positive it does
    nothing.  Over the whole run, the identifiers of the reports are, in
    order, the first pieces, and every URL requested is the trimmed form
    of a piece. *)
Theorem reports_keep_the_untrimmed_piece
    (getInput : string -> bool -> Error + string)
    (net : nat -> string -> NetEvent) (now : string) (cfg : Config)
    (raw : string) :
  read_config getInput = inr cfg ->
  getInput "endpoints" true = inr raw ->
  cfg_endpoints cfg = Js.split "," raw /\
  (exists e post,
     Js.split "," raw = e :: post /\
     reaches net cfg [] e post (started cfg)) /\
  (forall pre e post st,
     reaches net cfg pre e post st ->
     nth_error (Js.split "," raw) (List.length pre) = Some e /\
     exists dl dr later more,
       log (snd (check net (cfg_maxRetries cfg) (cfg_retryDelay cfg) e st))
         = (log st ++ dl)%list /\
       results (snd (check net (cfg_maxRetries cfg) (cfg_retryDelay cfg)
                       e st)) = (results st ++ dr)%list /\
       log (final getInput net now) = (log st ++ dl ++ later)%list /\
       results (final getInput net now)
         = (results st ++ dr ++ more)%list /\
       (forall url t, In (HttpsGet url t) dl -> url = Js.trim e) /\
       (forall r, In r dr -> endpoint_of r = e) /\
       ((cfg_maxRetries cfg <= 0 /\ dl = [] /\ dr = []) \/
        (1 <= cfg_maxRetries cfg /\
         In (HttpsGet (Js.trim e) default_timeout) dl /\
         exists r,
           dr = [r] /\ endpoint_of r = e /\
           nth_error (results (final getInput net now)) (List.length pre)
             = Some r))) /\
  (exists rest,
     Js.split "," raw =
     (map endpoint_of (results (final getInput net now)) ++ rest)%list) /\
  (forall url t,
     In (HttpsGet url t) (log (final getInput net now)) ->
     exists piece, In piece (Js.split "," raw) /\ url = Js.trim piece).
Proof.
  intros Hcfg Hraw.
  pose proof (read_config_endpoints getInput cfg raw Hcfg Hraw) as Heps.
  split; [exact Heps | split; [ | split; [ | split]]].
  - rewrite <- Heps. now apply first_target_reached with (getInput := getInput).
  - intros pre e post st Hreach.
    split.
    { destruct Hreach as [Hpieces _]. rewrite <- Heps, Hpieces.
      rewrite nth_error_app2 by lia. rewrite Nat.sub_diag. reflexivity. }
    destruct (final_extends_target getInput net now cfg pre e post st
                Hcfg Hreach) as (later & more & Hflog & Hfres).
    destruct (Z_le_gt_dec (cfg_maxRetries cfg) 0) as [Hle | Hgt].
    + pose proof (check_idle net (cfg_maxRetries cfg) (cfg_retryDelay cfg)
                    e st Hle) as Hidle.
      rewrite Hidle in *.
      exists [], [], later, more. rewrite !app_nil_r. cbn [app].
      refine (conj eq_refl (conj eq_refl (conj Hflog (conj Hfres
                (conj _ (conj _ _)))))).
      * intros url t [].
      * intros r [].
      * left. auto.
    + assert (Hge : 1 <= cfg_maxRetries cfg) by lia.
      destruct (check_report net (cfg_maxRetries cfg) (cfg_retryDelay cfg)
                  e st Hge)
        as (dl & r & Hlog & Hres & _ & Hr & Hev & H1 & _ & _).
      destruct (single_get dl e (cfg_retryDelay cfg) Hev H1) as [Hin _].
      exists dl, [r], later, more.
      refine (conj Hlog (conj Hres (conj _ (conj _ (conj _ (conj _ _)))))).
      * rewrite Hflog, Hlog, <- app_assoc. reflexivity.
      * rewrite Hfres, Hres, <- app_assoc. reflexivity.
      * intros url t Hget. rewrite Forall_forall in Hev.
        exact (proj1 (Hev _ Hget)).
      * intros r' [<- | []]. exact Hr.
      * right. refine (conj Hge (conj Hin _)).
        exists r. refine (conj eq_refl (conj Hr _)).
        rewrite Hfres, Hres. apply nth_error_snoc.
        eapply reaches_reports; eauto.
  - rewrite <- Heps. now apply reports_prefix_of_targets.
  - intros url t Hin.
    destruct (final_log getInput net now cfg Hcfg)
      as (dl & tail & Hlog & _ & Hev & _ & _ & _ & Htail).
    rewrite Hlog in Hin. cbn [started log] in Hin.
    apply in_app_or in Hin. destruct Hin as [Hin | Hin].
    + destruct Hin as [Hin | [Hin | []]]; discriminate.
    + apply in_app_or in Hin. destruct Hin as [Hin | Hin].
      * rewrite Forall_forall in Hev.
        destruct (Hev _ Hin) as (e & He & Hurl & _).
        exists e. rewrite <- Heps. auto.
      * destruct Htail as [-> | [msg ->]].
        -- destruct Hin as [Hin | [Hin | [Hin | []]]]; discriminate.
        -- destruct Hin as [Hin | []]. discriminate.
Qed.

Definition spaced_targets_config : Config :=
  mkConfig "production"
    ["https://a.test/health "; " https://b.test/health"] 3 1.

Lemma reports_keep_the_untrimmed_piece_witness :
  cfg_endpoints spaced_targets_config
    = Js.split "," "https://a.test/health , https://b.test/health" /\
  (exists e post,
     Js.split "," "https://a.test/health , https://b.test/health"
       = e :: post /\
     reaches (always (ResponseEnd 200 "ok")) spaced_targets_config [] e post
       (started spaced_targets_config)) /\
  (forall pre e post st,
     reaches (always (ResponseEnd 200 "ok")) spaced_targets_config
       pre e post st ->
     nth_error (Js.split "," "https://a.test/health , https://b.test/health")
       (List.length pre) = Some e /\
     exists dl dr later more,
       log (snd (check (always (ResponseEnd 200 "ok")) 3 1 e st))
         = (log st ++ dl)%list /\
       results (snd (check (always (ResponseEnd 200 "ok")) 3 1 e st))
         = (results st ++ dr)%list /\
       log (final (core_getInput spaced_targets)
                  (always (ResponseEnd 200 "ok")) "T")
         = (log st ++ dl ++ later)%list /\
       results (final (core_getInput spaced_targets)
                      (always (ResponseEnd 200 "ok")) "T")
         = (results st ++ dr ++ more)%list /\
       (forall url t, In (HttpsGet url t) dl -> url = Js.trim e) /\
       (forall r, In r dr -> endpoint_of r = e) /\
       ((3 <= 0 /\ dl = [] /\ dr = []) \/
        (1 <= 3 /\
         In (HttpsGet (Js.trim e) default_timeout) dl /\
         exists r,
           dr = [r] /\ endpoint_of r = e /\
           nth_error (results (final (core_getInput spaced_targets)
                                     (always (ResponseEnd 200 "ok")) "T"))
                     (List.length pre)
             = Some r))) /\
  (exists rest,
     Js.split "," "https://a.test/health , https://b.test/health" =
     (map endpoint_of
          (results (final (core_getInput spaced_targets)
                          (always (ResponseEnd 200 "ok")) "T")) ++ rest)%list)
  /\
  (forall url t,
     In (HttpsGet url t)
        (log (final (core_getInput spaced_targets)
                    (always (ResponseEnd 200 "ok")) "T")) ->
     exists piece,
       In piece (Js.split "," "https://a.test/health , https://b.test/health")
       /\ url = Js.trim piece).
Proof.
  apply (reports_keep_the_untrimmed_piece
           (core_getInput spaced_targets) (always (ResponseEnd 200 "ok")) "T"
           spaced_targets_config).
  - reflexivity.
  - reflexivity.
Defined.

(** X1.  If one of the four inputs cannot be read (a required one is not
    supplied), the run is marked as failed with the message of that error
    after the fixed prefix, and that is all it does: nothing is
    requested, nothing is reported, no output is set. *)
Theorem unreadable_input_fails_before_probing
    (getInput : string -> bool -> Error + string)
    (net : nat -> string -> NetEvent) (now : string) (e : Error) :
  read_config getInput = inl e ->
  log (final getInput net now)
    = [SetFailed ("Deployment check failed: " ++ message e)] /\
  results (final getInput net now) = [] /\
  requests (final getInput net now) = 0%nat.
Proof.
  intros Hcfg.
  destruct (final_cases getInput net now)
    as [(e' & H & ->) | [(cfg & st1 & H & _)
                        | (cfg & pre & e0 & post & st1 & err & st2 & H & _)]];
    rewrite Hcfg in H; inversion H; subst.
  repeat split; reflexivity.
Qed.

Lemma unreadable_input_fails_before_probing_witness :
  log (final (core_getInput (mkInputs "production" EmptyString "3" "1"))
             (always (ResponseEnd 200 "ok")) "T")
    = [SetFailed ("Deployment check failed: " ++
                  "Input required and not supplied: endpoints")] /\
  results (final (core_getInput (mkInputs "production" EmptyString "3" "1"))
                 (always (ResponseEnd 200 "ok")) "T") = [] /\
  requests (final (core_getInput (mkInputs "production" EmptyString "3" "1"))
                  (always (ResponseEnd 200 "ok")) "T") = 0%nat.
Proof.
  apply (unreadable_input_fails_before_probing
           (core_getInput (mkInputs "production" EmptyString "3" "1"))
           (always (ResponseEnd 200 "ok")) "T"
           (mkError "Input required and not supplied: endpoints")).
  reflexivity.
Defined.

Lemma or_default_nonzero n d : d <> 0 -> Js.or_default n d <> 0.
Proof.
  intros Hd. unfold Js.or_default.
  destruct n as [[ | p | p] | ]; auto; discriminate.
Qed.

(** X2.  Whatever the inputs [max-retries] and [retry-delay] hold, the
    budget and the delay [run] works with are never zero; when the inputs
    are not supplied (empty) they are 5 and 30; and an input that
    [parseInt] reads as a non-zero integer is taken as it is, negative
    values included. *)
Theorem budget_and_delay_defaults
    (getInput : string -> bool -> Error + string) (cfg : Config)
    (max_retries retry_delay : string) :
  read_config getInput = inr cfg ->
  getInput "max-retries" false = inr max_retries ->
  getInput "retry-delay" false = inr retry_delay ->
  cfg_maxRetries cfg <> 0 /\
  cfg_retryDelay cfg <> 0 /\
  (max_retries = EmptyString -> cfg_maxRetries cfg = 5) /\
  (retry_delay = EmptyString -> cfg_retryDelay cfg = 30) /\
  (forall n, Js.parseInt max_retries = Some n -> n <> 0 ->
             cfg_maxRetries cfg = n) /\
  (forall n, Js.parseInt retry_delay = Some n -> n <> 0 ->
             cfg_retryDelay cfg = n).
Proof.
  unfold read_config. intros Hcfg Hmr Hrd. rewrite Hmr, Hrd in Hcfg.
  destruct (getInput "environment" true); [discriminate | ].
  destruct (getInput "endpoints" true); [discriminate | ].
  inversion Hcfg. cbn [cfg_maxRetries cfg_retryDelay].
  split; [apply or_default_nonzero; discriminate | ].
  split; [apply or_default_nonzero; discriminate | ].
  split; [intros ->; reflexivity | ].
  split; [intros ->; reflexivity | ].
  split; intros n -> Hn; destruct n; try reflexivity; congruence.
Qed.

Lemma budget_and_delay_defaults_witness :
  cfg_maxRetries (mkConfig "production" ["https://a.test/health"] (-2) 30)
    <> 0 /\
  cfg_retryDelay (mkConfig "production" ["https://a.test/health"] (-2) 30)
    <> 0 /\
  (" -2x" = EmptyString ->
   cfg_maxRetries (mkConfig "production" ["https://a.test/health"] (-2) 30)
   = 5) /\
  (EmptyString = EmptyString ->
   cfg_retryDelay (mkConfig "production" ["https://a.test/health"] (-2) 30)
   = 30) /\
  (forall n, Js.parseInt " -2x" = Some n -> n <> 0 ->
     cfg_maxRetries (mkConfig "production" ["https://a.test/health"] (-2) 30)
     = n) /\
  (forall n, Js.parseInt EmptyString = Some n -> n <> 0 ->
     cfg_retryDelay (mkConfig "production" ["https://a.test/health"] (-2) 30)
     = n).
Proof.
  apply (budget_and_delay_defaults
           (fun name required =>
              if String.eqb name "max-retries" then inr " -2x"
              else if String.eqb name "retry-delay" then inr EmptyString
              else if String.eqb name "endpoints"
                   then inr "https://a.test/health"
                   else inr "production")).
  - reflexivity.
  - reflexivity.
  - reflexivity.
Defined.

(** X3.  With a negative budget no target is probed: nothing is
    requested, [results] stays empty, and the run all the same sets its
    outputs, with status "success" and an empty list, without being
    marked as failed. *)
Theorem negative_budget_reports_success_unprobed
    (getInput : string -> bool -> Error + string)
    (net : nat -> string -> NetEvent) (now : string) (cfg : Config) :
  read_config getInput = inr cfg ->
  cfg_maxRetries cfg < 0 ->
  requests (final getInput net now) = 0%nat /\
  results (final getInput net now) = [] /\
  log (final getInput net now)
    = (log (started cfg) ++
       [SetOutput "status" "success"; SetOutput "timestamp" now;
        SetOutput "results" "[]"])%list /\
  ~ failed (final getInput net now).
Proof.
  intros Hcfg Hneg.
  assert (Hfin : final getInput net now
                 = with_log (started cfg) (outputs now [])).
  { destruct (final_cases getInput net now)
      as [(e' & H & _) | [(cfg' & st1 & H & Hall & Hfin)
                         | (cfg' & pre & e0 & post & st1 & err & st2 & H & _
                            & _ & He & _)]];
      rewrite Hcfg in H; inversion H; subst cfg'.
    - apply check_all_ok_results in Hall.
      destruct Hall as [(_ & ->) | (Hge & _)]; [exact Hfin | lia].
    - apply check_thrown in He. destruct He as (c & dl & _ & Hge & _). lia. }
  rewrite Hfin. cbn [with_log started results requests log outputs].
  refine (conj eq_refl (conj eq_refl (conj eq_refl _))).
  intros [msg Hin]. cbn in Hin.
  repeat (destruct Hin as [Hin | Hin]; [discriminate | ]). exact Hin.
Qed.

Lemma negative_budget_reports_success_unprobed_witness :
  requests (final (core_getInput
                     (mkInputs "production" "https://a.test/health" "-1" "1"))
                  (always RequestTimeout) "T") = 0%nat /\
  results (final (core_getInput
                    (mkInputs "production" "https://a.test/health" "-1" "1"))
                 (always RequestTimeout) "T") = [] /\
  log (final (core_getInput
                (mkInputs "production" "https://a.test/health" "-1" "1"))
             (always RequestTimeout) "T")
    = (log (started (mkConfig "production" ["https://a.test/health"] (-1) 1))
       ++ [SetOutput "status" "success"; SetOutput "timestamp" "T";
           SetOutput "results" "[]"])%list /\
  ~ failed (final (core_getInput
                     (mkInputs "production" "https://a.test/health" "-1" "1"))
                  (always RequestTimeout) "T").
Proof.
  apply (negative_budget_reports_success_unprobed
           (core_getInput
              (mkInputs "production" "https://a.test/health" "-1" "1"))
           (always RequestTimeout) "T"
           (mkConfig "production" ["https://a.test/health"] (-1) 1)).
  - reflexivity.
  - reflexivity.
Defined.

Lemma gets_outputs now rs : gets (outputs now rs) = 0%nat.
Proof. reflexivity. Qed.

Lemma sleeps_outputs now rs : sleeps (outputs now rs) = 0%nat.
Proof. reflexivity. Qed.

(** X4.  With a budget of at least one attempt, the requests of a run
    are accounted for by its reports: their number is the sum, over the
    reports, of the attempts a healthy report records and of the whole
    budget for an unhealthy one; and every one of them is in the log. *)
Theorem requests_accounted_by_reports
    (getInput : string -> bool -> Error + string)
    (net : nat -> string -> NetEvent) (now : string) (cfg : Config) :
  read_config getInput = inr cfg ->
  1 <= cfg_maxRetries cfg ->
  Z.of_nat (requests (final getInput net now))
    = total_spent (cfg_maxRetries cfg) (results (final getInput net now)) /\
  gets (log (final getInput net now)) = requests (final getInput net now).
Proof.
  intros Hcfg Hge.
  destruct (final_of_checked getInput net now cfg Hcfg) as (tail & Hfin & Ht).
  destruct (check_all_accounting net (cfg_maxRetries cfg) (cfg_retryDelay cfg)
              Hge (cfg_endpoints cfg) (started cfg))
    as (dl & dr & Hlog & Hres & Hreq & Hsp & _).
  rewrite Hfin. cbn [with_log results log requests].
  rewrite Hres, Hreq, Hlog. cbn [started results requests log app Nat.add].
  rewrite Hsp. split; [reflexivity | ].
  change (gets ([Info ("Starting deployment check for " ++
                        cfg_environment cfg ++ " environment");
                 Info ("Checking endpoints: " ++
                        Js.join ", " (cfg_endpoints cfg))] ++ dl ++ tail)
          = gets dl).
  rewrite !gets_app.
  assert (Htail : gets tail = 0%nat).
  { destruct Ht as [(st1 & _ & ->) | (err & st1 & _ & ->)]; reflexivity. }
  rewrite Htail. unfold gets at 1. cbn. lia.
Qed.

Lemma requests_accounted_by_reports_witness :
  Z.of_nat (requests (final (core_getInput two_targets) b_stays_down "T"))
    = total_spent 3
        (results (final (core_getInput two_targets) b_stays_down "T")) /\
  gets (log (final (core_getInput two_targets) b_stays_down "T"))
    = requests (final (core_getInput two_targets) b_stays_down "T").
Proof.
  apply (requests_accounted_by_reports
           (core_getInput two_targets) b_stays_down "T" two_targets_config).
  - reflexivity.
  - cbn. lia.
Defined.

(** X5.  With a budget of at least one attempt, a run pauses after every
    request except the last one of each target it reports on: the pauses
    and the reports together number the requests.  Every pause lasts
    [retryDelay * 1000] milliseconds. *)
Theorem pauses_accounted_by_requests
    (getInput : string -> bool -> Error + string)
    (net : nat -> string -> NetEvent) (now : string) (cfg : Config) :
  read_config getInput = inr cfg ->
  1 <= cfg_maxRetries cfg ->
  (sleeps (log (final getInput net now))
   + List.length (results (final getInput net now)))%nat
    = requests (final getInput net now) /\
  (forall ms, In (Sleep ms) (log (final getInput net now)) ->
              ms = cfg_retryDelay cfg * 1000).
Proof.
  intros Hcfg Hge. split.
  - destruct (final_of_checked getInput net now cfg Hcfg)
      as (tail & Hfin & Ht).
    destruct (check_all_accounting net (cfg_maxRetries cfg)
                (cfg_retryDelay cfg) Hge (cfg_endpoints cfg) (started cfg))
      as (dl & dr & Hlog & Hres & Hreq & _ & Hsl).
    rewrite Hfin. cbn [with_log results log requests].
    rewrite Hres, Hreq, Hlog. cbn [started results requests log app Nat.add].
    change (sleeps ([Info ("Starting deployment check for " ++
                            cfg_environment cfg ++ " environment");
                     Info ("Checking endpoints: " ++
                            Js.join ", " (cfg_endpoints cfg))] ++ dl ++ tail)
            + List.length dr = gets dl)%nat.
    rewrite !sleeps_app.
    assert (Htail : sleeps tail = 0%nat).
    { destruct Ht as [(st1 & _ & ->) | (err & st1 & _ & ->)]; reflexivity. }
    rewrite Htail. unfold sleeps at 1. cbn. lia.
  - intros ms Hin.
    destruct (final_log getInput net now cfg Hcfg)
      as (dl & tail & Hlog & _ & Hev & _ & _ & _ & Htail).
    rewrite Hlog in Hin. cbn [started log] in Hin.
    apply in_app_or in Hin. destruct Hin as [Hin | Hin].
    + destruct Hin as [Hin | [Hin | []]]; discriminate.
    + apply in_app_or in Hin. destruct Hin as [Hin | Hin].
      * rewrite Forall_forall in Hev.
        destruct (Hev _ Hin) as (e & _ & Hms). exact Hms.
      * destruct Htail as [-> | [msg ->]].
        -- destruct Hin as [Hin | [Hin | [Hin | []]]]; discriminate.
        -- destruct Hin as [Hin | []]. discriminate.
Qed.

Lemma pauses_accounted_by_requests_witness :
  (sleeps (log (final (core_getInput two_targets) b_recovers "T"))
   + List.length (results (final (core_getInput two_targets) b_recovers "T")))
    %nat
    = requests (final (core_getInput two_targets) b_recovers "T") /\
  (forall ms,
     In (Sleep ms) (log (final (core_getInput two_targets) b_recovers "T")) ->
     ms = 1 * 1000).
Proof.
  apply (pauses_accounted_by_requests
           (core_getInput two_targets) b_recovers "T" two_targets_config).
  - reflexivity.
  - cbn. lia.
Defined.

(** X6.  Whatever the inputs and the network, every request of a run is
    issued with the default timeout of 5000 milliseconds: no input
    changes it. *)
Theorem every_request_uses_the_default_timeout
    (getInput : string -> bool -> Error + string)
    (net : nat -> string -> NetEvent) (now : string)
    (url : string) (timeout : Z) :
  In (HttpsGet url timeout) (log (final getInput net now)) ->
  timeout = 5000.
Proof.
  intros Hin.
  destruct (read_config getInput) as [e | cfg] eqn:Hcfg.
  - destruct (final_cases getInput net now)
      as [(e' & _ & Hfin) | [(cfg & st1 & H & _)
                            | (cfg & pre & e0 & post & st1 & err & st2 & H
                               & _)]];
      try (rewrite Hcfg in H; discriminate).
    rewrite Hfin in Hin. destruct Hin as [Hin | []]. discriminate.
  - destruct (final_log getInput net now cfg Hcfg)
      as (dl & tail & Hlog & _ & Hev & _ & _ & _ & Htail).
    rewrite Hlog in Hin. cbn [started log] in Hin.
    apply in_app_or in Hin. destruct Hin as [Hin | Hin].
    + destruct Hin as [Hin | [Hin | []]]; discriminate.
    + apply in_app_or in Hin. destruct Hin as [Hin | Hin].
      * rewrite Forall_forall in Hev.
        destruct (Hev _ Hin) as (e & _ & _ & Ht). exact Ht.
      * destruct Htail as [-> | [msg ->]].
        -- destruct Hin as [Hin | [Hin | [Hin | []]]]; discriminate.
        -- destruct Hin as [Hin | []]. discriminate.
Qed.

Lemma every_request_uses_the_default_timeout_witness : 5000 = 5000.
Proof.
  apply (every_request_uses_the_default_timeout
           (core_getInput two_targets) b_recovers "T"
           "https://a.test/health" 5000).
  vm_compute. right. right. right. now left.
Defined.

(** Neither an output nor a failure. *)
Definition quiet (l : list Event) : Prop :=
  forall ev, In ev l ->
    match ev with
    | SetOutput _ _ => False
    | SetFailed _ => False
    | _ => True
    end.

(** X7.  Every run ends in one of two ways, whatever the inputs and the
    network: its last event is the one [SetFailed] of the log, and no
    output is set; or its last three events are the outputs [status],
    [timestamp] and [results], in this order, the last one being the
    serialisation of [results], and the run is not marked as failed. *)
Theorem run_ends_failed_or_with_outputs
    (getInput : string -> bool -> Error + string)
    (net : nat -> string -> NetEvent) (now : string) :
  (exists l msg,
     log (final getInput net now) = (l ++ [SetFailed msg])%list /\ quiet l)
  \/
  (exists l,
     log (final getInput net now)
       = (l ++ [SetOutput "status" "success"; SetOutput "timestamp" now;
                SetOutput "results"
                  (stringify (results (final getInput net now)))])%list /\
     quiet l).
Proof.
  destruct (read_config getInput) as [e | cfg] eqn:Hcfg.
  - left.
    destruct (final_cases getInput net now)
      as [(e' & _ & Hfin) | [(cfg & st1 & H & _)
                            | (cfg & pre & e0 & post & st1 & err & st2 & H
                               & _)]];
      try (rewrite Hcfg in H; discriminate).
    exists [], (failed_message (message e')). rewrite Hfin.
    split; [reflexivity | intros ev []].
  - destruct (final_of_checked getInput net now cfg Hcfg)
      as (tail & Hfin & Ht).
    destruct (checked_log net cfg) as (dl & Hlog & Hev).
    assert (Hquiet : quiet (log (started cfg) ++ dl)).
    { intros ev Hin. apply (started_quiet cfg dl ev Hev) in Hin.
      destruct ev; auto. }
    rewrite Hfin. cbn [with_log log results]. rewrite Hlog.
    destruct Ht as [(st1 & Hall & ->) | (err & st1 & Hall & ->)];
      rewrite Hall; cbn [snd].
    + right. eexists. split; [reflexivity | exact Hquiet].
    + left. do 2 eexists. split; [reflexivity | exact Hquiet].
Qed.

(** Number of occurrences of a character in a string. *)
Fixpoint occurrences (c : ascii) (s : string) : nat :=
  match s with
  | EmptyString => 0%nat
  | String a rest =>
      ((if Ascii.eqb a c then 1 else 0) + occurrences c rest)%nat
  end.

Lemma split_length c s :
  List.length (Js.split c s) = S (occurrences c s).
Proof.
  induction s as [ | a s IH]; cbn [Js.split occurrences].
  - reflexivity.
  - destruct (Ascii.eqb a c).
    + cbn [List.length]. rewrite IH. reflexivity.
    + destruct (Js.split c s) as [ | piece pieces]; [discriminate | ].
      cbn [List.length] in *. lia.
Qed.

Lemma total_spent_positive maxRetries rs :
  Forall (fun r => 1 <= spent maxRetries r) rs ->
  rs <> [] ->
  1 <= total_spent maxRetries rs.
Proof.
  intros Hall Hne.
  assert (Hnonneg : forall l, Forall (fun r => 1 <= spent maxRetries r) l ->
                              0 <= total_spent maxRetries l).
  { induction 1 as [ | r l Hr _ IH]; cbn [total_spent fold_right];
      [lia | ]. fold (total_spent maxRetries l). lia. }
  destruct Hall as [ | r l Hr Hl]; [contradiction | ].
  cbn [total_spent fold_right]. fold (total_spent maxRetries l).
  specialize (Hnonneg l Hl). lia.
Qed.

(** X8.  The targets are one more than the commas of the [endpoints]
    input, so there is always at least one, be it the empty string; and
    with a budget of at least one attempt a run always issues at least
    one request and holds at least one report. *)
Theorem at_least_one_target_is_probed
    (getInput : string -> bool -> Error + string)
    (net : nat -> string -> NetEvent) (now : string) (cfg : Config)
    (raw : string) :
  read_config getInput = inr cfg ->
  getInput "endpoints" true = inr raw ->
  1 <= cfg_maxRetries cfg ->
  List.length (cfg_endpoints cfg) = S (occurrences "," raw) /\
  results (final getInput net now) <> [] /\
  (1 <= requests (final getInput net now))%nat.
Proof.
  intros Hcfg Hraw Hge.
  pose proof (read_config_endpoints getInput cfg raw Hcfg Hraw) as Heps.
  split; [rewrite Heps; apply split_length | ].
  assert (Hne : results (final getInput net now) <> []).
  { destruct (final_cases getInput net now)
      as [(e' & H & _) | [(cfg' & st1 & H & Hall & Hfin)
                         | (cfg' & pre & e0 & post & st1 & err & st2 & H & _
                            & Hpre & He & Hfin)]];
      rewrite Hcfg in H; inversion H; subst cfg'; rewrite Hfin;
      cbn [with_log results].
    - apply check_all_ok_results in Hall.
      destruct Hall as [(Hle & _) | (_ & dr & Hdr & ->)]; [lia | ].
      cbn [started results app]. intros ->. inversion Hdr as [Hnil | ].
      pose proof (split_length "," raw) as Hlen.
      rewrite <- Heps, <- Hnil in Hlen. discriminate.
    - destruct (check_all_thrown_results _ _ _ _ _ _ _ _ _ Hpre He)
        as (dr & cause & _ & _ & ->).
      cbn [started results app]. intros Hnil.
      apply app_eq_nil in Hnil. destruct Hnil as [_ Hnil]. discriminate. }
  split; [exact Hne | ].
  destruct (final_of_checked getInput net now cfg Hcfg) as (tail & Hfin & _).
  destruct (check_all_accounting net (cfg_maxRetries cfg) (cfg_retryDelay cfg)
              Hge (cfg_endpoints cfg) (started cfg))
    as (dl & dr & _ & Hres & Hreq & Hsp & _).
  assert (Hresults : results (final getInput net now) = dr).
  { rewrite Hfin. cbn [with_log results]. rewrite Hres. reflexivity. }
  assert (Hrequests : requests (final getInput net now) = gets dl).
  { rewrite Hfin. cbn [with_log requests]. rewrite Hreq. reflexivity. }
  rewrite Hrequests.
  assert (1 <= total_spent (cfg_maxRetries cfg) dr); [ | lia].
  apply total_spent_positive; [ | rewrite <- Hresults; exact Hne].
  apply Forall_forall. intros r Hin. rewrite <- Hresults in Hin.
  destruct (final_reports getInput net now cfg r Hcfg Hin) as [_ Ha].
  destruct r as [e a | e m]; cbn [spent]; [ | exact Hge].
  apply (Ha a). reflexivity.
Qed.

Lemma at_least_one_target_is_probed_witness :
  List.length (cfg_endpoints two_targets_config)
    = S (occurrences "," "https://a.test/health,https://b.test/health") /\
  results (final (core_getInput two_targets) b_recovers "T") <> [] /\
  (1 <= requests (final (core_getInput two_targets) b_recovers "T"))%nat.
Proof.
  apply (at_least_one_target_is_probed
           (core_getInput two_targets) b_recovers "T" two_targets_config).
  - reflexivity.
  - reflexivity.
  - cbn. lia.
Defined.

(* ================================================================== *)
(** ** Destroyed requests *)
(* ================================================================== *)

(** [destroys_ok net n pending l] reads the log [l] from a point where
    [n] requests have been issued; [pending] is the URL of a request that
    has just timed out and is not destroyed yet.  It holds when every
    request that times out is destroyed by the very next event, and
    nothing else is ever destroyed. *)
Fixpoint destroys_ok (net : nat -> string -> NetEvent) (n : nat)
    (pending : option string) (l : list Event) : bool :=
  match l with
  | [] => match pending with None => true | Some _ => false end
  | ev :: rest =>
      match pending, ev with
      | Some u, Destroy u' => String.eqb u u' && destroys_ok net n None rest
      | Some _, _ => false
      | None, Destroy _ => false
      | None, HttpsGet u _ =>
          destroys_ok net (S n)
            (match net n u with RequestTimeout => Some u | _ => None end)
            rest
      | None, _ => destroys_ok net n None rest
      end
  end.

Lemma destroys_ok_app net l1 : forall n p l2,
  destroys_ok net n p l1 = true ->
  destroys_ok net n p (l1 ++ l2) = destroys_ok net (n + gets l1) None l2.
Proof.
  induction l1 as [ | ev l1 IH]; intros n p l2 H.
  - destruct p; [discriminate | ]. unfold gets. cbn.
    rewrite Nat.add_0_r. reflexivity.
  - destruct p as [u0 | ], ev as [m | u t | u | ms | k v | m];
      cbn [destroys_ok app] in *; try discriminate.
    + apply andb_prop in H. destruct H as [-> H]. cbn [andb].
      now apply IH.
    + now apply IH.
    + rewrite (IH _ _ _ H). unfold gets. cbn.
      rewrite Nat.add_succ_r. reflexivity.
    + now apply IH.
    + now apply IH.
    + now apply IH.
Qed.

Lemma destroys_ok_request net n url t :
  destroys_ok net n None (request_events url t (net n url)) = true.
Proof.
  unfold request_events. cbn [destroys_ok].
  destruct (net n url); cbn; rewrite ?String.eqb_refl; reflexivity.
Qed.

(** The n-th request of a log that passes [destroys_ok] is followed at
    once by its destruction if and only if it times out. *)
Lemma destroys_ok_get net before : forall n p u t after,
  destroys_ok net n p (before ++ HttpsGet u t :: after)%list = true ->
  (net (n + gets before)%nat u = RequestTimeout <->
   exists after', after = Destroy u :: after').
Proof.
  induction before as [ | ev before IH]; intros n p u t after H.
  - destruct p; cbn [destroys_ok app] in H; [discriminate | ].
    unfold gets. cbn. rewrite Nat.add_0_r.
    destruct (net n u) as [code body | err | ].
    + split; [discriminate | ]. intros [after' ->]. discriminate.
    + split; [discriminate | ]. intros [after' ->]. discriminate.
    + split; [intros _ | reflexivity].
      destruct after as [ | ev after]; [discriminate | ].
      destruct ev; cbn [destroys_ok] in H; try discriminate.
      apply andb_prop in H. destruct H as [H _].
      apply String.eqb_eq in H. subst. eauto.
  - destruct p as [u0 | ], ev as [m | u1 t1 | u1 | ms | k v | m];
      cbn [destroys_ok app] in H; try discriminate.
    + apply andb_prop in H. destruct H as [_ H]. exact (IH _ _ _ _ _ H).
    + exact (IH _ _ _ _ _ H).
    + unfold gets. cbn. rewrite Nat.add_succ_r.
      exact (IH _ _ _ _ _ H).
    + exact (IH _ _ _ _ _ H).
    + exact (IH _ _ _ _ _ H).
    + exact (IH _ _ _ _ _ H).
Qed.

(** A destruction in such a log comes right after the request to the
    same URL (or first, when that request is the pending one). *)
Lemma destroys_ok_destroy net before : forall n p u after,
  destroys_ok net n p (before ++ Destroy u :: after)%list = true ->
  (before = [] /\ p = Some u) \/
  (exists before' t, before = (before' ++ [HttpsGet u t])%list).
Proof.
  induction before as [ | ev before IH]; intros n p u after H.
  - destruct p as [u0 | ]; cbn [destroys_ok app] in H; [ | discriminate].
    apply andb_prop in H. destruct H as [H _].
    apply String.eqb_eq in H. subst. now left.
  - right.
    destruct p as [u0 | ], ev as [m | u1 t1 | u1 | ms | k v | m];
      cbn [destroys_ok app] in H; try discriminate.
    + apply andb_prop in H. destruct H as [_ H].
      destruct (IH _ _ _ _ H) as [[_ Hp] | (b & t & ->)]; [discriminate | ].
      exists (Destroy u1 :: b), t. reflexivity.
    + destruct (IH _ _ _ _ H) as [[_ Hp] | (b & t & ->)]; [discriminate | ].
      exists (Info m :: b), t. reflexivity.
    + destruct (IH _ _ _ _ H) as [[-> Hp] | (b & t & ->)].
      * exists [], t1. destruct (net n u1); inversion Hp. reflexivity.
      * exists (HttpsGet u1 t1 :: b), t. reflexivity.
    + destruct (IH _ _ _ _ H) as [[_ Hp] | (b & t & ->)]; [discriminate | ].
      exists (Sleep ms :: b), t. reflexivity.
    + destruct (IH _ _ _ _ H) as [[_ Hp] | (b & t & ->)]; [discriminate | ].
      exists (SetOutput k v :: b), t. reflexivity.
    + destruct (IH _ _ _ _ H) as [[_ Hp] | (b & t & ->)]; [discriminate | ].
      exists (SetFailed m :: b), t. reflexivity.
Qed.

Section Destroyed.

Variable net : nat -> string -> NetEvent.

(** The invariant of the run: the log passes [destroys_ok], and the
    counter of requests is the number of requests in the log. *)
Definition destroys_inv (st : State) : Prop :=
  destroys_ok net 0 None (log st) = true /\ requests st = gets (log st).

(** Events that are neither a request nor a destruction keep it. *)
Definition plain (ev : Event) : bool :=
  match ev with HttpsGet _ _ | Destroy _ => false | _ => true end.

Lemma destroys_ok_plain n l :
  forallb plain l = true ->
  destroys_ok net n None l = true /\ gets l = 0%nat.
Proof.
  induction l as [ | ev l IH]; [now split | ].
  cbn [forallb]. intros H. apply andb_prop in H. destruct H as [Hev Hl].
  destruct (IH Hl) as [IH1 IH2].
  destruct ev; try discriminate; cbn [destroys_ok]; now split.
Qed.

Lemma destroys_inv_plain st rs l :
  forallb plain l = true ->
  destroys_inv st ->
  destroys_inv (mkState rs (log st ++ l) (requests st)).
Proof.
  intros Hl [Hok Hreq]. destruct (destroys_ok_plain (requests st) l Hl)
    as [H1 H2].
  split; cbn [log requests].
  - rewrite (destroys_ok_app _ _ _ _ _ Hok). cbn [Nat.add].
    rewrite <- Hreq. exact H1.
  - rewrite gets_app, H2. lia.
Qed.

(** One pass of the loop: an announcement, the request with what the
    handler that fires adds, then plain events. *)
Lemma destroys_inv_pass st rs e m1 l :
  forallb plain l = true ->
  destroys_inv st ->
  destroys_inv
    (mkState rs (log st ++ Info m1 :: pass_events net e st ++ l)
             (S (requests st))).
Proof.
  intros Hl [Hok Hreq]. destruct (destroys_ok_plain (S (requests st)) l Hl)
    as [H1 H2].
  split; cbn [log requests].
  - rewrite (destroys_ok_app _ _ _ _ _ Hok). cbn [Nat.add destroys_ok].
    rewrite <- Hreq. unfold pass_events, fate.
    rewrite (destroys_ok_app _ _ _ _ _
               (destroys_ok_request net (requests st) (Js.trim e)
                  default_timeout)).
    rewrite gets_request_events, Nat.add_1_r. exact H1.
  - change (Info m1 :: pass_events net e st ++ l)%list
      with ([Info m1] ++ pass_events net e st ++ l)%list.
    rewrite !gets_app, gets_pass_events, H2, Hreq.
    change (gets [Info m1]) with 0%nat. lia.
Qed.

Variable maxRetries retryDelay : Z.

Lemma loop_run_destroys e r st res st' :
  loop_run net maxRetries retryDelay e r st res st' ->
  destroys_inv st -> destroys_inv st'.
Proof.
  induction 1 as [r st Hge | r st resp m1 m2 Hlt Hs | r st err m1 Hlt Hs Hlast
                 | r st err m1 m2 res st' Hlt Hs Hmore Hrun IH];
    intros Hinv.
  - exact Hinv.
  - now apply destroys_inv_pass.
  - rewrite <- (app_nil_r (pass_events net e st)).
    now apply destroys_inv_pass.
  - apply IH. now apply destroys_inv_pass.
Qed.

Lemma check_destroys e st :
  destroys_inv st ->
  destroys_inv (snd (check net maxRetries retryDelay e st)).
Proof. apply (loop_run_destroys _ _ _ _ _ (check_run _ _ _ e st)). Qed.

Lemma check_all_destroys eps : forall st,
  destroys_inv st ->
  destroys_inv (snd (check_all net maxRetries retryDelay eps st)).
Proof.
  induction eps as [ | e eps IH]; intros st Hinv; [exact Hinv | ].
  pose proof (check_destroys e st Hinv) as H1.
  unfold check_all in *. cbn [for_of]. unfold bind.
  destruct (check net maxRetries retryDelay e st) as [res st1].
  cbn [snd] in H1.
  destruct res as [[] | err | ]; cbn [snd]; try exact H1.
  now apply IH.
Qed.

End Destroyed.

Lemma final_destroys getInput net now :
  destroys_inv net (final getInput net now).
Proof.
  destruct (final_cases getInput net now)
    as [(e0 & _ & ->) | [(cfg & st1 & _ & Hall & ->)
                        | (cfg & pre & e0 & post & st1 & err & st2 & _ & _
                           & Hpre & He & ->)]].
  - split; reflexivity.
  - apply destroys_inv_plain; [reflexivity | ].
    pose proof (check_all_destroys net (cfg_maxRetries cfg)
                  (cfg_retryDelay cfg) (cfg_endpoints cfg) (started cfg))
      as H.
    rewrite Hall in H. apply H. split; reflexivity.
  - apply destroys_inv_plain; [reflexivity | ].
    pose proof (check_destroys net (cfg_maxRetries cfg) (cfg_retryDelay cfg)
                  e0 st1) as H.
    rewrite He in H. apply H.
    pose proof (check_all_destroys net (cfg_maxRetries cfg)
                  (cfg_retryDelay cfg) pre (started cfg)) as H'.
    rewrite Hpre in H'. apply H'. split; reflexivity.
Qed.

(** X9.  In the log of a run, whatever the inputs and the network, a
    request is destroyed exactly when it times out, and at once: the
    request logged after [before] is the one numbered [gets before], and
    the event right after it is its destruction if and only if that
    request times out; and every destruction in the log comes right
    after the request to the same URL. *)
Theorem requests_destroyed_exactly_on_timeout
    (getInput : string -> bool -> Error + string)
    (net : nat -> string -> NetEvent) (now : string) :
  (forall before u t after,
     log (final getInput net now) = (before ++ HttpsGet u t :: after)%list ->
     (net (gets before) u = RequestTimeout <->
      exists after', after = Destroy u :: after')) /\
  (forall before u after,
     log (final getInput net now) = (before ++ Destroy u :: after)%list ->
     exists before' t, before = (before' ++ [HttpsGet u t])%list).
Proof.
  destruct (final_destroys getInput net now) as [Hok _].
  split.
  - intros before u t after Hlog. rewrite Hlog in Hok.
    exact (destroys_ok_get net before 0 None u t after Hok).
  - intros before u after Hlog. rewrite Hlog in Hok.
    destruct (destroys_ok_destroy net before 0 None u after Hok)
      as [[_ Hp] | H]; [discriminate | exact H].
Qed.

(** A run with two targets where only the first request times out: the
    only destruction follows that request. *)
Example destroyed_once :
  filter (fun ev => negb (plain ev))
    (log (final (core_getInput two_targets)
                (scripted [RequestTimeout; ResponseEnd 200 "ok";
                           ResponseEnd 200 "ok"]) "T"))
  = [HttpsGet "https://a.test/health" 5000; Destroy "https://a.test/health";
     HttpsGet "https://a.test/health" 5000;
     HttpsGet "https://b.test/health" 5000].
Proof. reflexivity. Qed.

(* ================================================================== *)
(** * Environment setup: [.github/actions/setup-environment/index.js] *)
(* ================================================================== *)

(** The second action writes the AWS credentials files, exports the
    variables of the environment's [.env] file, selects the Kubernetes
    context, and sets two outputs.  The same conventions apply: what the
    script does is logged in order, what the outside decides is an
    oracle.  An operation is logged when it is attempted, whether it
    succeeds or throws. *)

Module Setup.

(* ------------------------------------------------------------------ *)
(** ** Objects with string values *)
(* ------------------------------------------------------------------ *)

(** A plain object whose properties are strings: its own properties, in
    the order of their creation. *)
Definition Obj : Type := list (string * string).

Fixpoint has_key (o : Obj) (k : string) : bool :=
  match o with
  | [] => false
  | (k', _) :: rest => String.eqb k' k || has_key rest k
  end.

(** [o[k]] *)
Fixpoint obj_get (o : Obj) (k : string) : option string :=
  match o with
  | [] => None
  | (k', v) :: rest => if String.eqb k' k then Some v else obj_get rest k
  end.

Fixpoint replace_value (o : Obj) (k v : string) : Obj :=
  match o with
  | [] => []
  | (k', v') :: rest =>
      if String.eqb k' k then (k', v) :: rest
      else (k', v') :: replace_value rest k v
  end.

(** [o[k] = v] for a string [v], on an object created by [{}]: an
    existing property keeps its place, a new one comes last, and the key
    [__proto__] reaches the setter of [Object.prototype], which ignores a
    value that is not an object. *)
Definition obj_set (o : Obj) (k v : string) : Obj :=
  if String.eqb k "__proto__" then o
  else if has_key o k then replace_value o k v
  else (o ++ [(k, v)])%list.

Definition is_digit (c : ascii) : bool :=
  let n := nat_of_ascii c in ((48 <=? n)%nat && (n <=? 57)%nat).

Fixpoint all_digits (s : string) : bool :=
  match s with
  | EmptyString => true
  | String c rest => is_digit c && all_digits rest
  end.

(** The value of a key that is an array index: a canonical decimal
    numeral (no leading zero) of at most 2^32 - 2. *)
Definition array_index (k : string) : option Z :=
  match k with
  | EmptyString => None
  | String c rest =>
      if all_digits k &&
         (negb (Ascii.eqb c "0") || String.eqb rest EmptyString)
      then match Js.digits 10 k None with
           | Some n => if n <=? 4294967294 then Some n else None
           | None => None
           end
      else None
  end.

Fixpoint insert_index (n : Z) (p : string * string)
    (l : list (Z * (string * string))) : list (Z * (string * string)) :=
  match l with
  | [] => [(n, p)]
  | (m, q) :: rest =>
      if n <? m then (n, p) :: l else (m, q) :: insert_index n p rest
  end.

Fixpoint indexed (o : Obj) : list (Z * (string * string)) :=
  match o with
  | [] => []
  | (k, v) :: rest =>
      match array_index k with
      | Some n => insert_index n (k, v) (indexed rest)
      | None => indexed rest
      end
  end.

Definition named (o : Obj) : Obj :=
  filter (fun p => match array_index (fst p) with
                   | Some _ => false
                   | None => true
                   end) o.

(** [Object.entries(o)], which is also the order of [JSON.stringify]:
    the array indices in ascending order, then the other keys in the
    order of their creation. *)
Definition entries (o : Obj) : list (string * string) :=
  (map snd (indexed o) ++ named o)%list.

(** [JSON.stringify(o)] *)
Definition stringify (o : Obj) : string :=
  "{" ++ Js.join ","
           (map (fun p => Js.quote (fst p) ++ ":" ++ Js.quote (snd p))
                (entries o)) ++ "}".

(* ------------------------------------------------------------------ *)
(** ** The variables of a [.env] file *)
(* ------------------------------------------------------------------ *)

Definition newline : ascii := ascii_of_nat 10.

(** [line && !line.startsWith('#')] *)
Definition keep_line (line : string) : bool :=
  match line with
  | EmptyString => false
  | String c _ => negb (Ascii.eqb c "#")
  end.

(** A non-empty string is truthy. *)
Definition truthy (s : string) : bool :=
  match s with EmptyString => false | String _ _ => true end.

(** The callback of [reduce]: [key] and [value] are the first two
    trimmed pieces of the line between [=] signs; [value] is undefined
    when there is one piece only. *)
Definition add_line (acc : Obj) (line : string) : Obj :=
  match map Js.trim (Js.split "=" line) with
  | key :: value :: _ =>
      if truthy key && truthy value then obj_set acc key value else acc
  | _ => acc
  end.

(** [envVars.split('\n').filter(...).reduce(..., {})] *)
Definition parse_env (envVars : string) : Obj :=
  fold_left add_line (filter keep_line (Js.split newline envVars)) [].

(* ------------------------------------------------------------------ *)
(** ** Effects *)
(* ------------------------------------------------------------------ *)

Inductive Event : Type :=
| Info (msg : string)                          (* core.info(msg) *)
| MkdirP (dir : string)                        (* io.mkdirP(dir) *)
| WriteFile (path content : string)            (* fs.writeFile(path, content) *)
| ReadFile (path : string)                     (* fs.readFile(path, 'utf8') *)
| Exec (command : string) (args : list string) (* exec.exec(command, args) *)
| ExportVariable (name value : string)         (* core.exportVariable *)
| SetOutput (name value : string)              (* core.setOutput *)
| SetFailed (msg : string).                    (* core.setFailed *)

(** A computation over the log that returns or throws. *)
Definition M (A : Type) : Type := list Event -> (Error + A) * list Event.

Definition ret {A} (a : A) : M A := fun l => (inr a, l).

Definition bind {A B} (m : M A) (k : A -> M B) : M B :=
  fun l =>
    match m l with
    | (inr a, l') => k a l'
    | (inl e, l') => (inl e, l')
    end.

Definition throw {A} (e : Error) : M A := fun l => (inl e, l).

Definition try_catch {A} (body : M A) (handler : Error -> M A) : M A :=
  fun l =>
    match body l with
    | (inl e, l') => handler e l'
    | other => other
    end.

Definition emit (ev : Event) : M unit := fun l => (inr tt, (l ++ [ev])%list).

(** The value or the error of a call to the outside. *)
Definition lift {A} (r : Error + A) : M A :=
  match r with inl e => throw e | inr a => ret a end.

Declare Scope setup_scope.
Notation "x <- m ;; k" := (bind m (fun x => k))
  (at level 61, m at next level, right associativity) : setup_scope.
Notation "m ;; k" := (bind m (fun _ => k))
  (at level 61, right associativity) : setup_scope.
Local Open Scope setup_scope.

(** [pairs.forEach(([key, value]) => core.exportVariable(key, value))] *)
Fixpoint export_all (pairs : list (string * string)) : M unit :=
  match pairs with
  | [] => ret tt
  | (key, value) :: rest => emit (ExportVariable key value) ;; export_all rest
  end.

(** [!x] for a value that is a string or undefined. *)
Definition missing (x : option string) : bool :=
  match x with
  | None => true
  | Some s => negb (truthy s)
  end.

(** The text of a string that is known not to be missing. *)
Definition text (x : option string) : string :=
  match x with Some s => s | None => "undefined" end.

(** [s || d] for strings. *)
Definition or_else (s d : string) : string := if truthy s then s else d.

Section Action.

(** The environment of one execution. *)
Variable getInput : string -> bool -> Error + string.
(** [process.env[name]]; [None] is [undefined]. *)
Variable env : string -> option string.
(** [process.cwd()] *)
Variable cwd : string.
(** [path.join(a, b)], where [a] may be [undefined]. *)
Variable path_join : option string -> string -> Error + string.
Variable io_mkdirP : string -> Error + unit.
Variable fs_writeFile : string -> string -> Error + unit.
Variable fs_readFile : string -> Error + string.
(** [exec.exec(command, args)]: the exit code, or the error it rejects
    with (a non-zero exit code included). *)
Variable exec_exec : string -> list string -> Error + Z.
Variable now : string.

Definition lines (ls : list string) : string :=
  Js.join (String newline EmptyString) ls.

Definition setupAwsCredentials (region : string) : M bool :=
  try_catch
    (let accessKeyId := env "AWS_ACCESS_KEY_ID" in
     let secretAccessKey := env "AWS_SECRET_ACCESS_KEY" in
     (if missing accessKeyId || missing secretAccessKey
      then throw (mkError "AWS credentials not found in environment")
      else ret tt) ;;
     awsDir <- lift (path_join (env "HOME") ".aws") ;;
     emit (MkdirP awsDir) ;;
     lift (io_mkdirP awsDir) ;;
     let configContent :=
       lines ["[default]"; "region = " ++ region; "output = json"] in
     let credentialsContent :=
       lines ["[default]";
              "aws_access_key_id = " ++ text accessKeyId;
              "aws_secret_access_key = " ++ text secretAccessKey] in
     configPath <- lift (path_join (Some awsDir) "config") ;;
     emit (WriteFile configPath configContent) ;;
     lift (fs_writeFile configPath configContent) ;;
     credentialsPath <- lift (path_join (Some awsDir) "credentials") ;;
     emit (WriteFile credentialsPath credentialsContent) ;;
     lift (fs_writeFile credentialsPath credentialsContent) ;;
     emit (Exec "chmod" ["-R"; "600"; awsDir]) ;;
     lift (exec_exec "chmod" ["-R"; "600"; awsDir]) ;;
     ret true)
    (fun error =>
       throw (mkError ("Failed to setup AWS credentials: " ++ message error))).

Definition setupEnvironmentVariables (environment : string) : M Obj :=
  try_catch
    (envFile <- lift (path_join (Some cwd)
                        ("deployment/environments/" ++ environment ++
                         "/.env")) ;;
     emit (ReadFile envFile) ;;
     envVars <- lift (fs_readFile envFile) ;;
     let variables := parse_env envVars in
     export_all (entries variables) ;;
     ret variables)
    (fun error =>
       throw (mkError ("Failed to setup environment variables: " ++
                       message error))).

Definition setupKubernetes (environment : string) : M bool :=
  try_catch
    ((if missing (env "KUBECONFIG")
      then throw (mkError "KUBECONFIG not found in environment")
      else ret tt) ;;
     emit (Exec "kubectl" ["config"; "use-context"; environment]) ;;
     lift (exec_exec "kubectl" ["config"; "use-context"; environment]) ;;
     emit (Exec "kubectl" ["cluster-info"]) ;;
     lift (exec_exec "kubectl" ["cluster-info"]) ;;
     ret true)
    (fun error =>
       throw (mkError ("Failed to setup Kubernetes: " ++ message error))).

Definition run : M unit :=
  try_catch
    (environment <- lift (getInput "environment" true) ;;
     setup_type_input <- lift (getInput "setup-type" false) ;;
     let setupType := or_else setup_type_input "full" in
     aws_region_input <- lift (getInput "aws-region" false) ;;
     let awsRegion := or_else aws_region_input "us-east-1" in
     emit (Info ("Setting up " ++ environment ++ " environment (" ++
                 setupType ++ " setup)")) ;;
     setupAwsCredentials awsRegion ;;
     emit (Info "✅ AWS credentials configured") ;;
     envVars <- setupEnvironmentVariables environment ;;
     emit (Info "✅ Environment variables configured") ;;
     (if String.eqb setupType "full"
      then setupKubernetes environment ;;
           emit (Info "✅ Kubernetes configured")
      else ret tt) ;;
     emit (SetOutput "config" (stringify envVars)) ;;
     emit (SetOutput "timestamp" now) ;;
     emit (Info "Environment setup completed successfully"))
    (fun error =>
       emit (SetFailed ("Environment setup failed: " ++ message error))).

End Action.

End Setup.

(* ================================================================== *)
(** ** Facts about [split] and [trim] *)
(* ================================================================== *)

Lemma occurrences_app c s t :
  occurrences c (s ++ t) = (occurrences c s + occurrences c t)%nat.
Proof.
  induction s as [ | a s IH]; cbn [append occurrences]; [reflexivity | ].
  rewrite IH. lia.
Qed.

Lemma split_nonempty c s : Js.split c s <> [].
Proof.
  intros H. pose proof (split_length c s) as Hl. rewrite H in Hl.
  discriminate.
Qed.

(** A piece holds no separator, and no more of any character than the
    whole string. *)
Lemma split_pieces c d s p :
  In p (Js.split c s) ->
  occurrences c p = 0%nat /\ (occurrences d p <= occurrences d s)%nat.
Proof.
  revert p. induction s as [ | a s IH]; intros p Hin; cbn [Js.split] in Hin.
  - destruct Hin as [<- | []]. cbn. split; lia.
  - cbn [occurrences]. destruct (Ascii.eqb a c) eqn:Hac.
    + destruct Hin as [<- | Hin].
      * cbn. split; lia.
      * destruct (IH p Hin). split; lia.
    + destruct (Js.split c s) as [ | q qs] eqn:Hs.
      * destruct Hin as [<- | []]. cbn [occurrences]. rewrite Hac.
        split; lia.
      * destruct Hin as [<- | Hin].
        -- destruct (IH q (or_introl eq_refl)) as [H1 H2].
           cbn [occurrences]. rewrite Hac. split; lia.
        -- destruct (IH p (or_intror Hin)). split; lia.
Qed.

Lemma split_free c s : occurrences c s = 0%nat -> Js.split c s = [s].
Proof.
  induction s as [ | a s IH]; cbn [occurrences Js.split]; [reflexivity | ].
  destruct (Ascii.eqb a c); [discriminate | ].
  intros H. rewrite IH by lia. reflexivity.
Qed.

Lemma split_first c s t :
  occurrences c s = 0%nat ->
  Js.split c (s ++ String c t) = s :: Js.split c t.
Proof.
  induction s as [ | a s IH]; cbn [occurrences append Js.split].
  - rewrite Ascii.eqb_refl. reflexivity.
  - destruct (Ascii.eqb a c); [discriminate | ].
    intros H. rewrite IH by lia. reflexivity.
Qed.

Lemma split_last c s t :
  occurrences c t = 0%nat ->
  Js.split c (s ++ String c t) = (Js.split c s ++ [t])%list.
Proof.
  intros Ht. induction s as [ | a s IH]; cbn [append Js.split].
  - rewrite Ascii.eqb_refl, (split_free c t Ht). reflexivity.
  - destruct (Ascii.eqb a c).
    + rewrite IH. reflexivity.
    + rewrite IH. destruct (Js.split c s) as [ | p ps] eqn:Hs.
      * exfalso. eapply split_nonempty; eauto.
      * reflexivity.
Qed.

(** The string without its first [n] bytes. *)
Fixpoint skip (n : nat) (s : string) : string :=
  match n, s with
  | O, _ => s
  | S n', String _ rest => skip n' rest
  | S _, EmptyString => EmptyString
  end.

Lemma space_width_bound s :
  (Js.space_width s <= String.length s)%nat.
Proof.
  unfold Js.space_width.
  destruct s as [ | c [ | d [ | e s3]]]; cbn [String.length];
    repeat match goal with
           | |- context [if ?b then _ else _] => destruct b
           end; lia.
Qed.

(** One step of [trimStart]. *)
Lemma trimStart_step s :
  Js.trimStart s =
  match Js.space_width s with
  | O => s
  | k => Js.trimStart (skip k s)
  end.
Proof.
  destruct s as [ | c s1]; [reflexivity | ].
  cbn [Js.trimStart].
  pose proof (space_width_bound (String c s1)) as Hb.
  destruct (Js.space_width (String c s1)) as [ | [ | [ | k]]] eqn:Hw.
  - reflexivity.
  - reflexivity.
  - destruct s1 as [ | d s2]; [cbn in Hb; lia | reflexivity].
  - destruct s1 as [ | d [ | e s3]]; try (cbn in Hb; lia).
    assert (k = 0%nat).
    { revert Hw. unfold Js.space_width.
      repeat match goal with
             | |- context [if ?b then _ else _] => destruct b
             end; intros H; inversion H; reflexivity. }
    subst k. reflexivity.
Qed.

Lemma space_width_app a b :
  Js.space_width a <> 0%nat ->
  Js.space_width (a ++ b) = Js.space_width a.
Proof.
  unfold Js.space_width.
  destruct a as [ | c [ | d [ | e a3]]]; cbn [append];
    repeat match goal with
           | |- context [if ?b then _ else _] => destruct b
           end; try reflexivity; intros H; now contradiction H.
Qed.

Lemma skip_app k a b :
  (k <= String.length a)%nat -> skip k (a ++ b) = skip k a ++ b.
Proof.
  revert a. induction k as [ | k IH]; intros a Hk; [reflexivity | ].
  destruct a as [ | c a]; cbn [String.length] in Hk; [lia | ].
  cbn [append skip]. apply IH. lia.
Qed.

Lemma skip_length k s :
  (0 < k <= String.length s)%nat ->
  (String.length (skip k s) < String.length s)%nat.
Proof.
  revert s. induction k as [ | k IH]; intros s Hk; [lia | ].
  destruct s as [ | c s]; cbn [String.length] in *; [lia | ].
  cbn [skip]. destruct k; [cbn; lia | ].
  specialize (IH s). lia.
Qed.

Lemma skip_occurrences d k s :
  (occurrences d (skip k s) <= occurrences d s)%nat.
Proof.
  revert s. induction k as [ | k IH]; intros s; [cbn; lia | ].
  destruct s as [ | c s]; cbn [skip occurrences]; [lia | ].
  specialize (IH s). lia.
Qed.

(** Induction on a string through the steps of [trimStart]. *)
Lemma trimStart_ind (P : string -> Prop) :
  (forall s, Js.space_width s = 0%nat -> P s) ->
  (forall s, Js.space_width s <> 0%nat ->
             P (skip (Js.space_width s) s) -> P s) ->
  forall s, P s.
Proof.
  intros H0 Hstep s.
  assert (H : forall n s, (String.length s <= n)%nat -> P s).
  { induction n as [ | n IH]; intros t Ht.
    - apply H0. pose proof (space_width_bound t). lia.
    - destruct (Nat.eq_dec (Js.space_width t) 0) as [Hz | Hnz];
        [now apply H0 | ].
      apply Hstep; [exact Hnz | ]. apply IH.
      pose proof (space_width_bound t).
      pose proof (skip_length (Js.space_width t) t). lia. }
  apply (H (String.length s)). lia.
Qed.

Lemma trimStart_zero s : Js.space_width s = 0%nat -> Js.trimStart s = s.
Proof. intros H. rewrite trimStart_step, H. reflexivity. Qed.

Lemma trimStart_skip s :
  Js.space_width s <> 0%nat ->
  Js.trimStart s = Js.trimStart (skip (Js.space_width s) s).
Proof.
  intros H. rewrite trimStart_step at 1.
  destruct (Js.space_width s); [now contradiction H | reflexivity].
Qed.

Lemma trimStart_occurrences d s :
  (occurrences d (Js.trimStart s) <= occurrences d s)%nat.
Proof.
  induction s as [s Hz | s Hnz IH] using trimStart_ind.
  - rewrite (trimStart_zero s Hz). lia.
  - rewrite (trimStart_skip s Hnz).
    pose proof (skip_occurrences d (Js.space_width s) s). lia.
Qed.

(** What [trimStart] leaves does not start with white space. *)
Lemma trimStart_clean s : Js.space_width (Js.trimStart s) = 0%nat.
Proof.
  induction s as [s Hz | s Hnz IH] using trimStart_ind.
  - rewrite (trimStart_zero s Hz). exact Hz.
  - rewrite (trimStart_skip s Hnz). exact IH.
Qed.

(** White space before a string does not change what [trimStart]
    leaves of it. *)
Lemma trimStart_blank_app a b :
  Js.trimStart a = EmptyString -> Js.trimStart (a ++ b) = Js.trimStart b.
Proof.
  induction a as [a Hz | a Hnz IH] using trimStart_ind; intros Hblank.
  - rewrite (trimStart_zero a Hz) in Hblank. subst a. reflexivity.
  - rewrite (trimStart_skip a Hnz) in Hblank.
    rewrite trimStart_skip; rewrite (space_width_app a b Hnz);
      [ | exact Hnz].
    rewrite skip_app by apply space_width_bound.
    apply IH. exact Hblank.
Qed.

Lemma trimEnd_cons c rest :
  Js.trimEnd (String c rest) =
  match Js.trimStart (String c rest) with
  | EmptyString => EmptyString
  | _ => String c (Js.trimEnd rest)
  end.
Proof. reflexivity. Qed.

(** [trimEnd] removes a suffix made of white space. *)
Lemma trimEnd_split s :
  exists q, s = Js.trimEnd s ++ q /\ Js.trimStart q = EmptyString.
Proof.
  induction s as [ | c rest (q & Hq & Hblank)].
  - exists EmptyString. split; reflexivity.
  - rewrite trimEnd_cons.
    destruct (Js.trimStart (String c rest)) eqn:Hs.
    + exists (String c rest). split; [reflexivity | exact Hs].
    + exists q. split; [ | exact Hblank].
      cbn [append]. rewrite <- Hq. reflexivity.
Qed.

Lemma trimEnd_occurrences d s :
  (occurrences d (Js.trimEnd s) <= occurrences d s)%nat.
Proof.
  destruct (trimEnd_split s) as (q & Hq & _).
  rewrite Hq at 2. rewrite occurrences_app. lia.
Qed.

Lemma trim_occurrences d s :
  (occurrences d (Js.trim s) <= occurrences d s)%nat.
Proof.
  unfold Js.trim.
  pose proof (trimEnd_occurrences d (Js.trimStart s)).
  pose proof (trimStart_occurrences d s). lia.
Qed.

Lemma trimEnd_idempotent s : Js.trimEnd (Js.trimEnd s) = Js.trimEnd s.
Proof.
  induction s as [ | c rest IH]; [reflexivity | ].
  rewrite trimEnd_cons.
  destruct (Js.trimStart (String c rest)) as [ | x kept] eqn:Hs;
    [reflexivity | ].
  rewrite trimEnd_cons, IH.
  destruct (Js.trimStart (String c (Js.trimEnd rest))) eqn:Hblank;
    [ | reflexivity].
  exfalso. destruct (trimEnd_split rest) as (q & Hq & Hq0).
  pose proof (trimStart_blank_app (String c (Js.trimEnd rest)) q Hblank) as H.
  cbn [append] in H. rewrite <- Hq, Hs, Hq0 in H. discriminate.
Qed.

Lemma trimEnd_clean s :
  Js.space_width s = 0%nat -> Js.space_width (Js.trimEnd s) = 0%nat.
Proof.
  intros Hz. destruct (trimEnd_split s) as (q & Hq & _).
  destruct (Nat.eq_dec (Js.space_width (Js.trimEnd s)) 0) as [H | H];
    [exact H | ].
  pose proof (space_width_app (Js.trimEnd s) q H) as Happ.
  rewrite <- Hq in Happ. lia.
Qed.

(** Trimming twice is trimming once. *)
Lemma trim_idempotent s : Js.trim (Js.trim s) = Js.trim s.
Proof.
  unfold Js.trim.
  rewrite (trimStart_zero (Js.trimEnd (Js.trimStart s))).
  - apply trimEnd_idempotent.
  - apply trimEnd_clean, trimStart_clean.
Qed.

From Stdlib Require Import Permutation.

(* ================================================================== *)
(** ** Objects *)
(* ================================================================== *)

Lemma has_key_in o k : Setup.has_key o k = true <-> In k (map fst o).
Proof.
  induction o as [ | [k' v'] o IH]; cbn [Setup.has_key map fst In].
  - split; [discriminate | tauto].
  - rewrite orb_true_iff, IH, String.eqb_eq. tauto.
Qed.

Lemma replace_value_keys o k v :
  map fst (Setup.replace_value o k v) = map fst o.
Proof.
  induction o as [ | [k' v'] o IH]; cbn [Setup.replace_value map fst];
    [reflexivity | ].
  destruct (String.eqb k' k); cbn [map fst]; [reflexivity | ].
  rewrite IH. reflexivity.
Qed.

Lemma replace_value_in o k v p :
  In p (Setup.replace_value o k v) -> In p o \/ p = (k, v).
Proof.
  induction o as [ | [k' v'] o IH]; cbn [Setup.replace_value]; [tauto | ].
  destruct (String.eqb k' k) eqn:Hk.
  - apply String.eqb_eq in Hk. subst k'.
    intros [<- | Hin]; [now right | left; now right].
  - intros [<- | Hin]; [left; now left | ].
    destruct (IH Hin); [left; now right | now right].
Qed.

(** A property written by [obj_set] is an earlier one or the new one,
    and the new one is never [__proto__]. *)
Lemma obj_set_in o k v p :
  In p (Setup.obj_set o k v) ->
  In p o \/ (p = (k, v) /\ k <> "__proto__").
Proof.
  unfold Setup.obj_set. destruct (String.eqb k "__proto__") eqn:Hp.
  - now left.
  - apply String.eqb_neq in Hp. destruct (Setup.has_key o k).
    + intros Hin. apply replace_value_in in Hin. tauto.
    + intros Hin. apply in_app_or in Hin.
      destruct Hin as [Hin | [<- | []]]; auto.
Qed.

Lemma obj_set_nodup o k v :
  NoDup (map fst o) -> NoDup (map fst (Setup.obj_set o k v)).
Proof.
  intros Hnd. unfold Setup.obj_set.
  destruct (String.eqb k "__proto__"); [exact Hnd | ].
  destruct (Setup.has_key o k) eqn:Hk.
  - rewrite replace_value_keys. exact Hnd.
  - rewrite map_app. cbn [map fst].
    apply NoDup_app; [exact Hnd | repeat constructor; intros [] | ].
    intros x Hx [<- | []].
    apply has_key_in in Hx. congruence.
Qed.

Lemma obj_get_replace o k v k' :
  Setup.has_key o k = true ->
  Setup.obj_get (Setup.replace_value o k v) k'
  = if String.eqb k k' then Some v else Setup.obj_get o k'.
Proof.
  induction o as [ | [k0 v0] o IH];
    cbn [Setup.has_key Setup.replace_value Setup.obj_get]; [discriminate | ].
  destruct (String.eqb k0 k) eqn:H0.
  - intros _. apply String.eqb_eq in H0. subst k0. cbn [Setup.obj_get].
    destruct (String.eqb k k'); reflexivity.
  - cbn [orb]. intros Hk. cbn [Setup.obj_get].
    destruct (String.eqb k0 k') eqn:H1.
    + apply String.eqb_eq in H1. subst k'.
      rewrite String.eqb_sym, H0. reflexivity.
    + apply IH. exact Hk.
Qed.

Lemma obj_get_missing o k :
  Setup.has_key o k = false -> Setup.obj_get o k = None.
Proof.
  induction o as [ | [k0 v0] o IH]; cbn [Setup.has_key Setup.obj_get];
    [reflexivity | ].
  destruct (String.eqb k0 k); [discriminate | exact IH].
Qed.

Lemma obj_get_append o k v k' :
  Setup.has_key o k = false ->
  Setup.obj_get (o ++ [(k, v)])%list k'
  = if String.eqb k k' then Some v else Setup.obj_get o k'.
Proof.
  intros Hk. induction o as [ | [k0 v0] o IH].
  - cbn. destruct (String.eqb k k'); reflexivity.
  - cbn [Setup.has_key] in Hk. apply orb_false_iff in Hk.
    destruct Hk as [H0 Hk]. cbn [app Setup.obj_get].
    destruct (String.eqb k0 k') eqn:H1.
    + apply String.eqb_eq in H1. subst k'.
      rewrite String.eqb_sym, H0. reflexivity.
    + apply IH. exact Hk.
Qed.

(** Reading after writing. *)
Lemma obj_get_set o k v k' :
  k <> "__proto__" ->
  Setup.obj_get (Setup.obj_set o k v) k'
  = if String.eqb k k' then Some v else Setup.obj_get o k'.
Proof.
  intros Hp. unfold Setup.obj_set.
  rewrite (proj2 (String.eqb_neq _ _) Hp).
  destruct (Setup.has_key o k) eqn:Hk.
  - now apply obj_get_replace.
  - now apply obj_get_append.
Qed.

Lemma insert_index_perm n p l :
  Permutation (Setup.insert_index n p l) ((n, p) :: l).
Proof.
  induction l as [ | [m q] l IH]; cbn [Setup.insert_index]; [reflexivity | ].
  destruct (n <? m); [reflexivity | ].
  rewrite IH. apply perm_swap.
Qed.

(** [entries] lists the properties of the object, each once. *)
Lemma entries_perm o : Permutation (Setup.entries o) o.
Proof.
  unfold Setup.entries.
  induction o as [ | [k v] o IH]; cbn [Setup.indexed Setup.named filter fst];
    [reflexivity | ].
  destruct (Setup.array_index k) as [n | ].
  - rewrite (Permutation_map snd (insert_index_perm n (k, v) _)).
    cbn [map snd app]. now constructor.
  - rewrite <- Permutation_middle. now constructor.
Qed.

(* ================================================================== *)
(** ** The variables read from a [.env] file *)
(* ================================================================== *)

Lemma truthy_nonempty s : Setup.truthy s = true <-> s <> EmptyString.
Proof. destruct s; cbn; split; congruence. Qed.

(** What [add_line] makes of a line: nothing, or the assignment of the
    second trimmed piece to the first. *)
Lemma add_line_cases acc line :
  Setup.add_line acc line = acc \/
  exists key value more,
    Js.split "=" line = key :: value :: more /\
    Js.trim key <> EmptyString /\ Js.trim value <> EmptyString /\
    Setup.add_line acc line
      = Setup.obj_set acc (Js.trim key) (Js.trim value).
Proof.
  unfold Setup.add_line.
  destruct (Js.split "=" line) as [ | key [ | value more]]; cbn [map];
    [now left | now left | ].
  destruct (Setup.truthy (Js.trim key)) eqn:Hk; [ | now left].
  destruct (Setup.truthy (Js.trim value)) eqn:Hv; [ | now left].
  right. exists key, value, more. cbn [andb].
  apply truthy_nonempty in Hk. apply truthy_nonempty in Hv. auto.
Qed.

(** A name and a value as the parser lets them through. *)
Definition clean (p : string * string) : Prop :=
  fst p <> EmptyString /\ snd p <> EmptyString /\
  fst p <> "__proto__" /\
  Js.trim (fst p) = fst p /\ Js.trim (snd p) = snd p /\
  occurrences "=" (fst p) = 0%nat /\ occurrences "=" (snd p) = 0%nat /\
  occurrences Setup.newline (fst p) = 0%nat /\
  occurrences Setup.newline (snd p) = 0%nat.

Lemma add_line_clean acc line :
  occurrences Setup.newline line = 0%nat ->
  Forall clean acc -> Forall clean (Setup.add_line acc line).
Proof.
  intros Hnl Hacc.
  destruct (add_line_cases acc line)
    as [-> | (key & value & more & Hsplit & Hk & Hv & ->)]; [exact Hacc | ].
  apply Forall_forall. intros p Hin. apply obj_set_in in Hin.
  destruct Hin as [Hin | [-> Hproto]].
  - rewrite Forall_forall in Hacc. now apply Hacc.
  - assert (Hkey : In key (Js.split "=" line))
      by (rewrite Hsplit; now left).
    assert (Hvalue : In value (Js.split "=" line))
      by (rewrite Hsplit; right; now left).
    destruct (split_pieces "=" Setup.newline line key Hkey) as [Hk1 Hk2].
    destruct (split_pieces "=" Setup.newline line value Hvalue) as [Hv1 Hv2].
    pose proof (trim_occurrences "=" key).
    pose proof (trim_occurrences "=" value).
    pose proof (trim_occurrences Setup.newline key).
    pose proof (trim_occurrences Setup.newline value).
    unfold clean. cbn [fst snd]. rewrite !trim_idempotent.
    repeat split; auto; lia.
Qed.

Lemma fold_add_line_clean ls : forall acc,
  Forall (fun line => occurrences Setup.newline line = 0%nat) ls ->
  Forall clean acc ->
  Forall clean (fold_left Setup.add_line ls acc).
Proof.
  induction ls as [ | line ls IH]; intros acc Hls Hacc; cbn [fold_left].
  - exact Hacc.
  - inversion Hls; subst. apply IH; [assumption | ].
    now apply add_line_clean.
Qed.

Lemma fold_add_line_nodup ls : forall acc,
  NoDup (map fst acc) ->
  NoDup (map fst (fold_left Setup.add_line ls acc)).
Proof.
  induction ls as [ | line ls IH]; intros acc Hacc; cbn [fold_left].
  - exact Hacc.
  - apply IH.
    destruct (add_line_cases acc line)
      as [-> | (key & value & more & _ & _ & _ & ->)]; [exact Hacc | ].
    now apply obj_set_nodup.
Qed.

(** X10.  Every variable read from a [.env] file, whatever the text of
    the file, has a name and a value that are not empty, hold no [=] and
    no line break, and have no white space at either end; and no variable
    is named [__proto__]. *)
Theorem parsed_variables_are_clean (envVars name value : string) :
  In (name, value) (Setup.entries (Setup.parse_env envVars)) ->
  name <> EmptyString /\ value <> EmptyString /\
  name <> "__proto__" /\
  Js.trim name = name /\ Js.trim value = value /\
  occurrences "=" name = 0%nat /\ occurrences "=" value = 0%nat /\
  occurrences Setup.newline name = 0%nat /\
  occurrences Setup.newline value = 0%nat.
Proof.
  intros Hin.
  apply (Permutation_in _ (entries_perm _)) in Hin.
  assert (Hall : Forall clean (Setup.parse_env envVars)).
  { unfold Setup.parse_env. apply fold_add_line_clean; [ | constructor].
    apply Forall_forall. intros line Hline. apply filter_In in Hline.
    destruct Hline as [Hline _].
    apply (split_pieces Setup.newline Setup.newline envVars line Hline). }
  rewrite Forall_forall in Hall. exact (Hall _ Hin).
Qed.

Definition sample_env : string :=
  "# database" ++ String Setup.newline
  ("DB_HOST = db.internal " ++ String Setup.newline
  ("DB_URL=postgres://db/app?sslmode=require" ++ String Setup.newline
  ("" ++ String Setup.newline
  ("DB_HOST=replica.internal")))).

Example sample_env_variables :
  Setup.entries (Setup.parse_env sample_env)
  = [("DB_HOST", "replica.internal"); ("DB_URL", "postgres://db/app?sslmode")].
Proof. reflexivity. Qed.

Lemma parsed_variables_are_clean_witness :
  "DB_URL" <> EmptyString /\ "postgres://db/app?sslmode" <> EmptyString /\
  "DB_URL" <> "__proto__" /\
  Js.trim "DB_URL" = "DB_URL" /\
  Js.trim "postgres://db/app?sslmode" = "postgres://db/app?sslmode" /\
  occurrences "=" "DB_URL" = 0%nat /\
  occurrences "=" "postgres://db/app?sslmode" = 0%nat /\
  occurrences Setup.newline "DB_URL" = 0%nat /\
  occurrences Setup.newline "postgres://db/app?sslmode" = 0%nat.
Proof.
  apply (parsed_variables_are_clean sample_env).
  vm_compute. right. now left.
Defined.

Lemma variable_names_are_distinct_aux envVars :
  NoDup (map fst (Setup.entries (Setup.parse_env envVars))).
Proof.
  eapply Permutation_NoDup.
  - apply Permutation_map. symmetry. apply entries_perm.
  - unfold Setup.parse_env. apply fold_add_line_nodup. constructor.
Qed.

(** X11.  The variables of a [.env] file have distinct names, in the
    object and in the list that is exported and serialised: no name is
    exported twice. *)
Theorem variable_names_are_distinct (envVars : string) :
  NoDup (map fst (Setup.parse_env envVars)) /\
  NoDup (map fst (Setup.entries (Setup.parse_env envVars))).
Proof.
  assert (H : NoDup (map fst (Setup.parse_env envVars))).
  { unfold Setup.parse_env. apply fold_add_line_nodup. constructor. }
  split; [exact H | ].
  eapply Permutation_NoDup; [ | exact H].
  apply Permutation_map. symmetry. apply entries_perm.
Qed.

(** Reading one more line. *)
Lemma parse_env_snoc envVars line :
  occurrences Setup.newline line = 0%nat ->
  Setup.parse_env (envVars ++ String Setup.newline line)
  = if Setup.keep_line line
    then Setup.add_line (Setup.parse_env envVars) line
    else Setup.parse_env envVars.
Proof.
  intros Hnl. unfold Setup.parse_env.
  rewrite (split_last Setup.newline envVars line Hnl), filter_app.
  cbn [filter]. destruct (Setup.keep_line line).
  - rewrite fold_left_app. reflexivity.
  - rewrite app_nil_r. reflexivity.
Qed.

(** X12.  A line added at the end of a [.env] file changes nothing of
    what is read from it when it is empty, when it starts with [#], or
    when it holds no [=]. *)
Theorem comment_blank_and_bare_lines_are_ignored (envVars line : string) :
  occurrences Setup.newline line = 0%nat ->
  Setup.keep_line line = false \/ occurrences "=" line = 0%nat ->
  Setup.parse_env (envVars ++ String Setup.newline line)
  = Setup.parse_env envVars.
Proof.
  intros Hnl Hcase. rewrite (parse_env_snoc envVars line Hnl).
  destruct (Setup.keep_line line); [ | reflexivity].
  destruct Hcase as [Hk | Heq]; [discriminate | ].
  unfold Setup.add_line. rewrite (split_free "=" line Heq). reflexivity.
Qed.

Lemma comment_blank_and_bare_lines_are_ignored_witness :
  Setup.parse_env (sample_env ++ String Setup.newline "#DB_HOST=other")
  = Setup.parse_env sample_env.
Proof.
  apply (comment_blank_and_bare_lines_are_ignored sample_env "#DB_HOST=other").
  - reflexivity.
  - left. reflexivity.
Defined.

Lemma append_empty s : s ++ EmptyString = s.
Proof. induction s as [ | a s IH]; cbn; [ | rewrite IH]; reflexivity. Qed.

(** X13.  A line [key=value] added at the end of a [.env] file, possibly
    followed by a second [=] and more text, binds the trimmed key to the
    trimmed value: it overrides any earlier line for the same name,
    leaves every other name as it was, and drops what follows the second
    [=]. *)
Theorem last_assignment_wins_and_is_cut_at_second_equals
    (envVars key value tail name : string) :
  occurrences Setup.newline (key ++ String "=" (value ++ tail)) = 0%nat ->
  Setup.keep_line (key ++ String "=" (value ++ tail)) = true ->
  occurrences "=" key = 0%nat ->
  occurrences "=" value = 0%nat ->
  tail = EmptyString \/ (exists rest, tail = String "=" rest) ->
  Js.trim key <> EmptyString ->
  Js.trim value <> EmptyString ->
  Js.trim key <> "__proto__" ->
  Setup.obj_get
    (Setup.parse_env
       (envVars ++ String Setup.newline (key ++ String "=" (value ++ tail))))
    name
  = if String.eqb (Js.trim key) name then Some (Js.trim value)
    else Setup.obj_get (Setup.parse_env envVars) name.
Proof.
  intros Hnl Hkeep Hkey Hvalue Htail Hk Hv Hproto.
  rewrite (parse_env_snoc envVars _ Hnl), Hkeep.
  assert (Hsplit : exists more,
            Js.split "=" (key ++ String "=" (value ++ tail))
            = key :: value :: more).
  { rewrite (split_first "=" key _ Hkey).
    destruct Htail as [-> | [rest ->]].
    - rewrite append_empty, (split_free "=" value Hvalue). now exists [].
    - rewrite (split_first "=" value _ Hvalue). eauto. }
  destruct Hsplit as [more Hsplit].
  unfold Setup.add_line. rewrite Hsplit. cbn [map].
  rewrite (proj2 (truthy_nonempty _) Hk), (proj2 (truthy_nonempty _) Hv).
  cbn [andb]. now apply obj_get_set.
Qed.

Lemma last_assignment_wins_and_is_cut_at_second_equals_witness :
  Setup.obj_get
    (Setup.parse_env
       (sample_env ++ String Setup.newline
          (" DB_HOST " ++ String "=" (" primary " ++ "=x"))))
    "DB_HOST"
  = if String.eqb (Js.trim " DB_HOST ") "DB_HOST"
    then Some (Js.trim " primary ")
    else Setup.obj_get (Setup.parse_env sample_env) "DB_HOST".
Proof.
  apply (last_assignment_wins_and_is_cut_at_second_equals
           sample_env " DB_HOST " " primary " "=x" "DB_HOST").
  - reflexivity.
  - reflexivity.
  - reflexivity.
  - reflexivity.
  - right. exists "x". reflexivity.
  - discriminate.
  - discriminate.
  - discriminate.
Defined.

(* ================================================================== *)
(** ** The setup run *)
(* ================================================================== *)

(** The events that export the given variables. *)
Definition exports (pairs : list (string * string)) : list Setup.Event :=
  map (fun p => Setup.ExportVariable (fst p) (snd p)) pairs.

Lemma export_all_log pairs : forall l,
  Setup.export_all pairs l = (inr tt, (l ++ exports pairs)%list).
Proof.
  induction pairs as [ | [k v] pairs IH]; intros l;
    cbn [Setup.export_all exports map].
  - unfold Setup.ret. rewrite app_nil_r. reflexivity.
  - unfold Setup.bind, Setup.emit. rewrite IH, <- app_assoc. reflexivity.
Qed.

Definition is_export (ev : Setup.Event) : bool :=
  match ev with Setup.ExportVariable _ _ => true | _ => false end.

Lemma filter_exports pairs : filter is_export (exports pairs) = exports pairs.
Proof.
  induction pairs as [ | p pairs IH]; [reflexivity | ].
  cbn [exports map filter is_export]. fold (exports pairs).
  rewrite IH. reflexivity.
Qed.

Lemma in_exports ev pairs :
  In ev (exports pairs) -> is_export ev = true.
Proof.
  unfold exports. intros Hin. apply in_map_iff in Hin.
  destruct Hin as (p & <- & _). reflexivity.
Qed.

(** Events of the credentials step, and of the Kubernetes step. *)
Definition aws_event (ev : Setup.Event) : Prop :=
  match ev with
  | Setup.MkdirP _ => True
  | Setup.WriteFile _ _ => True
  | Setup.Exec command _ => command = "chmod"
  | _ => False
  end.

Definition kube_event (ev : Setup.Event) : Prop :=
  match ev with
  | Setup.Exec command _ => command = "kubectl"
  | Setup.Info _ => True
  | _ => False
  end.

Section Setup_steps.

Variable getInput : string -> bool -> Error + string.
Variable env : string -> option string.
Variable cwd : string.
Variable path_join : option string -> string -> Error + string.
Variable io_mkdirP : string -> Error + unit.
Variable fs_writeFile : string -> string -> Error + unit.
Variable fs_readFile : string -> Error + string.
Variable exec_exec : string -> list string -> Error + Z.
Variable now : string.

Ltac step_cases :=
  unfold Setup.try_catch, Setup.bind, Setup.lift, Setup.throw, Setup.ret,
    Setup.emit;
  repeat (cbv beta zeta;
          match goal with
          | |- context [Setup.export_all ?p ?l] =>
              rewrite (export_all_log p l)
          | |- context [match ?x with inl _ => _ | inr _ => _ end] =>
              destruct x eqn:?
          | |- context [if ?b then _ else _] => destruct b eqn:?
          end);
  cbn [fst snd message].

(** The credentials step adds only events of its own, and throws only
    errors with its prefix. *)
Lemma setupAwsCredentials_shape region l :
  exists d,
    snd (Setup.setupAwsCredentials env path_join io_mkdirP fs_writeFile
           exec_exec region l) = (l ++ d)%list /\
    Forall aws_event d /\
    (fst (Setup.setupAwsCredentials env path_join io_mkdirP fs_writeFile
            exec_exec region l) = inr true \/
     exists m,
       fst (Setup.setupAwsCredentials env path_join io_mkdirP fs_writeFile
              exec_exec region l)
       = inl (mkError ("Failed to setup AWS credentials: " ++ m))).
Proof.
  unfold Setup.setupAwsCredentials. step_cases;
    rewrite <- ?app_assoc; cbn [app];
    (eexists; split;
     [ first [reflexivity | symmetry; apply app_nil_r]
     | split; [repeat constructor | first [now left | right; eauto]]]).
Qed.

(** The variables step reads the file and exports every variable, or
    throws with its prefix before exporting any. *)
Lemma setupEnvironmentVariables_shape environment l :
  (exists f envVars,
     fs_readFile f = inr envVars /\
     Setup.setupEnvironmentVariables cwd path_join fs_readFile environment l
     = (inr (Setup.parse_env envVars),
        (l ++ Setup.ReadFile f
              :: exports (Setup.entries (Setup.parse_env envVars)))%list))
  \/
  (exists m d,
     (d = [] \/ exists f, d = [Setup.ReadFile f]) /\
     Setup.setupEnvironmentVariables cwd path_join fs_readFile environment l
     = (inl (mkError ("Failed to setup environment variables: " ++ m)),
        (l ++ d)%list)).
Proof.
  unfold Setup.setupEnvironmentVariables. step_cases;
    first
      [ left; do 2 eexists; split;
        [eassumption | rewrite <- app_assoc; reflexivity]
      | right; eexists _, [Setup.ReadFile _]; split;
        [right; eexists; reflexivity | reflexivity]
      | right; eexists _, []; rewrite app_nil_r; split;
        [now left | reflexivity] ].
Qed.

(** The Kubernetes step runs [kubectl] only, and not at all without
    [KUBECONFIG]. *)
Lemma setupKubernetes_shape environment l :
  exists d,
    snd (Setup.setupKubernetes env exec_exec environment l) = (l ++ d)%list /\
    Forall kube_event d /\
    (d <> [] \/
     fst (Setup.setupKubernetes env exec_exec environment l) = inr true ->
     Setup.missing (env "KUBECONFIG") = false) /\
    (fst (Setup.setupKubernetes env exec_exec environment l) = inr true \/
     exists m,
       fst (Setup.setupKubernetes env exec_exec environment l)
       = inl (mkError ("Failed to setup Kubernetes: " ++ m))).
Proof.
  unfold Setup.setupKubernetes. step_cases;
    rewrite <- ?app_assoc; cbn [app];
    (eexists; split;
     [ first [reflexivity | symmetry; apply app_nil_r]
     | split; [repeat constructor
              | split; [first [reflexivity
                              | intros [H | H];
                                [now contradiction H | discriminate H]]
                       | first [now left | right; eauto]]]]).
Qed.

End Setup_steps.

Definition setup_failed (m : string) : Setup.Event :=
  Setup.SetFailed ("Environment setup failed: " ++ m).

Definition setup_head (environment setup_type : string) : Setup.Event :=
  Setup.Info ("Setting up " ++ environment ++ " environment (" ++
              Setup.or_else setup_type "full" ++ " setup)").

Definition setup_outputs (now : string) (variables : Setup.Obj)
  : list Setup.Event :=
  [Setup.SetOutput "config" (Setup.stringify variables);
   Setup.SetOutput "timestamp" now;
   Setup.Info "Environment setup completed successfully"].

Section Setup_run.

Variable getInput : string -> bool -> Error + string.
Variable env : string -> option string.
Variable cwd : string.
Variable path_join : option string -> string -> Error + string.
Variable io_mkdirP : string -> Error + unit.
Variable fs_writeFile : string -> string -> Error + unit.
Variable fs_readFile : string -> Error + string.
Variable exec_exec : string -> list string -> Error + Z.
Variable now : string.

(** The log of a run of the action. *)
Definition setup_log : list Setup.Event :=
  snd (Setup.run getInput env cwd path_join io_mkdirP fs_writeFile
         fs_readFile exec_exec now []).

(** The five ways a run of the action goes: an input cannot be read; the
    credentials step throws; the variables step throws; the Kubernetes
    step throws; or every step succeeds and the outputs are set. *)
Lemma setup_run_shape :
  (exists m, setup_log = [setup_failed m])
  \/
  exists environment setup_type region d_aws,
    getInput "environment" true = inr environment /\
    getInput "setup-type" false = inr setup_type /\
    getInput "aws-region" false = inr region /\
    Forall aws_event d_aws /\
    ((exists m,
        setup_log
        = (setup_head environment setup_type :: d_aws ++
           [setup_failed ("Failed to setup AWS credentials: " ++ m)])%list)
     \/
     (exists m d,
        (d = [] \/ exists f, d = [Setup.ReadFile f]) /\
        setup_log
        = (setup_head environment setup_type :: d_aws ++
           Setup.Info "✅ AWS credentials configured" :: d ++
           [setup_failed ("Failed to setup environment variables: " ++ m)])
          %list)
     \/
     (exists f envVars d_kube,
        fs_readFile f = inr envVars /\
        Forall kube_event d_kube /\
        (d_kube <> [] ->
         Setup.or_else setup_type "full" = "full" /\
         Setup.missing (env "KUBECONFIG") = false) /\
        exists tail,
          ((exists m,
              Setup.or_else setup_type "full" = "full" /\
              tail = [setup_failed ("Failed to setup Kubernetes: " ++ m)]) \/
           tail = setup_outputs now (Setup.parse_env envVars)) /\
          setup_log
          = (setup_head environment setup_type :: d_aws ++
             Setup.Info "✅ AWS credentials configured" ::
             Setup.ReadFile f ::
             exports (Setup.entries (Setup.parse_env envVars)) ++
             Setup.Info "✅ Environment variables configured" ::
             d_kube ++ tail)%list)).
Proof.
  unfold setup_log, Setup.run.
  unfold Setup.try_catch, Setup.bind, Setup.lift, Setup.ret, Setup.throw,
    Setup.emit.
  destruct (getInput "environment" true) as [e | environment];
    [left; eexists; reflexivity | ].
  destruct (getInput "setup-type" false) as [e | setup_type];
    [left; eexists; reflexivity | ].
  destruct (getInput "aws-region" false) as [e | region];
    [left; eexists; reflexivity | ].
  cbv beta iota zeta. cbn [app].
  fold (setup_head environment setup_type).
  destruct (setupAwsCredentials_shape env path_join io_mkdirP fs_writeFile
              exec_exec (Setup.or_else region "us-east-1")
              [setup_head environment setup_type])
    as (d_aws & Hlog & Haws & Hres).
  right. exists environment, setup_type, region, d_aws.
  refine (conj eq_refl (conj eq_refl (conj eq_refl (conj Haws _)))).
  destruct (Setup.setupAwsCredentials _ _ _ _ _ _ _) as [res l1].
  cbn [fst snd] in Hlog, Hres. subst l1.
  destruct Hres as [-> | [m ->]]; cbv beta iota zeta.
  2:{ left. exists m. reflexivity. }
  right.
  destruct (setupEnvironmentVariables_shape cwd path_join fs_readFile
              environment
              (([setup_head environment setup_type] ++ d_aws) ++
               [Setup.Info "✅ AWS credentials configured"])%list)
    as [(f & envVars & Hread & ->) | (m & d & Hd & ->)];
    cbv beta iota zeta.
  2:{ left. exists m, d. split; [exact Hd | ].
      cbn [snd app]. rewrite <- !app_assoc. reflexivity. }
  right.
  destruct (String.eqb (Setup.or_else setup_type "full") "full") eqn:Hfull.
  - apply String.eqb_eq in Hfull.
    match goal with
    | |- context [Setup.setupKubernetes env exec_exec environment ?l] =>
        destruct (setupKubernetes_shape env exec_exec environment l)
          as (d_kube & Hlog & Hkube & Hmissing & Hres);
        destruct (Setup.setupKubernetes env exec_exec environment l)
          as [res l2]
    end.
    cbn [fst snd] in Hlog, Hres, Hmissing. subst l2.
    destruct Hres as [-> | [m ->]]; cbv beta iota zeta.
    + exists f, envVars,
        (d_kube ++ [Setup.Info "✅ Kubernetes configured"])%list.
      refine (conj Hread (conj _ (conj _ _))).
      * apply Forall_app. split; [exact Hkube | repeat constructor].
      * intros _. split; [exact Hfull | ]. apply Hmissing. now right.
      * exists (setup_outputs now (Setup.parse_env envVars)).
        split; [now right | ].
        cbn [snd app setup_outputs]. rewrite <- !app_assoc. reflexivity.
    + exists f, envVars, d_kube.
      refine (conj Hread (conj Hkube (conj _ _))).
      * intros Hne. split; [exact Hfull | ]. apply Hmissing. now left.
      * eexists. split; [left; exists m; split; [exact Hfull | reflexivity] | ].
        cbn [snd app]. rewrite <- !app_assoc. reflexivity.
  - exists f, envVars, [].
    refine (conj Hread (conj (Forall_nil _) (conj _ _))).
    + intros Hne. now contradiction Hne.
    + exists (setup_outputs now (Setup.parse_env envVars)).
      split; [now right | ].
      cbn [snd app setup_outputs]. rewrite <- !app_assoc. reflexivity.
Qed.

End Setup_run.

(** Neither an output nor a failure. *)
Definition setup_quiet (ev : Setup.Event) : Prop :=
  match ev with
  | Setup.SetOutput _ _ => False
  | Setup.SetFailed _ => False
  | _ => True
  end.

Lemma aws_events_plain d :
  Forall aws_event d ->
  filter is_export d = [] /\ Forall setup_quiet d /\
  forall args, ~ In (Setup.Exec "kubectl" args) d.
Proof.
  induction 1 as [ | ev d Hev _ (IH1 & IH2 & IH3)].
  - refine (conj eq_refl (conj (Forall_nil _) _)). intros args [].
  - assert (Hquiet : setup_quiet ev)
      by (destruct ev; cbn in *; auto; contradiction).
    assert (Hexp : is_export ev = false)
      by (destruct ev; cbn in *; auto; contradiction).
    cbn [filter]. rewrite Hexp.
    refine (conj IH1 (conj (Forall_cons _ Hquiet IH2) _)).
    intros args [Hin | Hin]; [ | eapply IH3; eauto].
    subst ev. cbn in Hev. discriminate.
Qed.

Lemma kube_events_plain d :
  Forall kube_event d ->
  filter is_export d = [] /\ Forall setup_quiet d.
Proof.
  induction 1 as [ | ev d Hev _ (IH1 & IH2)].
  - auto.
  - assert (Hquiet : setup_quiet ev)
      by (destruct ev; cbn in *; auto; contradiction).
    assert (Hexp : is_export ev = false)
      by (destruct ev; cbn in *; auto; contradiction).
    cbn [filter]. rewrite Hexp. auto.
Qed.

Lemma exports_plain pairs :
  Forall setup_quiet (exports pairs) /\
  forall args, ~ In (Setup.Exec "kubectl" args) (exports pairs).
Proof.
  split.
  - apply Forall_forall. intros ev Hin. apply in_exports in Hin.
    destruct ev; try discriminate. exact I.
  - intros args Hin. apply in_exports in Hin. discriminate.
Qed.

Lemma or_else_full s :
  Setup.or_else s "full" = "full" -> s = EmptyString \/ s = "full".
Proof.
  unfold Setup.or_else. destruct s as [ | c s]; cbn [Setup.truthy]; auto.
Qed.

Section Setup_properties.

Variable getInput : string -> bool -> Error + string.
Variable env : string -> option string.
Variable cwd : string.
Variable path_join : option string -> string -> Error + string.
Variable io_mkdirP : string -> Error + unit.
Variable fs_writeFile : string -> string -> Error + unit.
Variable fs_readFile : string -> Error + string.
Variable exec_exec : string -> list string -> Error + Z.
Variable now : string.

(** X14.  When the inputs are read but [AWS_ACCESS_KEY_ID] or
    [AWS_SECRET_ACCESS_KEY] is absent or empty, the run announces the
    setup and is marked as failed at once, with both prefixes before the
    message: no directory is made, no file written or read, no command
    run, no variable exported, no output set. *)
Theorem missing_credentials_fail_the_setup_at_once
    (environment setup_type region : string) :
  getInput "environment" true = inr environment ->
  getInput "setup-type" false = inr setup_type ->
  getInput "aws-region" false = inr region ->
  Setup.missing (env "AWS_ACCESS_KEY_ID")
  || Setup.missing (env "AWS_SECRET_ACCESS_KEY") = true ->
  setup_log getInput env cwd path_join io_mkdirP fs_writeFile fs_readFile
    exec_exec now
  = [Setup.Info ("Setting up " ++ environment ++ " environment (" ++
                 Setup.or_else setup_type "full" ++ " setup)");
     Setup.SetFailed
       ("Environment setup failed: Failed to setup AWS credentials: " ++
        "AWS credentials not found in environment")].
Proof.
  intros He Hs Hr Hmissing.
  unfold setup_log, Setup.run, Setup.setupAwsCredentials.
  unfold Setup.try_catch, Setup.bind, Setup.lift, Setup.ret, Setup.throw,
    Setup.emit.
  rewrite He, Hs, Hr. cbv beta iota zeta. rewrite Hmissing. reflexivity.
Qed.

(** X15.  [kubectl] is run only in a full setup (the input [setup-type]
    is "full" or is not supplied) and only when [KUBECONFIG] is set; the
    only other command the action runs is [chmod]. *)
Theorem kubectl_only_in_a_full_setup_with_kubeconfig
    (setup_type command : string) (args : list string) :
  getInput "setup-type" false = inr setup_type ->
  In (Setup.Exec command args)
     (setup_log getInput env cwd path_join io_mkdirP fs_writeFile
        fs_readFile exec_exec now) ->
  command = "chmod" \/
  (command = "kubectl" /\
   (setup_type = EmptyString \/ setup_type = "full") /\
   Setup.missing (env "KUBECONFIG") = false).
Proof.
  intros Hs Hin.
  destruct (setup_run_shape getInput env cwd path_join io_mkdirP fs_writeFile
              fs_readFile exec_exec now)
    as [(m & Hlog) | (environment & st & region & d_aws & _ & Hst & _ & Haws
                      & Hshape)].
  { rewrite Hlog in Hin. destruct Hin as [Hin | []]. discriminate. }
  rewrite Hs in Hst. inversion Hst; subst st. clear Hst.
  assert (Hd : forall d, Forall aws_event d -> In (Setup.Exec command args) d ->
                         command = "chmod").
  { intros d Hall Hd. rewrite Forall_forall in Hall. exact (Hall _ Hd). }
  destruct Hshape as [(m & Hlog) | [(m & d & Hd' & Hlog)
    | (f & envVars & d_kube & _ & Hkube & Hfull & tail & Htail & Hlog)]];
    rewrite Hlog in Hin; clear Hlog;
    (destruct Hin as [Hin | Hin]; [discriminate | ]);
    apply in_app_or in Hin; (destruct Hin as [Hin | Hin]; [left; eauto | ]).
  - destruct Hin as [Hin | []]. discriminate.
  - destruct Hin as [Hin | Hin]; [discriminate | ].
    apply in_app_or in Hin. destruct Hin as [Hin | [Hin | []]];
      [ | discriminate].
    destruct Hd' as [-> | [f ->]]; [destruct Hin | ].
    destruct Hin as [Hin | []]. discriminate.
  - destruct Hin as [Hin | [Hin | Hin]]; try discriminate.
    apply in_app_or in Hin. destruct Hin as [Hin | Hin].
    { apply in_exports in Hin. discriminate. }
    destruct Hin as [Hin | Hin]; [discriminate | ].
    apply in_app_or in Hin. destruct Hin as [Hin | Hin].
    + right. rewrite Forall_forall in Hkube.
      pose proof (Hkube _ Hin) as Hc. cbn in Hc.
      destruct Hfull as [Hfull Hmissing].
      { intros ->. destruct Hin. }
      split; [exact Hc | split; [now apply or_else_full | exact Hmissing]].
    + destruct Htail as [(m & _ & ->) | ->].
      * destruct Hin as [Hin | []]. discriminate.
      * destruct Hin as [Hin | [Hin | [Hin | []]]]; discriminate.
Qed.

(** X16.  Every run of the action ends in one of two ways: its last
    event is the one [SetFailed] of the log and no output is set; or the
    [.env] file was read, the log ends with the outputs [config] (the
    serialisation of the variables read from that file) and [timestamp]
    and with the closing line, and the run is not marked as failed. *)
Theorem setup_ends_failed_or_with_outputs :
  (exists l m,
     setup_log getInput env cwd path_join io_mkdirP fs_writeFile fs_readFile
       exec_exec now
     = (l ++ [Setup.SetFailed ("Environment setup failed: " ++ m)])%list /\
     Forall setup_quiet l)
  \/
  (exists l f envVars,
     fs_readFile f = inr envVars /\
     setup_log getInput env cwd path_join io_mkdirP fs_writeFile fs_readFile
       exec_exec now
     = (l ++ [Setup.SetOutput "config"
                (Setup.stringify (Setup.parse_env envVars));
              Setup.SetOutput "timestamp" now;
              Setup.Info "Environment setup completed successfully"])%list /\
     Forall setup_quiet l).
Proof.
  destruct (setup_run_shape getInput env cwd path_join io_mkdirP fs_writeFile
              fs_readFile exec_exec now)
    as [(m & Hlog) | (environment & st & region & d_aws & _ & _ & _ & Haws
                      & Hshape)].
  { left. exists [], m. split; [exact Hlog | constructor]. }
  apply aws_events_plain in Haws. destruct Haws as (_ & Haws & _).
  destruct Hshape as [(m & Hlog) | [(m & d & Hd & Hlog)
    | (f & envVars & d_kube & Hread & Hkube & _ & tail & Htail & Hlog)]];
    rewrite Hlog; clear Hlog.
  - left. exists (setup_head environment st :: d_aws). eexists.
    split; [reflexivity | ]. constructor; [exact I | exact Haws].
  - left.
    exists (setup_head environment st :: d_aws ++
            Setup.Info "✅ AWS credentials configured" :: d)%list.
    eexists. split.
    + cbn [app]. rewrite <- app_assoc. reflexivity.
    + constructor; [exact I | ]. apply Forall_app. split; [exact Haws | ].
      constructor; [exact I | ].
      destruct Hd as [-> | [f ->]]; repeat constructor.
  - apply kube_events_plain in Hkube. destruct Hkube as [_ Hkube].
    assert (Hl : Forall setup_quiet
                   (setup_head environment st :: d_aws ++
                    Setup.Info "✅ AWS credentials configured" ::
                    Setup.ReadFile f ::
                    exports (Setup.entries (Setup.parse_env envVars)) ++
                    Setup.Info "✅ Environment variables configured" ::
                    d_kube)).
    { constructor; [exact I | ]. apply Forall_app. split; [exact Haws | ].
      do 2 (constructor; [exact I | ]). apply Forall_app.
      split; [apply exports_plain | ]. constructor; [exact I | exact Hkube]. }
    assert (Heq : forall t,
              (setup_head environment st :: d_aws ++
               Setup.Info "✅ AWS credentials configured" ::
               Setup.ReadFile f ::
               exports (Setup.entries (Setup.parse_env envVars)) ++
               Setup.Info "✅ Environment variables configured" ::
               d_kube ++ t)%list
              = ((setup_head environment st :: d_aws ++
                  Setup.Info "✅ AWS credentials configured" ::
                  Setup.ReadFile f ::
                  exports (Setup.entries (Setup.parse_env envVars)) ++
                  Setup.Info "✅ Environment variables configured" ::
                  d_kube) ++ t)%list).
    { intros t. cbn [app]. rewrite <- !app_assoc. cbn [app].
      rewrite <- !app_assoc. reflexivity. }
    rewrite Heq.
    destruct Htail as [(m & _ & ->) | ->].
    + left. do 2 eexists. split; [reflexivity | exact Hl].
    + right. eexists. exists f, envVars. split; [exact Hread | ].
      split; [reflexivity | exact Hl].
Qed.

(** X17.  The variables are exported all or none: the exports of a run
    are either none at all, or, the [.env] file having been read, exactly
    the variables read from it, each once, in the order of
    [Object.entries]; and so they stay when a later step fails. *)
Theorem variables_are_exported_all_or_none :
  filter is_export
    (setup_log getInput env cwd path_join io_mkdirP fs_writeFile fs_readFile
       exec_exec now) = []
  \/
  (exists f envVars,
     fs_readFile f = inr envVars /\
     filter is_export
       (setup_log getInput env cwd path_join io_mkdirP fs_writeFile
          fs_readFile exec_exec now)
     = map (fun p => Setup.ExportVariable (fst p) (snd p))
           (Setup.entries (Setup.parse_env envVars)) /\
     NoDup (map fst (Setup.entries (Setup.parse_env envVars)))).
Proof.
  destruct (setup_run_shape getInput env cwd path_join io_mkdirP fs_writeFile
              fs_readFile exec_exec now)
    as [(m & Hlog) | (environment & st & region & d_aws & _ & _ & _ & Haws
                      & Hshape)].
  { left. rewrite Hlog. reflexivity. }
  apply aws_events_plain in Haws. destruct Haws as (Haws & _ & _).
  destruct Hshape as [(m & Hlog) | [(m & d & Hd & Hlog)
    | (f & envVars & d_kube & Hread & Hkube & _ & tail & Htail & Hlog)]];
    rewrite Hlog; clear Hlog.
  - left. cbn [filter setup_head is_export]. rewrite filter_app, Haws.
    reflexivity.
  - left. cbn [filter setup_head is_export]. rewrite filter_app, Haws.
    cbn [app filter is_export]. rewrite filter_app.
    destruct Hd as [-> | [f ->]]; reflexivity.
  - right. exists f, envVars. split; [exact Hread | ].
    split; [ | apply variable_names_are_distinct_aux].
    apply kube_events_plain in Hkube. destruct Hkube as [Hkube _].
    cbn [filter setup_head is_export]. rewrite filter_app, Haws.
    cbn [app filter is_export]. rewrite filter_app, filter_exports.
    cbn [filter is_export]. rewrite filter_app, Hkube.
    fold (exports (Setup.entries (Setup.parse_env envVars))).
    destruct Htail as [(m & _ & ->) | ->]; cbn; rewrite app_nil_r;
      reflexivity.
Qed.

End Setup_properties.

(** A concrete environment for the setup action: the environment is
    "staging", the other inputs are not supplied, paths are joined with a
    slash, and every operation succeeds. *)
Definition staging_inputs (name : string) (required : bool)
  : Error + string :=
  if String.eqb name "environment" then inr "staging" else inr EmptyString.

Definition slash_join (a : option string) (b : string) : Error + string :=
  match a with
  | Some dir => inr (dir ++ "/" ++ b)
  | None => inl (mkError "The path argument must be of type string")
  end.

Definition all_set (name : string) : option string :=
  if String.eqb name "HOME" then Some "/home/runner" else Some "secret".

Definition staging_log (env : string -> option string) : list Setup.Event :=
  setup_log staging_inputs env "/work" slash_join
    (fun _ => inr tt) (fun _ _ => inr tt) (fun _ => inr sample_env)
    (fun _ _ => inr 0) "T".

Example staging_run :
  filter (fun ev => negb (match ev with
                          | Setup.WriteFile _ _ => true
                          | Setup.Info _ => true
                          | _ => false
                          end))
         (staging_log all_set)
  = [Setup.MkdirP "/home/runner/.aws";
     Setup.Exec "chmod" ["-R"; "600"; "/home/runner/.aws"];
     Setup.ReadFile "/work/deployment/environments/staging/.env";
     Setup.ExportVariable "DB_HOST" "replica.internal";
     Setup.ExportVariable "DB_URL" "postgres://db/app?sslmode";
     Setup.Exec "kubectl" ["config"; "use-context"; "staging"];
     Setup.Exec "kubectl" ["cluster-info"];
     Setup.SetOutput "config"
       (Setup.stringify [("DB_HOST", "replica.internal");
                         ("DB_URL", "postgres://db/app?sslmode")]);
     Setup.SetOutput "timestamp" "T"].
Proof. reflexivity. Qed.

Lemma missing_credentials_fail_the_setup_at_once_witness :
  staging_log (fun _ => None)
  = [Setup.Info ("Setting up " ++ "staging" ++ " environment (" ++
                 Setup.or_else EmptyString "full" ++ " setup)");
     Setup.SetFailed
       ("Environment setup failed: Failed to setup AWS credentials: " ++
        "AWS credentials not found in environment")].
Proof.
  apply (missing_credentials_fail_the_setup_at_once
           staging_inputs (fun _ => None) "/work" slash_join
           (fun _ => inr tt) (fun _ _ => inr tt) (fun _ => inr sample_env)
           (fun _ _ => inr 0) "T" "staging" EmptyString EmptyString).
  - reflexivity.
  - reflexivity.
  - reflexivity.
  - reflexivity.
Defined.

Lemma kubectl_only_in_a_full_setup_with_kubeconfig_witness :
  "kubectl" = "chmod" \/
  ("kubectl" = "kubectl" /\
   (EmptyString = EmptyString \/ EmptyString = "full") /\
   Setup.missing (all_set "KUBECONFIG") = false).
Proof.
  apply (kubectl_only_in_a_full_setup_with_kubeconfig
           staging_inputs all_set "/work" slash_join
           (fun _ => inr tt) (fun _ _ => inr tt) (fun _ => inr sample_env)
           (fun _ _ => inr 0) "T" EmptyString "kubectl" ["cluster-info"]).
  - reflexivity.
  - vm_compute. do 11 right. now left.
Defined.

(* ================================================================== *)
(** ** The credentials files *)
(* ================================================================== *)

Section Credentials.

Variable env : string -> option string.
Variable path_join : option string -> string -> Error + string.
Variable io_mkdirP : string -> Error + unit.
Variable fs_writeFile : string -> string -> Error + unit.
Variable exec_exec : string -> list string -> Error + Z.

Ltac credentials_cases :=
  unfold Setup.setupAwsCredentials, Setup.try_catch, Setup.bind, Setup.lift,
    Setup.throw, Setup.ret, Setup.emit;
  repeat (cbv beta zeta;
          match goal with
          | |- context [match ?x with inl _ => _ | inr _ => _ end] =>
              destruct x eqn:?
          | |- context [if ?b then _ else _] => destruct b eqn:?
          end);
  cbn [fst snd].

Ltac in_log H :=
  repeat (apply in_app_or in H; destruct H as [H | H]);
  try (destruct H as [H | []]; try discriminate H).

(** X18.  The credentials step writes two files at most: [config] and
    [credentials] in the directory [.aws] of [HOME], the first with the
    region, the second with the two keys.  It writes nothing unless both
    keys are present and the directory has been made, and it writes
    [credentials] only after [config] has been written. *)
Theorem only_the_two_credentials_files_are_written
    (region : string) (l : list Setup.Event) (path content : string) :
  In (Setup.WriteFile path content)
     (snd (Setup.setupAwsCredentials env path_join io_mkdirP fs_writeFile
             exec_exec region l)) ->
  In (Setup.WriteFile path content) l \/
  (Setup.missing (env "AWS_ACCESS_KEY_ID") = false /\
   Setup.missing (env "AWS_SECRET_ACCESS_KEY") = false /\
   exists dir config_path,
     path_join (env "HOME") ".aws" = inr dir /\
     io_mkdirP dir = inr tt /\
     path_join (Some dir) "config" = inr config_path /\
     ((path = config_path /\
       content = Setup.lines ["[default]"; "region = " ++ region;
                              "output = json"])
      \/
      (fs_writeFile config_path
         (Setup.lines ["[default]"; "region = " ++ region; "output = json"])
       = inr tt /\
       path_join (Some dir) "credentials" = inr path /\
       content
       = Setup.lines
           ["[default]";
            "aws_access_key_id = " ++ Setup.text (env "AWS_ACCESS_KEY_ID");
            "aws_secret_access_key = " ++
            Setup.text (env "AWS_SECRET_ACCESS_KEY")]))).
Proof.
  credentials_cases; intros Hin; in_log Hin; auto;
    match goal with
    | H : _ || _ = false |- _ =>
        apply orb_false_iff in H; destruct H as [Hk1 Hk2]
    end;
    right; (split; [exact Hk1 | split; [exact Hk2 | ]]);
    repeat match goal with u : unit |- _ => destruct u end;
    inversion Hin; subst;
    do 2 eexists;
    (split; [reflexivity | split; [eassumption | split; [eassumption | ]]]);
    first [ left; split; reflexivity
          | right; split; [eassumption | split; [eassumption | reflexivity]] ].
Qed.

End Credentials.

Lemma only_the_two_credentials_files_are_written_witness :
  In (Setup.WriteFile "/home/runner/.aws/config"
        (Setup.lines ["[default]"; "region = eu-west-1"; "output = json"]))
     [] \/
  (Setup.missing (all_set "AWS_ACCESS_KEY_ID") = false /\
   Setup.missing (all_set "AWS_SECRET_ACCESS_KEY") = false /\
   exists dir config_path,
     slash_join (all_set "HOME") ".aws" = inr dir /\
     (fun _ : string => @inr Error unit tt) dir = inr tt /\
     slash_join (Some dir) "config" = inr config_path /\
     (("/home/runner/.aws/config" = config_path /\
       Setup.lines ["[default]"; "region = eu-west-1"; "output = json"]
       = Setup.lines ["[default]"; "region = " ++ "eu-west-1";
                      "output = json"])
      \/
      ((fun _ _ : string => @inr Error unit tt) config_path
         (Setup.lines ["[default]"; "region = " ++ "eu-west-1";
                       "output = json"])
       = inr tt /\
       slash_join (Some dir) "credentials" = inr "/home/runner/.aws/config" /\
       Setup.lines ["[default]"; "region = eu-west-1"; "output = json"]
       = Setup.lines
           ["[default]";
            "aws_access_key_id = " ++ Setup.text (all_set "AWS_ACCESS_KEY_ID");
            "aws_secret_access_key = " ++
            Setup.text (all_set "AWS_SECRET_ACCESS_KEY")]))).
Proof.
  apply (only_the_two_credentials_files_are_written
           all_set slash_join (fun _ => inr tt) (fun _ _ => inr tt)
           (fun _ _ => inr 0) "eu-west-1" []).
  vm_compute. right. now left.
Defined.
